(** * The Wasm export handler of the state-based indexer

    A shallow embedding of the [wasm] handler maker: the key codec and the
    matcher ([match]), the code-ID resolver ([getCodeId]) and the batch
    processor ([process]) with its sinks, allowlist filter and watermark
    update.

    Conventions of the embedding.
    - A [Uint8Array] is a [list Z] whose elements lie in [0, 256).
    - A JavaScript string is a Rocq [string]; a string obtained by decoding
      UTF-8 is represented by the bytes of its UTF-8 encoding.
    - Block heights, block times and code IDs are integers ([Z]). The
      [BigInt] conversion of an integer-valued input is the identity;
      [Number] of an integer is [toNumber], the nearest double, which is
      the integer itself below [2 ^ 53]. A [Date] is kept as its
      milliseconds, for times in the range of [Date].
    - [undefined] read from an array is [None]; arithmetic on it yields
      [NaN], see [jsnum].
    - A function that may throw returns a [result]; what is thrown is a
      [Thrown]. *)

From Stdlib Require Import ZArith List String Ascii DecimalString Lia Bool
  Sorted DecimalZ.
From stdpp Require Import base option list gmap strings.

Local Open Scope string_scope.
Local Open Scope list_scope.
Local Open Scope Z_scope.

(** ** Results of fallible code *)

(** A thrown value, as far as the handler and [retry] tell thrown values
    apart: its message (for a value that is not an [Error], the value as
    it prints), whether it has an own property [retryable] that is falsy,
    and whether it is [null] or [undefined], which has no properties. *)
Record Thrown : Type := {
  thrown_message : string;
  thrown_final : bool;
  thrown_nullish : bool
}.

(** [new Error(message)]: an error with no property [retryable]. *)
Definition Error_ (message : string) : Thrown :=
  {| thrown_message := message; thrown_final := false;
     thrown_nullish := false |}.
Coercion Error_ : string >-> Thrown.

(** An error object that may have the property [retryable]. *)
Definition errorObject (message : string) (final : bool) : Thrown :=
  {| thrown_message := message; thrown_final := final;
     thrown_nullish := false |}.

Inductive result (A : Type) : Type :=
| Ok (a : A)
| Throw (error : Thrown).
Arguments Ok {A} a.
Arguments Throw {A} error.

(** ** JavaScript numbers that may be [NaN] *)

Inductive jsnum : Type :=
| Num (z : Z)
| NaN.

(** [a + b] where [b] may be [undefined] ([undefined] coerces to [NaN]). *)
Definition js_add (a : Z) (b : option Z) : jsnum :=
  match b with
  | Some z => Num (a + z)
  | None => NaN
  end.

(** [a < b]: every comparison with [NaN] is false. *)
Definition js_lt (a : Z) (b : jsnum) : bool :=
  match b with
  | Num z => a <? z
  | NaN => false
  end.

(** [ToIntegerOrInfinity]: [NaN] becomes 0. *)
Definition toIntegerOrInfinity (x : jsnum) : Z :=
  match x with
  | Num z => z
  | NaN => 0
  end.

(** ** [Number] of an integer

    [Number(x)] for a bigint [x], or for a string [x] that is a decimal
    integer: the double nearest to the integer, ties to even. A finite
    double that is an integer is written as that integer; the integer
    [2 ^ 1024], which is above every finite double, stands for
    [Infinity], and its opposite for [-Infinity]. *)

(** The nearest 53-bit mantissa for a magnitude. *)
Definition roundToDouble (n : Z) : Z :=
  let e := Z.log2 n - 52 in
  if e <=? 0 then n
  else
    let q := Z.shiftr n e in
    let r := Z.land n (Z.ones e) in
    let half := Z.shiftl 1 (e - 1) in
    let q' :=
      if (half <? r) || ((r =? half) && Z.odd q) then q + 1 else q in
    Z.shiftl q' e.

Definition toNumber (z : Z) : Z :=
  Z.sgn z * Z.min (roundToDouble (Z.abs z)) (2 ^ 1024).

(** ** Typed arrays *)

(** [a[i]], [undefined] out of range. *)
Definition at_index (a : list Z) (i : nat) : option Z := nth_error a i.

(** The clamping of a relative index done by [%TypedArray%.prototype.slice]. *)
Definition clamp_index (len rel : Z) : Z :=
  if rel <? 0 then Z.max (len + rel) 0 else Z.min rel len.

(** [a.slice(start, end)]; [end_ = None] is an omitted argument. *)
Definition slice (a : list Z) (start : jsnum) (end_ : option jsnum) : list Z :=
  let len := Z.of_nat (length a) in
  let k := clamp_index len (toIntegerOrInfinity start) in
  let final :=
    match end_ with
    | None => len
    | Some e => clamp_index len (toIntegerOrInfinity e)
    end in
  let count := Z.max (final - k) 0 in
  firstn (Z.to_nat count) (skipn (Z.to_nat k) a).

(** Decimal rendering of an integer ([Number.prototype.toString],
    [BigInt.prototype.toString]). *)
Definition decimal (z : Z) : string :=
  NilZero.string_of_int (Z.to_int z).

(** [a.join(',')]. *)
Definition join_comma (a : list Z) : string :=
  String.concat "," (map decimal a).

(** [parts.join(':')]. *)
Definition join_colon (parts : list string) : string :=
  String.concat ":" parts.

(** ** Strings and bytes *)

Definition byte_of_ascii (c : ascii) : Z := Z.of_N (N_of_ascii c).
Definition ascii_of_byte (b : Z) : ascii := ascii_of_N (Z.to_N b).

Definition bytes_of_string (s : string) : list Z :=
  map byte_of_ascii (list_ascii_of_string s).
Definition string_of_bytes (bs : list Z) : string :=
  string_of_list_ascii (map ascii_of_byte bs).

(** [s.includes(t)]. *)
Fixpoint includes (t s : string) : bool :=
  String.prefix t s ||
  match s with
  | EmptyString => false
  | String _ s' => includes t s'
  end.

(** *** [fromBase64] of [@cosmjs/encoding]

    The string must consist of alphabet characters followed by at most two
    [=], and its length must be a multiple of four; otherwise it throws
    ([None]). *)

Definition b64_value (c : ascii) : option Z :=
  let n := byte_of_ascii c in
  if (65 <=? n) && (n <=? 90) then Some (n - 65)
  else if (97 <=? n) && (n <=? 122) then Some (n - 71)
  else if (48 <=? n) && (n <=? 57) then Some (n + 4)
  else if n =? 43 then Some 62
  else if n =? 47 then Some 63
  else None.

Definition is_pad (c : ascii) : bool := byte_of_ascii c =? 61.

(** Splits the trailing padding off: the body and the number of [=]. *)
Fixpoint b64_split (cs : list ascii) : option (list Z * nat) :=
  match cs with
  | [] => Some ([], 0%nat)
  | c :: rest =>
    if is_pad c then
      match rest with
      | [] => Some ([], 1%nat)
      | [c'] => if is_pad c' then Some ([], 2%nat) else None
      | _ => None
      end
    else
      match b64_value c, b64_split rest with
      | Some v, Some (vs, p) => Some (v :: vs, p)
      | _, _ => None
      end
  end.

(** Decodes the sextets: three bytes per full quadruple, one byte for a
    final pair and two bytes for a final triple. *)
Fixpoint b64_bytes (vs : list Z) : list Z :=
  match vs with
  | a :: b :: c :: d :: rest =>
    let n := a * 262144 + b * 4096 + c * 64 + d in
    (n / 65536) mod 256 :: (n / 256) mod 256 :: n mod 256 :: b64_bytes rest
  | [a; b; c] =>
    let n := a * 1024 + b * 16 + c / 4 in
    [(n / 256) mod 256; n mod 256]
  | [a; b] => [(a * 4 + b / 16) mod 256]
  | _ => []
  end.

Definition fromBase64 (s : string) : option (list Z) :=
  let cs := list_ascii_of_string s in
  if negb (Nat.eqb (length cs mod 4) 0) then None
  else
    match b64_split cs with
    | Some (vs, _) => Some (b64_bytes vs)
    | None => None
    end.

(** *** [fromUtf8] of [@cosmjs/encoding]

    [new TextDecoder('utf-8', { fatal: true }).decode(data)]: throws
    ([None]) on any ill-formed sequence, and drops a leading byte-order
    mark. *)

Definition in_range (lo hi b : Z) : bool := (lo <=? b) && (b <=? hi).
Definition continuation (b : Z) : bool := in_range 128 191 b.

Fixpoint utf8_valid (bs : list Z) : bool :=
  match bs with
  | [] => true
  | b0 :: t0 =>
    if in_range 0 127 b0 then utf8_valid t0
    else
      match t0 with
      | [] => false
      | b1 :: t1 =>
        if in_range 194 223 b0 then continuation b1 && utf8_valid t1
        else
          match t1 with
          | [] => false
          | b2 :: t2 =>
            if in_range 224 239 b0 then
              (if b0 =? 224 then in_range 160 191 b1
               else if b0 =? 237 then in_range 128 159 b1
               else continuation b1)
              && continuation b2 && utf8_valid t2
            else
              match t2 with
              | [] => false
              | b3 :: t3 =>
                if in_range 240 244 b0 then
                  (if b0 =? 240 then in_range 144 191 b1
                   else if b0 =? 244 then in_range 128 143 b1
                   else continuation b1)
                  && continuation b2 && continuation b3 && utf8_valid t3
                else false
              end
          end
      end
  end.

Definition strip_bom (bs : list Z) : list Z :=
  match bs with
  | 239 :: 187 :: 191 :: rest => rest
  | _ => bs
  end.

Definition fromUtf8 (bs : list Z) : option string :=
  if utf8_valid bs then Some (string_of_bytes (strip_bom bs)) else None.

(** *** [toBech32] of [@cosmjs/encoding]

    [bech32.encode(prefix, bech32.toWords(data))]: the prefix, [1], the
    data regrouped in 5-bit words and a 6-word checksum, refused ([None])
    beyond 90 characters. *)

Definition bech32_charset : string := "qpzry9x8gf2tvdw0s3jn54khce6mua7l".

Definition bech32_generator : list Z :=
  [996825010; 642813549; 513874426; 1027748829; 705979059].

Definition bech32_polymod_step (chk v : Z) : Z :=
  let top := Z.shiftr chk 25 in
  let chk := Z.lxor (Z.shiftl (Z.land chk 33554431) 5) v in
  fold_left
    (fun acc '(i, g) => if Z.testbit top i then Z.lxor acc g else acc)
    (combine [0; 1; 2; 3; 4] bech32_generator) chk.

Definition bech32_polymod (values : list Z) : Z :=
  fold_left bech32_polymod_step values 1.

Definition bech32_hrp_expand (hrp : string) : list Z :=
  let cs := bytes_of_string hrp in
  map (fun c => Z.shiftr c 5) cs ++ [0] ++ map (fun c => Z.land c 31) cs.

Definition bech32_checksum (hrp : string) (words : list Z) : list Z :=
  let polymod :=
    Z.lxor
      (bech32_polymod
         (bech32_hrp_expand hrp ++ words ++ [0; 0; 0; 0; 0; 0])) 1 in
  map (fun i => Z.land (Z.shiftr polymod (5 * (5 - i))) 31)
    [0; 1; 2; 3; 4; 5].

Fixpoint bech32_toWords (acc bits : Z) (data : list Z) : list Z :=
  match data with
  | [] => if 0 <? bits then [Z.land (Z.shiftl acc (5 - bits)) 31] else []
  | b :: rest =>
    let acc := Z.lor (Z.shiftl acc 8) b in
    let bits := bits + 8 in
    if 10 <=? bits then
      Z.land (Z.shiftr acc (bits - 5)) 31
      :: Z.land (Z.shiftr acc (bits - 10)) 31
      :: bech32_toWords (Z.land acc (Z.ones (bits - 10))) (bits - 10) rest
    else
      Z.land (Z.shiftr acc (bits - 5)) 31
      :: bech32_toWords (Z.land acc (Z.ones (bits - 5))) (bits - 5) rest
  end.

Definition bech32_char (w : Z) : ascii :=
  match String.get (Z.to_nat w) bech32_charset with
  | Some c => c
  | None => "q"%char
  end.

Definition bech32_encode (hrp : string) (data : list Z) : option string :=
  let words := bech32_toWords 0 0 data in
  if 90 <? Z.of_nat (String.length hrp) + 7 + Z.of_nat (length words)
  then None
  else
    Some (hrp +:+ "1"
          +:+ string_of_list_ascii
                (map bech32_char (words ++ bech32_checksum hrp words))).

(** ** Data of the handler *)

(** Parsed JSON. Numbers keep their literal; [JNull] is [null]. *)
#[warnings="-register-all"] Inductive json : Type :=
| JNull
| JBool (b : bool)
| JNumber (literal : string)
| JString (s : string)
| JArray (items : list json)
| JObject (fields : list (string * json)).

(** The fields of the [ContractInfo] protobuf message read by the handler. *)
Record ContractInfo : Type := {
  ci_codeId : Z;
  ci_creator : string;
  ci_admin : string;
  ci_label : string
}.

Inductive Operation : Type := Write | Delete.

Definition is_write (o : Operation) : bool :=
  match o with Write => true | Delete => false end.
Definition is_delete (o : Operation) : bool :=
  match o with Write => false | Delete => true end.

(** A trace record: [key] and [value] are base64 text. *)
Record TracedEvent : Type := {
  t_operation : Operation;
  t_key : string;
  t_value : string;
  t_blockHeight : Z;
  t_blockTimeUnixMs : Z
}.

Record ContractEventData : Type := {
  ce_address : string;
  ce_codeId : Z;
  ce_admin : string;
  ce_creator : string;
  ce_label : string;
  ce_blockHeight : Z;
  ce_blockTimeUnixMs : Z
}.

Record StateEventData : Type := {
  se_codeId : Z;
  se_contractAddress : string;
  se_blockHeight : Z;
  se_blockTimeUnixMs : Z;
  se_key : string;
  se_value : string;
  se_valueJson : json;
  se_delete : bool
}.

(** What [match] returns: the event ID and the typed data. *)
Inductive Event : Type :=
| ContractEvent (id : string) (data : ContractEventData)
| StateEvent (id : string) (data : StateEventData).

Definition event_blockHeight (e : Event) : Z :=
  match e with
  | ContractEvent _ d => ce_blockHeight d
  | StateEvent _ d => se_blockHeight d
  end.

Definition event_blockTimeUnixMs (e : Event) : Z :=
  match e with
  | ContractEvent _ d => ce_blockTimeUnixMs d
  | StateEvent _ d => se_blockTimeUnixMs d
  end.

(** The options of the handler maker, with the chain ID already loaded. *)
Record Config : Type := {
  bech32Prefix : string;
  chainId : string;
  sendWebhooks : bool
}.

(** Library functions the matcher calls: bech32 encoding, the protobuf
    decoder of [ContractInfo] and [JSON.parse]; [None] is a thrown error. *)
Record Codecs : Type := {
  toBech32 : string -> list Z -> option string;
  ContractInfo_decode : list Z -> option ContractInfo;
  JSON_parse : string -> option json
}.

Definition STORE_NAME : string := "wasm".
Definition DEFAULT_CONTRACT_BYTE_LENGTH : Z := 32.

(** ** The matcher *)

Section Matcher.

Variable cfg : Config.
Variable lib : Codecs.

Definition isTerraClassic : bool := String.eqb (chainId cfg) "columbus-5".

Definition CONTRACT_KEY_PREFIX : Z := if isTerraClassic then 4 else 2.
Definition CONTRACT_STORE_PREFIX : Z := if isTerraClassic then 5 else 3.

(** [x === p] for an array element [x] that may be [undefined]. *)
Definition byte_is (x : option Z) (p : Z) : bool :=
  match x with
  | Some b => b =? p
  | None => false
  end.

Definition contractByteLength (keyData : list Z) : option Z :=
  if isTerraClassic then at_index keyData 1
  else Some DEFAULT_CONTRACT_BYTE_LENGTH.

Definition contractAddressOffset : Z := if isTerraClassic then 2 else 1.

(** The [value] of a state event: the UTF-8 text of the decoded value, or
    the trace's value itself when it is empty or fails to decode. *)
Definition stateValue (trace : TracedEvent) : string :=
  if String.eqb (t_value trace) EmptyString then t_value trace
  else
    match fromBase64 (t_value trace) with
    | Some bytes =>
      match fromUtf8 bytes with
      | Some text => text
      | None => t_value trace
      end
    | None => t_value trace
    end.

Definition stateValueJson (trace : TracedEvent) (value : string) : json :=
  if negb (is_delete (t_operation trace))
     && negb (String.eqb value EmptyString)
  then
    match JSON_parse lib value with
    | Some parsed => parsed
    | None => JNull
    end
  else JNull.

(** The part of [match] after the key is parsed: a contract event for a
    written contract-info key, a state event for everything else. *)
Definition emitEvent (trace : TracedEvent) (isContractKey : bool)
    (contractAddress key : string) : result (option Event) :=
  let blockHeight := t_blockHeight trace in
  let blockTimeUnixMs := t_blockTimeUnixMs trace in
  (* If contract key, save contract info. *)
  if is_write (t_operation trace) && isContractKey then
    match fromBase64 (t_value trace) with
    | None => Throw "Invalid base64 string format"
    | Some protobufContractInfo =>
      match ContractInfo_decode lib protobufContractInfo with
      | None => Ok None
      | Some contractInfo =>
        if ci_codeId contractInfo =? 0 then Ok None
        else
          Ok (Some (ContractEvent
            (join_colon ["contract"; decimal blockHeight; contractAddress])
            {| ce_address := contractAddress;
               ce_codeId := toNumber (ci_codeId contractInfo);
               ce_admin := ci_admin contractInfo;
               ce_creator := ci_creator contractInfo;
               ce_label := ci_label contractInfo;
               ce_blockHeight := blockHeight;
               ce_blockTimeUnixMs := blockTimeUnixMs |}))
      end
    end
  else
    (* Otherwise, save state event. *)
    let value := stateValue trace in
    let valueJson := stateValueJson trace value in
    Ok (Some (StateEvent
      (join_colon ["state"; decimal blockHeight; contractAddress; key])
      {| se_codeId := 0;
         se_contractAddress := contractAddress;
         se_blockHeight := blockHeight;
         se_blockTimeUnixMs := blockTimeUnixMs;
         se_key := key;
         se_value := value;
         se_valueJson := valueJson;
         se_delete := is_delete (t_operation trace) |})).

Definition match_ (trace : TracedEvent) : result (option Event) :=
  match fromBase64 (t_key trace) with
  | None => Throw "Invalid base64 string format"
  | Some keyData =>
    if negb (byte_is (at_index keyData 0) CONTRACT_STORE_PREFIX)
       && negb (byte_is (at_index keyData 0) CONTRACT_KEY_PREFIX)
    then Ok None
    else
      let addressEnd :=
        js_add contractAddressOffset (contractByteLength keyData) in
      (* Ignore keys that are too short to be a wasm key. *)
      if js_lt (Z.of_nat (length keyData)) addressEnd then Ok None
      else
        match
          toBech32 lib (bech32Prefix cfg)
            (slice keyData (Num contractAddressOffset) (Some addressEnd))
        with
        | None => Throw "Exceeds length limit"
        | Some contractAddress =>
          (* Convert key to comma-separated list of bytes. *)
          let key := join_comma (slice keyData addressEnd None) in
          emitEvent trace
            (byte_is (at_index keyData 0) CONTRACT_KEY_PREFIX)
            contractAddress key
        end
  end.

(** The layout of a key of either family, as the codec reads it: the
    prefix, on Terra Classic the length of the address, the address and
    the user key. *)
Definition encodeKey (tag : Z) (address userKey : list Z) : list Z :=
  if isTerraClassic
  then tag :: Z.of_nat (length address) :: address ++ userKey
  else tag :: address ++ userKey.

(** The address length the chain variant admits. *)
Definition addressLengthOk (address : list Z) : Prop :=
  if isTerraClassic then (length address <= 255)%nat
  else length address = 32%nat.

End Matcher.

(** A protobuf varint: seven bits a byte, the low ones first, the top bit
    of a byte saying that another byte follows. *)
Fixpoint varint (bytes : list Z) : option (Z * list Z) :=
  match bytes with
  | [] => None
  | b :: rest =>
    if b <? 128 then Some (b, rest)
    else
      match varint rest with
      | Some (high, rest') => Some (b - 128 + 128 * high, rest')
      | None => None
      end
  end.

(** The library functions the matcher is run with on concrete records:
    bech32 as above; a protobuf decoder that reads the empty message and
    a message of the single field [code_id], a varint of at most nine
    bytes; a [JSON.parse] that knows the literals [null], [true] and
    [false]. *)
Definition demoCodecs : Codecs := {|
  toBech32 := bech32_encode;
  ContractInfo_decode := fun bytes =>
    match bytes with
    | [] =>
      Some {| ci_codeId := 0; ci_creator := EmptyString;
              ci_admin := EmptyString; ci_label := EmptyString |}
    | 8 :: rest =>
      match varint rest with
      | Some (n, []) =>
        if (length rest <=? 9)%nat then
          Some {| ci_codeId := n; ci_creator := EmptyString;
                  ci_admin := EmptyString; ci_label := EmptyString |}
        else None
      | _ => None
      end
    | _ => None
    end;
  JSON_parse := fun text =>
    if String.eqb text "null" then Some JNull
    else if String.eqb text "true" then Some (JBool true)
    else if String.eqb text "false" then Some (JBool false)
    else None
|}.

Definition standardConfig : Config :=
  {| bech32Prefix := "xion"; chainId := "xion-mainnet-1";
     sendWebhooks := false |}.
Definition terraClassicConfig : Config :=
  {| bech32Prefix := "terra"; chainId := "columbus-5";
     sendWebhooks := false |}.

(** ** State-passing code

    Code that reads and writes a store of type [S] and may throw. A thrown
    error keeps the writes made before it. *)

Definition M (S A : Type) : Type := S -> result A * S.

Definition ret {S A : Type} (a : A) : M S A := fun s => (Ok a, s).

Definition throw {S A : Type} (message : string) : M S A :=
  fun s => (Throw message, s).

Definition bind {S A B : Type} (m : M S A) (k : A -> M S B) : M S B :=
  fun s =>
    match m s with
    | (Ok a, s') => k a s'
    | (Throw message, s') => (Throw message, s')
    end.

Notation "'do' x <- m ; k" := (bind m (fun x => k))
  (at level 10, x pattern, m at level 100, k at level 200).

Definition gets {S A : Type} (f : S -> A) : M S A := fun s => (Ok (f s), s).
Definition modify {S : Type} (f : S -> S) : M S unit := fun s => (Ok tt, f s).

Fixpoint mapM {S A B : Type} (f : A -> M S B) (l : list A) : M S (list B) :=
  match l with
  | [] => ret []
  | x :: rest =>
    do y <- f x;
    do ys <- mapM f rest;
    ret (y :: ys)
  end.

(** *** [retry] of [async-await-retry]

    The function is attempted up to [retriesMax] times ([retriesMax || 3]).
    An attempt that throws is the last one when no attempt is left, and
    its error is rethrown; it is the last one too when the error has an
    own property [retryable] that is falsy, and then its error is
    rethrown, and when what was thrown is [null] or [undefined], and then
    the look for the property throws a [TypeError]. The waits between
    attempts, which is all that [exponential] and [interval] decide, are
    not part of the model. *)

Record RetryOptions : Type := {
  retriesMax : nat;
  exponential : bool;
  interval : Z
}.

(** Whether [retry] gives up on a thrown value although attempts are
    left, and what it throws then. *)
Definition stopsRetry (error : Thrown) : bool :=
  thrown_nullish error || thrown_final error.

Definition nullishTypeError : string :=
  "TypeError: Cannot convert undefined or null to object".

Definition rethrown (error : Thrown) : Thrown :=
  if thrown_nullish error then Error_ nullishTypeError else error.

Fixpoint attempts {S A : Type} (fn : M S A) (n : nat) : M S A :=
  match n with
  | O => throw "retry: no attempt"
  | S O => fn
  | S n' =>
    fun s =>
      match fn s with
      | (Ok a, s') => (Ok a, s')
      | (Throw error, s') =>
        if stopsRetry error then (Throw (rethrown error), s')
        else attempts fn n' s'
      end
  end.

Definition retry {S A : Type} (fn : M S A) (options : RetryOptions) : M S A :=
  attempts fn
    (match retriesMax options with O => 3%nat | n => n end).

(** Retry 3 times with exponential backoff starting at 100ms delay. *)
Definition retryOptions : RetryOptions :=
  {| retriesMax := 3; exponential := true; interval := 100 |}.

(** [[...new Set(l)]]: the first occurrence of each element, in order. *)
Fixpoint unique {A : Type} `{EqDecision A} (l : list A) : list A :=
  match l with
  | [] => []
  | x :: rest => x :: filter (fun y => y <> x) (unique rest)
  end.

(** ** The code-ID resolver *)

(** [new LRUCache({ max })]: the entries, most recently used first. *)
Definition LRUCache : Type := list (string * Z).

Definition codeIdCache_max : nat := 1000.

Definition lru_remove (k : string) (c : LRUCache) : LRUCache :=
  filter (fun entry => entry.1 <> k) c.

Fixpoint lru_peek (k : string) (c : LRUCache) : option Z :=
  match c with
  | [] => None
  | (k', v) :: rest => if String.eqb k' k then Some v else lru_peek k rest
  end.

Definition lru_has (k : string) (c : LRUCache) : bool :=
  match lru_peek k c with Some _ => true | None => false end.

(** [get] returns the value and makes the entry the most recently used. *)
Definition lru_get (k : string) (c : LRUCache) : option Z * LRUCache :=
  match lru_peek k c with
  | Some v => (Some v, (k, v) :: lru_remove k c)
  | None => (None, c)
  end.

(** [set] makes the entry the most recently used and evicts the least
    recently used one beyond [max]. *)
Definition lru_set (k : string) (v : Z) (c : LRUCache) : LRUCache :=
  firstn codeIdCache_max ((k, v) :: lru_remove k c).

(** What [client.getContract(address)] does on one call. *)
Inductive RpcOutcome : Type :=
| RpcContract (codeId : Z)
| RpcThrows (isError : bool) (error : Thrown)
| RpcNoClient.

(** The store of the resolver: the cache, the number of lookups attempted
    so far and what was reported to the console and to Sentry. *)
Record Resolver : Type := {
  codeIdCache : LRUCache;
  rpcClock : nat;
  failedGetCodeId : list (string * string)
}.

Section CodeIdResolver.

(** The node: the outcome of the lookup attempted at a given clock. *)
Variable getContract : nat -> string -> RpcOutcome.

Definition setCache (k : string) (v : Z) (r : Resolver) : Resolver :=
  {| codeIdCache := lru_set k v (codeIdCache r);
     rpcClock := rpcClock r;
     failedGetCodeId := failedGetCodeId r |}.

Definition tickRpc (r : Resolver) : Resolver :=
  {| codeIdCache := codeIdCache r;
     rpcClock := S (rpcClock r);
     failedGetCodeId := failedGetCodeId r |}.

Definition notConnected (contractAddress : string) : string :=
  "CosmWasm client not connected, cannot get code ID for "
    +:+ contractAddress +:+ ".".

Definition loadIntoCache (contractAddress : string) : M Resolver unit :=
  fun r =>
    let thrown :=
      match getContract (rpcClock r) contractAddress with
      | RpcContract codeId => inl codeId
      | RpcThrows isError error => inr (isError, error)
      | RpcNoClient => inr (true, Error_ (notConnected contractAddress))
      end in
    let r := tickRpc r in
    match thrown with
    | inl codeId => (Ok tt, setCache contractAddress codeId r)
    | inr (isError, error) =>
      (* If contract not found, ignore, leaving as 0. Otherwise, throw. *)
      if negb isError
         || negb (includes "not found: invalid request"
                    (thrown_message error))
      then (Throw error, r)
      else (Ok tt, setCache contractAddress 0 r)
    end.

Definition cachedCodeId (contractAddress : string) : M Resolver Z :=
  fun r =>
    let '(v, cache) := lru_get contractAddress (codeIdCache r) in
    (Ok (default 0 v),
     {| codeIdCache := cache;
        rpcClock := rpcClock r;
        failedGetCodeId := failedGetCodeId r |}).

Definition getCodeId (contractAddress : string) : M Resolver Z :=
  fun r =>
    if lru_has contractAddress (codeIdCache r) then
      cachedCodeId contractAddress r
    else
      let r :=
        match retry (loadIntoCache contractAddress) retryOptions r with
        | (Ok _, r') => r'
        | (Throw error, r') =>
          (* Set to 0 on failure so we can continue. *)
          setCache contractAddress 0
            {| codeIdCache := codeIdCache r';
               rpcClock := rpcClock r';
               failedGetCodeId :=
                 (contractAddress, thrown_message error)
                 :: failedGetCodeId r' |}
        end in
      cachedCodeId contractAddress r.

End CodeIdResolver.

(** ** The database and the queues *)

(** The [State] singleton row. *)
Record State : Type := {
  state_chainId : string;
  lastWasmBlockHeightExported : Z;
  latestBlockHeight : Z;
  latestBlockTimeUnixMs : Z
}.

(** A [Contract] row; the timestamp is a [Date], kept as its milliseconds. *)
Record Contract : Type := {
  address : string;
  codeId : Z;
  admin : option string;
  creator : option string;
  label : option string;
  instantiatedAtBlockHeight : Z;
  instantiatedAtBlockTimeUnixMs : Z;
  instantiatedAtBlockTimestamp : Z
}.

Record WasmStateEventTransformation : Type := {
  tr_contractAddress : string;
  tr_blockHeight : Z;
  tr_name : string;
  tr_value : json
}.

(** What [process] returns: the exported rows with the contract attached
    to each, when one was found. *)
Inductive CreatedEvent : Type :=
| CreatedStateEvent (event : StateEventData) (contract : option Contract)
| CreatedTransformation (transformation : WasmStateEventTransformation)
    (contract : option Contract).

Inductive QueueJob : Type :=
| WasmCodeTrackerJob (blockHeight : Z) (contractEvents : list ContractEventData)
    (stateEventUpdates : list StateEventData)
| WebhookJob (events : list StateEventData).

(** The store [process] runs on: the tables, the queues, the resolver, the
    number of database calls made so far, and the [stateEvents] variable of
    the running call, which [exportContractsAndEvents] reassigns. *)
Record World : Type := {
  state : option State;
  blocks : gmap Z Z;
  contracts : gmap string Contract;
  wasmStateEvents : gmap (Z * string * string) StateEventData;
  transformations : gmap (string * string * Z) json;
  queued : list QueueJob;
  resolver : Resolver;
  dbClock : nat;
  stateEvents : list StateEventData
}.

Definition with_state (f : option State -> option State) (w : World) : World :=
  {| state := f (state w); blocks := blocks w; contracts := contracts w;
     wasmStateEvents := wasmStateEvents w;
     transformations := transformations w; queued := queued w;
     resolver := resolver w; dbClock := dbClock w;
     stateEvents := stateEvents w |}.

Definition with_blocks (f : gmap Z Z -> gmap Z Z) (w : World) : World :=
  {| state := state w; blocks := f (blocks w); contracts := contracts w;
     wasmStateEvents := wasmStateEvents w;
     transformations := transformations w; queued := queued w;
     resolver := resolver w; dbClock := dbClock w;
     stateEvents := stateEvents w |}.

Definition with_contracts
    (f : gmap string Contract -> gmap string Contract) (w : World) : World :=
  {| state := state w; blocks := blocks w; contracts := f (contracts w);
     wasmStateEvents := wasmStateEvents w;
     transformations := transformations w; queued := queued w;
     resolver := resolver w; dbClock := dbClock w;
     stateEvents := stateEvents w |}.

Definition with_wasmStateEvents
    (f : gmap (Z * string * string) StateEventData ->
         gmap (Z * string * string) StateEventData) (w : World) : World :=
  {| state := state w; blocks := blocks w; contracts := contracts w;
     wasmStateEvents := f (wasmStateEvents w);
     transformations := transformations w; queued := queued w;
     resolver := resolver w; dbClock := dbClock w;
     stateEvents := stateEvents w |}.

Definition with_transformations
    (f : gmap (string * string * Z) json -> gmap (string * string * Z) json)
    (w : World) : World :=
  {| state := state w; blocks := blocks w; contracts := contracts w;
     wasmStateEvents := wasmStateEvents w;
     transformations := f (transformations w); queued := queued w;
     resolver := resolver w; dbClock := dbClock w;
     stateEvents := stateEvents w |}.

Definition with_queued (f : list QueueJob -> list QueueJob) (w : World)
    : World :=
  {| state := state w; blocks := blocks w; contracts := contracts w;
     wasmStateEvents := wasmStateEvents w;
     transformations := transformations w; queued := f (queued w);
     resolver := resolver w; dbClock := dbClock w;
     stateEvents := stateEvents w |}.

Definition with_resolver (f : Resolver -> Resolver) (w : World) : World :=
  {| state := state w; blocks := blocks w; contracts := contracts w;
     wasmStateEvents := wasmStateEvents w;
     transformations := transformations w; queued := queued w;
     resolver := f (resolver w); dbClock := dbClock w;
     stateEvents := stateEvents w |}.

Definition with_dbClock (f : nat -> nat) (w : World) : World :=
  {| state := state w; blocks := blocks w; contracts := contracts w;
     wasmStateEvents := wasmStateEvents w;
     transformations := transformations w; queued := queued w;
     resolver := resolver w; dbClock := f (dbClock w);
     stateEvents := stateEvents w |}.

Definition with_stateEvents
    (f : list StateEventData -> list StateEventData) (w : World) : World :=
  {| state := state w; blocks := blocks w; contracts := contracts w;
     wasmStateEvents := wasmStateEvents w;
     transformations := transformations w; queued := queued w;
     resolver := resolver w; dbClock := dbClock w;
     stateEvents := f (stateEvents w) |}.

(** ** The allowlist *)

Record AllowlistRule : Type := {
  codeIdsKeys : list string;
  stateKeys : list string
}.

(** A rule with its code-ID keys resolved by the Wasm-code service. *)
Record ResolvedRule : Type := {
  codeIds : list Z;
  allowedStateKeys : list string
}.

(** Only save specific state events for contracts matching these code IDs
    keys. These are the own properties of the table; what a lookup finds
    besides them is [inheritedProperties]. *)
Definition CONTRACT_STATE_EVENT_KEY_ALLOWLIST (chain : string)
    : option (list AllowlistRule) :=
  if String.eqb chain "kaiyo-1" then
    Some [ {| codeIdsKeys := ["kujira-fin"];
              stateKeys := ["contract_info"] |} ]
  else if String.eqb chain "osmosis-1" then
    Some [ {| codeIdsKeys :=
                ["levana-finance"; "cl-vault"; "icns-resolver"; "skip-api";
                 "calc-dca"; "rate-limiter"];
              stateKeys := ["contract_info"] |} ]
  else None.

(** The properties an object literal inherits from [Object.prototype]:
    a lookup by one of these names finds a value, and not an array. *)
Definition inheritedProperties : list string :=
  ["constructor"; "__defineGetter__"; "__defineSetter__"; "hasOwnProperty";
   "__lookupGetter__"; "__lookupSetter__"; "isPrototypeOf";
   "propertyIsEnumerable"; "toString"; "valueOf"; "__proto__";
   "toLocaleString"].

Definition includesZ (x : Z) (l : list Z) : bool := existsb (Z.eqb x) l.
Definition includesString (x : string) (l : list string) : bool :=
  existsb (String.eqb x) l.

(** [contracts.find((contract) => contract.address === a)]. *)
Definition findContract (a : string) (l : list Contract) : option Contract :=
  List.find (fun contract => String.eqb (address contract) a) l.

(** The predicate of the allowlist filter: keep events for contracts that
    do not exist in the allowlist or whose state keys are in it. *)
Definition keepStateEvent (allowlist : list ResolvedRule)
    (found : list Contract) (event : StateEventData) : bool :=
  match codeId <$> findContract (se_contractAddress event) found with
  | None => true
  | Some c =>
    (c =? 0) ||
    negb (existsb
            (fun rule =>
               includesZ c (codeIds rule)
               && negb (includesString (se_key event) (allowedStateKeys rule)))
            allowlist)
  end.

(** The filter step: applied only when the resolved allowlist exists and
    is not empty. *)
Definition filterStateEvents (allowlist : option (list ResolvedRule))
    (found : list Contract) (events : list StateEventData)
    : list StateEventData :=
  match allowlist with
  | Some (rule :: rules) =>
    List.filter (keepStateEvent (rule :: rules) found) events
  | _ => events
  end.

(** ** The watermark *)

(** What the comparator of the sort reads of an event:
    [Number(e.data.blockHeight)]. *)
Definition sortKey (e : Event) : Z := toNumber (event_blockHeight e).

(** [events.sort((a, b) => Number(a.data.blockHeight) -
    Number(b.data.blockHeight))]: a stable sort by ascending
    [Number] of the height. *)
Fixpoint insertByHeight (e : Event) (sorted : list Event) : list Event :=
  match sorted with
  | [] => [e]
  | e' :: rest =>
    if sortKey e <=? sortKey e' then e :: sorted
    else e' :: insertByHeight e rest
  end.

Fixpoint sortByHeight (events : list Event) : list Event :=
  match events with
  | [] => []
  | e :: rest => insertByHeight e (sortByHeight rest)
  end.

(** [GREATEST] of each column and the last event's height and time. *)
Definition advanceState (lastEvent : Event) (s : State) : State :=
  {| state_chainId := state_chainId s;
     lastWasmBlockHeightExported :=
       Z.max (lastWasmBlockHeightExported s) (event_blockHeight lastEvent);
     latestBlockHeight :=
       Z.max (latestBlockHeight s) (event_blockHeight lastEvent);
     latestBlockTimeUnixMs :=
       Z.max (latestBlockTimeUnixMs s) (event_blockTimeUnixMs lastEvent) |}.

(** ** The batch processor *)

(** What the processor reaches outside the handler: the node, the
    database (a call fails when [dbFault] says so at the current clock,
    and its error has an own falsy [retryable] when [dbFaultFinal] says
    so), the Wasm-code service, the key helper and the transformers. *)
Record Services : Type := {
  rpc_getContract : nat -> string -> RpcOutcome;
  dbFault : nat -> bool;
  dbFaultFinal : nat -> bool;
  findWasmCodeIdsByKeys : list string -> list Z;
  dbKeyForKeys : string -> string;
  transformParsedStateEvents :
    list StateEventData -> list WasmStateEventTransformation
}.

Inductive OnConflict : Type :=
| UpdateLifecycle   (* updateOnDuplicate: codeId, admin, creator, label *)
| UpdateCodeId      (* updateOnDuplicate: codeId *)
| IgnoreDuplicates. (* ignoreDuplicates: true *)

Definition upsertContract (mode : OnConflict)
    (table : gmap string Contract) (row : Contract) : gmap string Contract :=
  match table !! address row with
  | None => <[address row := row]> table
  | Some old =>
    match mode with
    | IgnoreDuplicates => table
    | UpdateCodeId =>
      <[address row :=
          {| address := address old; codeId := codeId row;
             admin := admin old; creator := creator old; label := label old;
             instantiatedAtBlockHeight := instantiatedAtBlockHeight old;
             instantiatedAtBlockTimeUnixMs :=
               instantiatedAtBlockTimeUnixMs old;
             instantiatedAtBlockTimestamp :=
               instantiatedAtBlockTimestamp old |}]> table
    | UpdateLifecycle =>
      <[address row :=
          {| address := address old; codeId := codeId row;
             admin := admin row; creator := creator row; label := label row;
             instantiatedAtBlockHeight := instantiatedAtBlockHeight old;
             instantiatedAtBlockTimeUnixMs :=
               instantiatedAtBlockTimeUnixMs old;
             instantiatedAtBlockTimestamp :=
               instantiatedAtBlockTimestamp old |}]> table
    end
  end.

Definition contractOfEvent (e : ContractEventData) : Contract :=
  {| address := ce_address e; codeId := ce_codeId e;
     admin := Some (ce_admin e); creator := Some (ce_creator e);
     label := Some (ce_label e);
     instantiatedAtBlockHeight := ce_blockHeight e;
     instantiatedAtBlockTimeUnixMs := ce_blockTimeUnixMs e;
     instantiatedAtBlockTimestamp := ce_blockTimeUnixMs e |}.

(** The row the existence back-fill builds for an address: the first
    event found for it in the list of parsed events. *)
Definition contractForAddress (events : list StateEventData) (a : string)
    : option Contract :=
  match List.find (fun event => String.eqb (se_contractAddress event) a)
          events with
  | None => None
  | Some event =>
    Some {| address := a;
            (* Initialize the code ID to 0 since we don't know it here. *)
            codeId := 0;
            admin := None; creator := None; label := None;
            instantiatedAtBlockHeight := se_blockHeight event;
            instantiatedAtBlockTimeUnixMs := se_blockTimeUnixMs event;
            instantiatedAtBlockTimestamp := se_blockTimeUnixMs event |}
  end.

Fixpoint contractsForAddresses (events : list StateEventData)
    (addresses : list string) : option (list Contract) :=
  match addresses with
  | [] => Some []
  | a :: rest =>
    match contractForAddress events a,
          contractsForAddresses events rest with
    | Some row, Some rows => Some (row :: rows)
    | _, _ => None
    end
  end.

Definition withCodeId (c : Contract) (id : Z) : Contract :=
  {| address := address c; codeId := id;
     admin := admin c; creator := creator c; label := label c;
     instantiatedAtBlockHeight := instantiatedAtBlockHeight c;
     instantiatedAtBlockTimeUnixMs := instantiatedAtBlockTimeUnixMs c;
     instantiatedAtBlockTimestamp := instantiatedAtBlockTimestamp c |}.

Definition stateEventWithCodeId (e : StateEventData) (id : Z)
    : StateEventData :=
  {| se_codeId := id; se_contractAddress := se_contractAddress e;
     se_blockHeight := se_blockHeight e;
     se_blockTimeUnixMs := se_blockTimeUnixMs e; se_key := se_key e;
     se_value := se_value e; se_valueJson := se_valueJson e;
     se_delete := se_delete e |}.

Definition contractEventsOf (events : list Event) : list ContractEventData :=
  flat_map (fun event =>
              match event with ContractEvent _ d => [d] | _ => [] end) events.

Definition stateEventsOf (events : list Event) : list StateEventData :=
  flat_map (fun event =>
              match event with StateEvent _ d => [d] | _ => [] end) events.

(** The rows handed to [Block.createMany]: one per height, with the time
    of the first event of that height. *)
Definition blockRows (events : list Event) : list (Z * Z) :=
  omap (fun height =>
          match List.find (fun e => event_blockHeight e =? height) events with
          | Some e => Some (height, event_blockTimeUnixMs e)
          | None => None
          end)
       (unique (map event_blockHeight events)).

Section Processor.

Variable cfg : Config.
Variable svc : Services.

(** One call to the database or to a queue that is awaited. *)
Definition dbCall (what : string) : M World unit :=
  fun w =>
    let w' := with_dbClock S w in
    if dbFault svc (dbClock w)
    then (Throw (errorObject what (dbFaultFinal svc (dbClock w))), w')
    else (Ok tt, w').

(** Modelled from the spec: [Block.createMany] of the database models,
    which are not part of the sources at hand. One row per height;
    existing rows are not overwritten. *)
Definition Block_createMany (rows : list (Z * Z)) : M World unit :=
  do _ <- dbCall "Block.createMany";
  modify (with_blocks (fun table =>
    foldl (fun t row =>
             match t !! row.1 with
             | Some _ => t
             | None => <[row.1 := row.2]> t
             end) table rows)).

Definition Contract_bulkCreate (rows : list Contract) (mode : OnConflict)
    : M World unit :=
  do _ <- dbCall "Contract.bulkCreate";
  modify (with_contracts (fun table => foldl (upsertContract mode) table rows)).

(** [Contract.findAll({ where: { address: addresses } })]. *)
Definition Contract_findAll (addresses : list string)
    : M World (list Contract) :=
  do _ <- dbCall "Contract.findAll";
  gets (fun w => omap (fun a => contracts w !! a) addresses).

(** [WasmStateEvent.bulkCreate(events, { updateOnDuplicate: ['value',
    'valueJson', 'delete'] })]: the unique index is on the block height,
    the contract address and the key. *)
Definition WasmStateEvent_bulkCreate (events : list StateEventData)
    : M World (list StateEventData) :=
  do _ <- dbCall "WasmStateEvent.bulkCreate";
  do _ <- modify (with_wasmStateEvents (fun table =>
    foldl (fun t e =>
             let k := (se_blockHeight e, se_contractAddress e, se_key e) in
             match t !! k with
             | None => <[k := e]> t
             | Some old =>
               <[k := {| se_codeId := se_codeId old;
                         se_contractAddress := se_contractAddress old;
                         se_blockHeight := se_blockHeight old;
                         se_blockTimeUnixMs := se_blockTimeUnixMs old;
                         se_key := se_key old;
                         se_value := se_value e;
                         se_valueJson := se_valueJson e;
                         se_delete := se_delete e |}]> t
             end) table events));
  ret events.

(** Modelled from the spec: [State.getSingleton] of the database models,
    which are not part of the sources at hand: the single row, if any. *)
Definition State_getSingleton : M World (option State) :=
  do _ <- dbCall "State.getSingleton";
  gets state.

(** Modelled from the spec: [State.updateSingleton] of the database
    models, which are not part of the sources at hand: a single-row
    update, here with [GREATEST] on each of the three columns. *)
Definition State_updateSingleton (lastEvent : Event) : M World unit :=
  do _ <- dbCall "State.updateSingleton";
  modify (with_state (fmap (advanceState lastEvent))).

(** [getCodeId] run on the resolver of the world. *)
Definition resolveCodeId (contractAddress : string) : M World Z :=
  fun w =>
    match getCodeId (rpc_getContract svc) contractAddress (resolver w) with
    | (Ok id, r) => (Ok id, with_resolver (fun _ => r) w)
    | (Throw message, r) => (Throw message, with_resolver (fun _ => r) w)
    end.

(** Get the contract state event allowlist:
    [CONTRACT_STATE_EVENT_KEY_ALLOWLIST[chainId]?.map(...)]. For a chain
    ID that names an inherited property the value found has no [map], and
    the call throws. *)
Definition stateEventAllowlist : result (option (list AllowlistRule)) :=
  match CONTRACT_STATE_EVENT_KEY_ALLOWLIST (chainId cfg) with
  | Some rules =>
    Ok (Some (map (fun rule =>
                     {| codeIdsKeys := codeIdsKeys rule;
                        stateKeys :=
                          map (dbKeyForKeys svc) (stateKeys rule) |})
                rules))
  | None =>
    if includesString (chainId cfg) inheritedProperties
    then Throw "TypeError: CONTRACT_STATE_EVENT_KEY_ALLOWLIST[chainId]?.map is not a function"
    else Ok None
  end.

(** The handler maker: it throws when there is no chain ID and when the
    lookup of the allowlist throws; the handler it returns otherwise is
    [match_] and [process] below, for this configuration. *)
Definition wasm : result unit :=
  if String.eqb (chainId cfg) EmptyString
  then Throw "Chain ID needed for wasm export, failed to load from RPC or State model in DB."
  else
    match stateEventAllowlist with
    | Ok _ => Ok tt
    | Throw error => Throw error
    end.

(** The rules of the allowlist of the chain, none when it has none. *)
Definition chainRules : list AllowlistRule :=
  match stateEventAllowlist with
  | Ok (Some rules) => rules
  | _ => []
  end.

Definition resolveRule (rule : AllowlistRule) : ResolvedRule :=
  {| codeIds := findWasmCodeIdsByKeys svc (codeIdsKeys rule);
     allowedStateKeys := stateKeys rule |}.

Definition allowlist : option (list ResolvedRule) :=
  match stateEventAllowlist with
  | Ok (Some rules) =>
    Some (List.filter (fun rule => negb (Nat.eqb (length (codeIds rule)) 0))
            (map resolveRule rules))
  | _ => None
  end.

(** Ensure contract exists before creating events: the existence
    back-fill, which does nothing if the contract already exists. *)
Definition ensureContractsExist (uniqueContracts : list string)
    : M World unit :=
  do parsed <- gets stateEvents;
  do rows <-
    match contractsForAddresses parsed uniqueContracts with
    | Some rows => ret rows
    | None => throw "Event not found when creating contract."
    end;
  Contract_bulkCreate rows IgnoreDuplicates.

Definition exportContractsAndEvents (uniqueContracts : list string)
    : M World (list Contract * list StateEventData) :=
  do _ <- ensureContractsExist uniqueContracts;
  do found <- Contract_findAll uniqueContracts;
  (* Try to retrieve code IDs for contracts with 0 or -1 code IDs. *)
  let contractsToGetCodeId :=
    List.filter (fun contract => codeId contract <=? 0) found in
  do found <-
    match contractsToGetCodeId with
    | [] => ret found
    | _ =>
      do ids <- mapM (fun contract => resolveCodeId (address contract))
                  contractsToGetCodeId;
      do _ <- Contract_bulkCreate
                (List.filter (fun row => 0 <? codeId row)
                   (zip_with withCodeId contractsToGetCodeId ids))
                UpdateCodeId;
      (* Get updated contracts. *)
      Contract_findAll uniqueContracts
    end;
  do _ <- modify (with_stateEvents (filterStateEvents allowlist found));
  do kept <- gets stateEvents;
  do exported <- WasmStateEvent_bulkCreate kept;
  ret (found, exported).

(** Add contract to events: look each one up in the list read before,
    and in the database when it is not there. *)
Fixpoint attachContracts {A : Type} (addressOf : A -> string)
    (found : list Contract) (items : list A)
    : M World (list Contract * list (A * option Contract)) :=
  match items with
  | [] => ret (found, [])
  | item :: rest =>
    do hit <-
      match findContract (addressOf item) found with
      | Some contract => ret (found, Some contract)
      | None =>
        do _ <- dbCall "$get('contract')";
        do fetched <- gets (fun w => contracts w !! addressOf item);
        match fetched with
        | Some contract => ret (found ++ [contract], Some contract)
        | None => ret (found, None)
        end
      end;
    do done <- attachContracts addressOf hit.1 rest;
    ret (done.1, (item, hit.2) :: done.2)
  end.

(** Modelled from the spec: [transformParsedStateEvents] of the
    transformers, which are not part of the sources at hand: the derived
    rows are upserted on contract address, name and block height. *)
Definition runTransformers (parsed : list StateEventData)
    : M World (list WasmStateEventTransformation) :=
  do _ <- dbCall "transformParsedStateEvents";
  let rows := transformParsedStateEvents svc parsed in
  do _ <- modify (with_transformations (fun table =>
    foldl (fun t row =>
             <[(tr_contractAddress row, tr_name row, tr_blockHeight row)
               := tr_value row]> t) table rows));
  ret rows.

Definition process (events : list Event) : M World (list CreatedEvent) :=
  (* Save blocks from events. *)
  do _ <- Block_createMany (blockRows events);
  (* Export contracts. *)
  let contractEvents := contractEventsOf events in
  do _ <-
    match contractEvents with
    | [] => ret tt
    | _ => Contract_bulkCreate (map contractOfEvent contractEvents)
             UpdateLifecycle
    end;
  (* Export state. *)
  do _ <- modify (with_stateEvents (fun _ => stateEventsOf events));
  do _ <-
    match contractEvents with
    | [] => ret tt
    | first :: _ =>
      modify (with_queued (fun q =>
        q ++ [WasmCodeTrackerJob (ce_blockHeight first) contractEvents
                (stateEventsOf events)]))
    end;
  match stateEventsOf events with
  | [] => ret []
  | _ =>
    do singleton <- State_getSingleton;
    match singleton with
    | None => throw "State not found while exporting."
    | Some before =>
      let uniqueContracts :=
        unique (map se_contractAddress (stateEventsOf events)) in
      (* Retry 3 times with exponential backoff starting at 100ms delay. *)
      do exported <-
        retry (exportContractsAndEvents uniqueContracts) retryOptions;
      (* Add contract to events. *)
      do joined <- attachContracts se_contractAddress exported.1 exported.2;
      let found := joined.1 in
      (* Add code ID to parsed events. *)
      do _ <- modify (with_stateEvents (map (fun stateEvent =>
        match findContract (se_contractAddress stateEvent) found with
        | Some contract => stateEventWithCodeId stateEvent (codeId contract)
        | None => stateEvent
        end)));
      (* Remove events that don't have a contract or code ID. *)
      let exportedEvents :=
        List.filter (fun row => bool_decide (is_Some row.2)) joined.2 in
      do _ <- modify (with_stateEvents
                (List.filter (fun stateEvent => 0 <? se_codeId stateEvent)));
      (* Transform events as needed. *)
      do parsed <- gets stateEvents;
      do transformed <- retry (runTransformers parsed) retryOptions;
      (* Add contract to transformations. *)
      do joinedT <- attachContracts tr_contractAddress found transformed;
      let createdEvents :=
        map (fun row => CreatedStateEvent row.1 row.2) exportedEvents
        ++ map (fun row => CreatedTransformation row.1 row.2) joinedT.2 in
      (* Queue webhooks as needed. *)
      let potentialUnsentWebhookEvents :=
        List.filter (fun row =>
                       lastWasmBlockHeightExported before
                         <=? se_blockHeight row.1) exportedEvents in
      do _ <-
        if sendWebhooks cfg then
          match potentialUnsentWebhookEvents with
          | [] => ret tt
          | _ =>
            do _ <- dbCall "AccountWebhook.queueWebhooks";
            modify (with_queued (fun q =>
              q ++ [WebhookJob (map fst potentialUnsentWebhookEvents)]))
          end
        else ret tt;
      (* Store last block height exported, and update latest block
         height/time if the last export is newer. *)
      match last (sortByHeight events) with
      | None => throw "TypeError: lastEvent is undefined"
      | Some lastEvent =>
        do _ <- State_updateSingleton lastEvent;
        ret createdEvents
      end
    end
  end.

End Processor.

(** A stand-in for the services, used to run the processor on concrete
    batches: the node knows no contract, the database never fails, the
    code-ID key [cl-vault] resolves to code ID 100, a state key is rendered
    as its bytes, and no transformer is registered. *)
Definition demoServices : Services := {|
  rpc_getContract := fun _ _ =>
    RpcThrows true "rpc error: not found: invalid request";
  dbFault := fun _ => false;
  dbFaultFinal := fun _ => false;
  findWasmCodeIdsByKeys := fun keys =>
    if includesString "cl-vault" keys then [100] else [];
  dbKeyForKeys := fun key => join_comma (bytes_of_string key);
  transformParsedStateEvents := fun _ => []
|}.

Definition emptyResolver : Resolver :=
  {| codeIdCache := []; rpcClock := 0; failedGetCodeId := [] |}.

Definition emptyWorld (s : option State) : World :=
  {| state := s; blocks := ∅; contracts := ∅; wasmStateEvents := ∅;
     transformations := ∅; queued := []; resolver := emptyResolver;
     dbClock := 0; stateEvents := [] |}.

(** ** Outcomes of a lookup, as the resolver tells them apart *)

(** The node reports the contract as not found: an [Error] whose message
    includes [not found: invalid request]. *)
Definition reportsNotFound (contractAddress : string) (o : RpcOutcome)
    : bool :=
  match o with
  | RpcContract _ => false
  | RpcThrows isError error =>
    isError && includes "not found: invalid request" (thrown_message error)
  | RpcNoClient =>
    includes "not found: invalid request" (notConnected contractAddress)
  end.

(** The code ID an attempt puts in the cache, or [None] when the attempt
    throws. *)
Definition settles (contractAddress : string) (o : RpcOutcome) : option Z :=
  match o with
  | RpcContract id => Some id
  | _ => if reportsNotFound contractAddress o then Some 0 else None
  end.

(** The attempt throws a value on which [retry] gives up: one with an
    own property [retryable] that is falsy, or [null] or [undefined]. *)
Definition givesUp (contractAddress : string) (o : RpcOutcome) : bool :=
  match o with
  | RpcThrows isError error =>
    negb (reportsNotFound contractAddress o) && stopsRetry error
  | _ => false
  end.

(** The attempts before attempt [i], counted from the clock [clock], all
    threw an error after which [retry] goes on. *)
Definition retried (getContract : nat -> string -> RpcOutcome)
    (contractAddress : string) (clock i : nat) : Prop :=
  forall j, (j < i)%nat ->
    settles contractAddress (getContract (clock + j)%nat contractAddress)
      = None
    /\ givesUp contractAddress (getContract (clock + j)%nat contractAddress)
       = false.

(** A node that fails twice with a network error and then reports the
    contract as not found. *)
Definition flakyNode (clock : nat) (contractAddress : string) : RpcOutcome :=
  if (clock <? 2)%nat then RpcThrows true "socket hang up"
  else RpcThrows true "rpc error: not found: invalid request".



(** A node client that rejects with [null]. *)
Definition nullNode (clock : nat) (contractAddress : string) : RpcOutcome :=
  RpcThrows false {| thrown_message := "null"; thrown_final := false;
                     thrown_nullish := true |}.

(** ** Records and batches the handler is run on *)

(** The state event [match] builds once the key is parsed, when the record
    is not a written contract-info key. *)
Definition stateEventOf (lib : Codecs) (trace : TracedEvent)
    (contractAddress key : string) : Event :=
  StateEvent
    (join_colon
       ["state"; decimal (t_blockHeight trace); contractAddress; key])
    {| se_codeId := 0;
       se_contractAddress := contractAddress;
       se_blockHeight := t_blockHeight trace;
       se_blockTimeUnixMs := t_blockTimeUnixMs trace;
       se_key := key;
       se_value := stateValue trace;
       se_valueJson := stateValueJson lib trace (stateValue trace);
       se_delete := is_delete (t_operation trace) |}.

(** Standard chain: the contract-info key of the all-zero 32-byte address,
    written with [ContractInfo { code_id: 42 }]. *)
Definition instantiateTrace : TracedEvent :=
  {| t_operation := Write;
     t_key := "AgAAAAAAAAAAAAAAAAAAAAAAAAAAAAAAAAAAAAAAAAAA";
     t_value := "CCo=";
     t_blockHeight := 100;
     t_blockTimeUnixMs := 1700000000000 |}.

(** Standard chain: the same key written with
    [ContractInfo { code_id: 9007199254740993 }], which is [2 ^ 53 + 1]:
    the message is the byte [0x08] and the varint
    [81 80 80 80 80 80 80 10]. *)
Definition largeCodeIdTrace : TracedEvent :=
  {| t_operation := Write;
     t_key := "AgAAAAAAAAAAAAAAAAAAAAAAAAAAAAAAAAAAAAAAAAAA";
     t_value := "CIGAgICAgIAQ";
     t_blockHeight := 100;
     t_blockTimeUnixMs := 1700000000000 |}.

(** Standard chain: a contract-state key of the all-zero address with user
    key [1,2,3]; the value is the single byte [0xff], not UTF-8. *)
Definition rawValueTrace : TracedEvent :=
  {| t_operation := Write;
     t_key := "AwAAAAAAAAAAAAAAAAAAAAAAAAAAAAAAAAAAAAAAAAAAAQID";
     t_value := "/w==";
     t_blockHeight := 101;
     t_blockTimeUnixMs := 1700000006000 |}.

(** The same key; the value is the base64 text [true], whose three bytes
    are not UTF-8. *)
Definition base64LooksLikeJsonTrace : TracedEvent :=
  {| t_operation := Write;
     t_key := "AwAAAAAAAAAAAAAAAAAAAAAAAAAAAAAAAAAAAAAAAAAAAQID";
     t_value := "true";
     t_blockHeight := 101;
     t_blockTimeUnixMs := 1700000006000 |}.

(** Terra Classic: [0x05 || 0x14 || <20 zero bytes> || [9,9]]. *)
Definition terraTrace : TracedEvent :=
  {| t_operation := Write;
     t_key := "BRQAAAAAAAAAAAAAAAAAAAAAAAAAAAkJ";
     t_value := "eyJ4IjoxfQ==";
     t_blockHeight := 7;
     t_blockTimeUnixMs := 1000 |}.

(** Terra Classic: the one-byte key [0x05]. *)
Definition terraOneByteTrace : TracedEvent :=
  {| t_operation := Write;
     t_key := "BQ==";
     t_value := EmptyString;
     t_blockHeight := 7;
     t_blockTimeUnixMs := 1000 |}.

(** Standard chain, delete: the one-byte key [0x02]. *)
Definition deleteShortKeyTrace : TracedEvent :=
  {| t_operation := Delete;
     t_key := "Ag==";
     t_value := EmptyString;
     t_blockHeight := 102;
     t_blockTimeUnixMs := 1700000012000 |}.

(** Standard chain, delete: the contract-info key of the all-zero address. *)
Definition deleteContractInfoTrace : TracedEvent :=
  {| t_operation := Delete;
     t_key := "AgAAAAAAAAAAAAAAAAAAAAAAAAAAAAAAAAAAAAAAAAAA";
     t_value := EmptyString;
     t_blockHeight := 102;
     t_blockTimeUnixMs := 1700000012000 |}.

Definition zeroAddressText : string :=
  "xion1qqqqqqqqqqqqqqqqqqqqqqqqqqqqqqqqqqqqqqqqqqqqqqqqqqqq4usxfv".

(** The parsed events are in ascending order of block height. *)
Definition sortedByHeight (events : list StateEventData) : Prop :=
  StronglySorted
    (fun e1 e2 => se_blockHeight e1 <= se_blockHeight e2) events.

Definition exportedAt50 : State :=
  {| state_chainId := "xion-mainnet-1";
     lastWasmBlockHeightExported := 50;
     latestBlockHeight := 50;
     latestBlockTimeUnixMs := 1699999700000 |}.

(** A batch of one contract-lifecycle event, at height 100. *)
Definition contractOnlyBatch : list Event :=
  [ContractEvent "contract:100:xion1abc"
     {| ce_address := "xion1abc"; ce_codeId := 42; ce_admin := "a";
        ce_creator := "c"; ce_label := "L"; ce_blockHeight := 100;
        ce_blockTimeUnixMs := 1700000000000 |}].

Definition stateEventAt (height : Z) (contractAddress key : string)
    : StateEventData :=
  {| se_codeId := 0; se_contractAddress := contractAddress;
     se_blockHeight := height; se_blockTimeUnixMs := height * 6000;
     se_key := key; se_value := "1"; se_valueJson := JNumber "1";
     se_delete := false |}.

(** The contract-lifecycle event at height 100 after a state event of the
    same contract at height 99. *)
Definition mixedBatch : list Event :=
  StateEvent "state:99:xion1abc:1" (stateEventAt 99 "xion1abc" "1")
  :: contractOnlyBatch.

(** A batch of two state events of one contract, the later block first. *)
Definition unsortedBatch : list Event :=
  [StateEvent "state:105:xion1abc:1" (stateEventAt 105 "xion1abc" "1");
   StateEvent "state:103:xion1abc:2" (stateEventAt 103 "xion1abc" "2")].

(** The same events in ascending order. *)
Definition sortedBatch : list Event :=
  [StateEvent "state:103:xion1abc:2" (stateEventAt 103 "xion1abc" "2");
   StateEvent "state:105:xion1abc:1" (stateEventAt 105 "xion1abc" "1")].

(** The world of a run that has just parsed a batch: empty tables, the
    watermark at 50 and the state events of the batch in [stateEvents]. *)
Definition worldParsing (events : list Event) : World :=
  with_stateEvents (fun _ => stateEventsOf events)
    (emptyWorld (Some exportedAt50)).

Definition backfilledAt (height : Z) : Contract :=
  {| address := "xion1abc"; codeId := 0;
     admin := None; creator := None; label := None;
     instantiatedAtBlockHeight := height;
     instantiatedAtBlockTimeUnixMs := height * 6000;
     instantiatedAtBlockTimestamp := height * 6000 |}.

(** ** Predicates the properties are stated with *)

(** The last element is of the greatest height, as the sort compares
    heights. *)
Definition lastIsHighest (l : list Event) : Prop :=
  forall x, last l = Some x ->
  forall y, In y l -> sortKey y <= sortKey x.

(** Heights that [Number] keeps as they are. *)
Definition safeHeights (events : list Event) : Prop :=
  forall e, In e events -> Z.abs (event_blockHeight e) < 2 ^ 53.

(** Code that leaves the [State] row as it found it, whether it returns or
    throws. *)
Definition keepsState {A : Type} (m : M World A) : Prop :=
  forall w, state (m w).2 = state w.

(** Code that, started on a world whose [State] row is that of [w0], ends
    with a result and a [State] row related by [Q]. *)
Definition ensures {A : Type} (w0 : World)
    (Q : result A -> option State -> Prop) (m : M World A) : Prop :=
  forall w, state w = state w0 -> Q (m w).1 (state (m w).2).

(** The [State] row after a run of [process]: untouched when the run
    throws and when the batch has no state event; otherwise advanced, by
    [GREATEST], to the height and time of the last event of the batch
    sorted by height. *)
Definition stateAfter (events : list Event) (w0 : World)
    (r : result (list CreatedEvent)) (after : option State) : Prop :=
  match r with
  | Throw _ => after = state w0
  | Ok _ =>
    match stateEventsOf events with
    | [] => after = state w0
    | _ =>
      exists lastEvent,
        last (sortByHeight events) = Some lastEvent
        /\ after = advanceState lastEvent <$> state w0
    end
  end.

(** Standard chain: a key that is not base64. *)
Definition badKeyTrace : TracedEvent :=
  {| t_operation := Write;
     t_key := "A";
     t_value := EmptyString;
     t_blockHeight := 103;
     t_blockTimeUnixMs := 1700000018000 |}.

(** Standard chain: the contract-info key of the all-zero address written
    with a value that is not base64. *)
Definition badValueTrace : TracedEvent :=
  {| t_operation := Write;
     t_key := "AgAAAAAAAAAAAAAAAAAAAAAAAAAAAAAAAAAAAAAAAAAA";
     t_value := "!";
     t_blockHeight := 103;
     t_blockTimeUnixMs := 1700000018000 |}.

(** Whether a string holds a comma. *)
Fixpoint has_comma (s : string) : bool :=
  match s with
  | EmptyString => false
  | String c rest => Ascii.eqb c "," || has_comma rest
  end.

(** The shape [getCodeId] keeps the cache in: one entry per address and at
    most [max] entries. *)
Definition cacheOk (c : LRUCache) : Prop :=
  NoDup (map fst c) /\ (length c <= codeIdCache_max)%nat.

(** A node that knows the contract, with code ID 7, after one network
    error. *)
Definition slowNode (clock : nat) (contractAddress : string) : RpcOutcome :=
  if (clock <? 1)%nat then RpcThrows true "socket hang up"
  else RpcContract 7.

(** Code every run of which takes a world to one related to it by [R],
    whether it returns or throws. *)
Definition stepwise {A : Type} (R : World -> World -> Prop) (m : M World A)
    : Prop :=
  forall w, R w (m w).2.

(** Two worlds that agree on what [F] reads of them. *)
Definition sameOn {X : Type} (F : World -> X) (w w' : World) : Prop :=
  F w' = F w.

(** From a world that satisfies [P], the code ends with a result and a
    world that satisfy [Q]. *)
Definition hoare {A : Type} (P : World -> Prop) (m : M World A)
    (Q : result A -> World -> Prop) : Prop :=
  forall w, P w -> Q (m w).1 (m w).2.

(** The instantiation fields of a contract row. *)
Definition sameInstantiation (old new : Contract) : Prop :=
  address new = address old
  /\ instantiatedAtBlockHeight new = instantiatedAtBlockHeight old
  /\ instantiatedAtBlockTimeUnixMs new = instantiatedAtBlockTimeUnixMs old
  /\ instantiatedAtBlockTimestamp new = instantiatedAtBlockTimestamp old.

(** Every contract row of [w] is still there in [w'], instantiated as it
    was. *)
Definition contractsKept (w w' : World) : Prop :=
  forall a row, contracts w !! a = Some row ->
  exists row', contracts w' !! a = Some row' /\ sameInstantiation row row'.

(** The job [process] hands to the Wasm-code tracker queue for a batch. *)
Definition trackerJobs (events : list Event) : list QueueJob :=
  match contractEventsOf events with
  | [] => []
  | first :: _ =>
    [WasmCodeTrackerJob (ce_blockHeight first) (contractEventsOf events)
       (stateEventsOf events)]
  end.

(** A world that already holds the contract, instantiated at height 90. *)
Definition worldWithContract : World :=
  with_contracts (fun _ => {[ "xion1abc" := backfilledAt 90 ]})
    (emptyWorld (Some exportedAt50)).

(** A world that holds the contract with code ID 42 and has parsed the
    two state events of the sorted batch. *)
Definition worldWithKnownContract : World :=
  with_contracts
    (fun _ => {[ "xion1abc" := withCodeId (backfilledAt 90) 42 ]})
    (worldParsing sortedBatch).

(** The columns of the unique index of state events. *)
Definition stateEventKey (e : StateEventData) : Z * string * string :=
  (se_blockHeight e, se_contractAddress e, se_key e).

(** One row of [WasmStateEvent.bulkCreate]: inserted, or on a duplicate
    key given the new value, parsed JSON and delete flag. *)
Definition upsertStateEvent
    (table : gmap (Z * string * string) StateEventData)
    (e : StateEventData) : gmap (Z * string * string) StateEventData :=
  match table !! stateEventKey e with
  | None => <[stateEventKey e := e]> table
  | Some old =>
    <[stateEventKey e :=
        {| se_codeId := se_codeId old;
           se_contractAddress := se_contractAddress old;
           se_blockHeight := se_blockHeight old;
           se_blockTimeUnixMs := se_blockTimeUnixMs old;
           se_key := se_key old;
           se_value := se_value e;
           se_valueJson := se_valueJson e;
           se_delete := se_delete e |}]> table
  end.

(** A row that carries the value, parsed JSON and delete flag of an
    event. *)
Definition sameValue (row e : StateEventData) : Prop :=
  se_value row = se_value e
  /\ se_valueJson row = se_valueJson e
  /\ se_delete row = se_delete e.

(** One row of [Block.createMany]: inserted unless the height has a row. *)
Definition insertBlock (table : gmap Z Z) (row : Z * Z) : gmap Z Z :=
  match table !! row.1 with
  | Some _ => table
  | None => <[row.1 := row.2]> table
  end.

(** The columns a lifecycle event writes besides the code ID. *)
Definition sameLifecycle (old new : Contract) : Prop :=
  admin new = admin old
  /\ creator new = creator old
  /\ label new = label old.

(** Every contract row of [w] is still there in [w'], with the admin,
    creator and label it had. *)
Definition lifecycleKept (w w' : World) : Prop :=
  forall a row, contracts w !! a = Some row ->
  exists row', contracts w' !! a = Some row' /\ sameLifecycle row row'.

(** Every address of a list has a contract row. *)
Definition haveRows (addresses : list string) (w : World) : Prop :=
  forall a, In a addresses -> is_Some (contracts w !! a).

(** ** A transient database fault on a chain with an allowlist *)

Definition osmosisConfig : Config :=
  {| bech32Prefix := "osmo"; chainId := "osmosis-1";
     sendWebhooks := false |}.

(** The stand-in services with a database that refuses its call number
    [n], counted from zero, and no other. *)
Definition faultyAt (n : nat) : Services := {|
  rpc_getContract := rpc_getContract demoServices;
  dbFault := fun clock => Nat.eqb clock n;
  dbFaultFinal := fun _ => false;
  findWasmCodeIdsByKeys := findWasmCodeIdsByKeys demoServices;
  dbKeyForKeys := dbKeyForKeys demoServices;
  transformParsedStateEvents := transformParsedStateEvents demoServices
|}.

Definition knownContract (a : string) (id : Z) : Contract :=
  {| address := a; codeId := id;
     admin := None; creator := None; label := None;
     instantiatedAtBlockHeight := 90;
     instantiatedAtBlockTimeUnixMs := 540000;
     instantiatedAtBlockTimestamp := 540000 |}.

(** One state event of a vault, under a key that the allowlist does not
    list, and one of a contract that the allowlist does not name. *)
Definition vaultBatch : list Event :=
  [StateEvent "state:103:osmo1vault:1" (stateEventAt 103 "osmo1vault" "1");
   StateEvent "state:103:osmo1other:1" (stateEventAt 103 "osmo1other" "1")].

(** Both contracts are known: the vault with code ID 100, which the
    allowlist names, the other with code ID 5. *)
Definition vaultWorld : World :=
  with_contracts
    (fun _ => <["osmo1vault" := knownContract "osmo1vault" 100]>
                {[ "osmo1other" := knownContract "osmo1other" 5 ]})
    (worldParsing vaultBatch).

(** ** An unknown contract that the node knows *)

(** The stand-in services with a node that knows every contract, with
    code ID 100, which is what the code-ID key [cl-vault] resolves to. *)
Definition resolvingServices : Services := {|
  rpc_getContract := fun _ _ => RpcContract 100;
  dbFault := dbFault demoServices;
  dbFaultFinal := dbFaultFinal demoServices;
  findWasmCodeIdsByKeys := findWasmCodeIdsByKeys demoServices;
  dbKeyForKeys := dbKeyForKeys demoServices;
  transformParsedStateEvents := transformParsedStateEvents demoServices
|}.

(** Two parsed events of a contract without a row: one under the key
    [1], one under the key [contract_info] as the key helper renders it. *)
Definition unknownVaultWorld : World :=
  with_stateEvents
    (fun _ => [stateEventAt 103 "osmo1vault" "1";
               stateEventAt 104 "osmo1vault"
                 (dbKeyForKeys demoServices "contract_info")])
    (emptyWorld (Some exportedAt50)).

(** * Properties *)

(** ** [Number] on integers *)

(** [Number] keeps an integer below [2 ^ 53] in magnitude. *)
Lemma toNumber_safe (z : Z) : Z.abs z < 2 ^ 53 -> toNumber z = z.
Proof.
  intros Hsafe. unfold toNumber, roundToDouble.
  assert (Hlog : Z.log2 (Z.abs z) - 52 <= 0).
  { destruct (Z.eq_dec (Z.abs z) 0) as [-> | Hne]; [cbn; lia |].
    assert (Hpos : 0 < Z.abs z) by lia.
    pose proof (proj1 (Z.log2_lt_pow2 (Z.abs z) 53 Hpos) Hsafe). lia. }
  cbv zeta. rewrite (proj2 (Z.leb_le _ _) Hlog).
  assert (Hbig : 2 ^ 53 < 2 ^ 1024) by (apply Z.pow_lt_mono_r; lia).
  rewrite Z.min_l by lia. destruct z; cbn [Z.sgn Z.abs]; lia.
Qed.

(** [Number] of an integer other than zero is not zero. *)
Lemma toNumber_nonzero (z : Z) : z <> 0 -> toNumber z <> 0.
Proof.
  intros Hz. unfold toNumber.
  assert (Hn : 0 < Z.abs z) by lia.
  assert (Hround : 0 < roundToDouble (Z.abs z)).
  { unfold roundToDouble. cbv zeta.
    destruct (Z.leb_spec (Z.log2 (Z.abs z) - 52) 0) as [Hle | Hgt];
      [exact Hn |].
    set (e := Z.log2 (Z.abs z) - 52) in *.
    assert (Hq : 0 < Z.shiftr (Z.abs z) e).
    { rewrite Z.shiftr_div_pow2 by lia. apply Z.div_str_pos.
      split; [apply Z.pow_pos_nonneg; lia |].
      pose proof (Z.log2_spec (Z.abs z) Hn) as [Hlow _].
      etransitivity; [| exact Hlow].
      apply Z.pow_le_mono_r; lia. }
    rewrite Z.shiftl_mul_pow2 by lia.
    apply Z.mul_pos_pos; [| apply Z.pow_pos_nonneg; lia].
    destruct (_ || _); lia. }
  assert (Hinf : 0 < 2 ^ 1024) by (apply Z.pow_pos_nonneg; lia).
  assert (Hmin : 0 < Z.min (roundToDouble (Z.abs z)) (2 ^ 1024))
    by (apply Z.min_glb_lt; assumption).
  destruct z; cbn [Z.sgn]; lia.
Qed.

(** ** One more attempt *)

Lemma attempts_step {St A : Type} (fn : M St A) (n : nat) (s : St) :
  attempts fn (S (S n)) s
  = match fn s with
    | (Ok a, s') => (Ok a, s')
    | (Throw error, s') =>
      if stopsRetry error then (Throw (rethrown error), s')
      else attempts fn (S n) s'
    end.
Proof. reflexivity. Qed.

(** ** The codecs on known values *)

Example fromBase64_known :
  fromBase64 "eyJ4IjoxfQ==" = Some [123; 34; 120; 34; 58; 49; 125]
  /\ fromBase64 "/w==" = Some [255]
  /\ fromBase64 "BQ==" = Some [5]
  /\ fromBase64 "A" = None
  /\ fromBase64 "A===" = None
  /\ fromBase64 "AA=A" = None.
Proof. repeat split; reflexivity. Qed.

Example fromUtf8_known :
  fromUtf8 [123; 125] = Some "{}"
  /\ fromUtf8 [195; 169] = Some (string_of_bytes [195; 169])
  /\ fromUtf8 [255] = None
  /\ fromUtf8 [195] = None
  /\ fromUtf8 [237; 160; 128] = None
  /\ fromUtf8 [182; 187; 158] = None.
Proof. repeat split; reflexivity. Qed.

Example bech32_encode_known :
  bech32_encode "a" [] = Some "a12uel5l"
  /\ bech32_encode "cosmos" (repeat 0 20)
     = Some "cosmos1qqqqqqqqqqqqqqqqqqqqqqqqqqqqqqqqnrql8a"
  /\ bech32_encode "xion" (repeat 0 60) = None.
Proof. repeat split; reflexivity. Qed.

Example canonical_key_known :
  join_comma (bytes_of_string "contract_info")
    = "99,111,110,116,114,97,99,116,95,105,110,102,111"
  /\ join_comma [] = EmptyString.
Proof. split; reflexivity. Qed.

(** ** The key codec *)

Section MatcherFacts.

Variable cfg : Config.
Variable lib : Codecs.

Lemma slice_middle (pre mid post : list Z) :
  slice (pre ++ mid ++ post) (Num (Z.of_nat (length pre)))
    (Some (Num (Z.of_nat (length pre) + Z.of_nat (length mid)))) = mid.
Proof.
  unfold slice, clamp_index, toIntegerOrInfinity.
  rewrite !length_app.
  destruct (Z.ltb_spec (Z.of_nat (length pre)) 0) as [Hneg | _]; [lia |].
  destruct (Z.ltb_spec (Z.of_nat (length pre) + Z.of_nat (length mid)) 0)
    as [Hneg | _]; [lia |].
  replace (Z.to_nat (Z.min (Z.of_nat (length pre)) _)) with (length pre)
    by lia.
  replace (Z.to_nat _) with (length mid) by lia.
  rewrite drop_app_length. apply take_app_length.
Qed.

Lemma slice_suffix (pre post : list Z) :
  slice (pre ++ post) (Num (Z.of_nat (length pre))) None = post.
Proof.
  unfold slice, clamp_index, toIntegerOrInfinity.
  rewrite !length_app.
  destruct (Z.ltb_spec (Z.of_nat (length pre)) 0) as [Hneg | _]; [lia |].
  replace (Z.to_nat (Z.min (Z.of_nat (length pre)) _)) with (length pre)
    by lia.
  replace (Z.to_nat _) with (length post) by lia.
  rewrite drop_app_length. apply firstn_all.
Qed.

(** On a key laid out as the chain variant prescribes, [match] finds the
    address and the user key and goes on to classify the record. *)
Lemma match_encoded (trace : TracedEvent) (tag : Z)
    (address userKey : list Z) :
  fromBase64 (t_key trace) = Some (encodeKey cfg tag address userKey) ->
  tag = CONTRACT_KEY_PREFIX cfg \/ tag = CONTRACT_STORE_PREFIX cfg ->
  addressLengthOk cfg address ->
  match_ cfg lib trace =
    match toBech32 lib (bech32Prefix cfg) address with
    | None => Throw "Exceeds length limit"
    | Some contractAddress =>
      emitEvent lib trace (tag =? CONTRACT_KEY_PREFIX cfg)
        contractAddress (join_comma userKey)
    end.
Proof.
  intros Hkey Htag Hlen. unfold match_. rewrite Hkey.
  unfold encodeKey, addressLengthOk, contractByteLength,
    contractAddressOffset, CONTRACT_KEY_PREFIX, CONTRACT_STORE_PREFIX in *.
  destruct (isTerraClassic cfg); cbn [at_index nth_error byte_is js_add].
  - replace (negb (tag =? 5) && negb (tag =? 4)) with false
      by (destruct Htag; subst; reflexivity).
    cbn [js_lt length].
    destruct (Z.ltb_spec (Z.of_nat (S (S (length (address ++ userKey)))))
                (2 + Z.of_nat (length address))) as [Hshort | _].
    { rewrite length_app in Hshort. lia. }
    change (tag :: Z.of_nat (length address) :: address ++ userKey)
      with ([tag; Z.of_nat (length address)] ++ address ++ userKey).
    change 2 with (Z.of_nat (length [tag; Z.of_nat (length address)])).
    rewrite slice_middle.
    rewrite (app_assoc _ address userKey).
    replace (Z.of_nat (length [tag; Z.of_nat (length address)])
             + Z.of_nat (length address))
      with (Z.of_nat (length ([tag; Z.of_nat (length address)]
                                ++ address)))
      by (rewrite length_app; lia).
    rewrite slice_suffix. reflexivity.
  - replace (negb (tag =? 3) && negb (tag =? 2)) with false
      by (destruct Htag; subst; reflexivity).
    cbn [js_lt length]. unfold DEFAULT_CONTRACT_BYTE_LENGTH.
    destruct (Z.ltb_spec (Z.of_nat (S (length (address ++ userKey))))
                (1 + 32)) as [Hshort | _].
    { rewrite length_app in Hshort. lia. }
    change (tag :: address ++ userKey)
      with ([tag] ++ address ++ userKey).
    change 1 with (Z.of_nat (length [tag])).
    replace 32 with (Z.of_nat (length address)) by lia.
    rewrite slice_middle.
    rewrite (app_assoc _ address userKey).
    replace (Z.of_nat (length [tag]) + Z.of_nat (length address))
      with (Z.of_nat (length ([tag] ++ address)))
      by (rewrite length_app; lia).
    rewrite slice_suffix. reflexivity.
Qed.

(** A key of fewer bytes than the prefix and a 32-byte address is dropped
    on a standard chain. *)
Lemma match_short_standard (trace : TracedEvent) (keyData : list Z) :
  isTerraClassic cfg = false ->
  fromBase64 (t_key trace) = Some keyData ->
  (length keyData < 33)%nat ->
  match_ cfg lib trace = Ok None.
Proof.
  intros Hstd Hkey Hshort. unfold match_. rewrite Hkey.
  unfold contractByteLength, contractAddressOffset. rewrite Hstd.
  destruct (_ && _); [reflexivity |].
  cbn [js_add js_lt]. unfold DEFAULT_CONTRACT_BYTE_LENGTH.
  destruct (Z.ltb_spec (Z.of_nat (length keyData)) (1 + 32));
    [reflexivity | lia].
Qed.

(** On Terra Classic a key that has its length byte and fewer bytes
    after it than the length byte declares is dropped. *)
Lemma match_short_terra (trace : TracedEvent) (tag declared : Z)
    (rest : list Z) :
  isTerraClassic cfg = true ->
  fromBase64 (t_key trace) = Some (tag :: declared :: rest) ->
  Z.of_nat (length rest) < declared ->
  match_ cfg lib trace = Ok None.
Proof.
  intros Hterra Hkey Hshort. unfold match_. rewrite Hkey.
  unfold contractByteLength, contractAddressOffset. rewrite Hterra.
  destruct (_ && _); [reflexivity |].
  cbn [at_index nth_error js_add js_lt length].
  destruct (Z.ltb_spec (Z.of_nat (S (S (length rest)))) (2 + declared));
    [reflexivity | lia].
Qed.

(** On Terra Classic a key of the prefix byte alone has no length byte:
    the length check compares with [NaN] and lets the key through, with
    an empty address and the prefix byte as user key. *)
Lemma match_one_byte_terra (trace : TracedEvent) (tag : Z) :
  isTerraClassic cfg = true ->
  fromBase64 (t_key trace) = Some [tag] ->
  tag = CONTRACT_KEY_PREFIX cfg \/ tag = CONTRACT_STORE_PREFIX cfg ->
  match_ cfg lib trace =
    match toBech32 lib (bech32Prefix cfg) [] with
    | None => Throw "Exceeds length limit"
    | Some contractAddress =>
      emitEvent lib trace (tag =? CONTRACT_KEY_PREFIX cfg)
        contractAddress (decimal tag)
    end.
Proof.
  intros Hterra Hkey Htag. unfold match_. rewrite Hkey.
  unfold contractByteLength, contractAddressOffset, CONTRACT_KEY_PREFIX,
    CONTRACT_STORE_PREFIX in *.
  rewrite Hterra in *. cbn [at_index nth_error byte_is js_add js_lt].
  replace (negb (tag =? 5) && negb (tag =? 4)) with false
    by (destruct Htag; subst; reflexivity).
  reflexivity.
Qed.

End MatcherFacts.

(** ** The matcher *)

(** C4, as the code has it. A written contract-info key: nothing when the
    value is not a [ContractInfo] message, nothing when its code ID is
    zero or missing, and otherwise a contract event with the address,
    admin, creator and label of the record, its block height and time,
    and [Number] of its code ID, which is the code ID itself when that is
    below [2 ^ 53]. *)
Theorem C4_contract_info_write (cfg : Config) (lib : Codecs)
    (trace : TracedEvent) (addressBytes userKey protobuf : list Z)
    (contractAddress : string) :
  fromBase64 (t_key trace)
    = Some (encodeKey cfg (CONTRACT_KEY_PREFIX cfg) addressBytes userKey) ->
  addressLengthOk cfg addressBytes ->
  toBech32 lib (bech32Prefix cfg) addressBytes = Some contractAddress ->
  t_operation trace = Write ->
  fromBase64 (t_value trace) = Some protobuf ->
  (ContractInfo_decode lib protobuf = None ->
   match_ cfg lib trace = Ok None)
  /\ (forall info, ContractInfo_decode lib protobuf = Some info ->
        ci_codeId info = 0 -> match_ cfg lib trace = Ok None)
  /\ (forall info, ContractInfo_decode lib protobuf = Some info ->
        ci_codeId info <> 0 ->
        match_ cfg lib trace =
          Ok (Some (ContractEvent
            (join_colon
               ["contract"; decimal (t_blockHeight trace); contractAddress])
            {| ce_address := contractAddress;
               ce_codeId := toNumber (ci_codeId info);
               ce_admin := ci_admin info;
               ce_creator := ci_creator info;
               ce_label := ci_label info;
               ce_blockHeight := t_blockHeight trace;
               ce_blockTimeUnixMs := t_blockTimeUnixMs trace |}))
        /\ (Z.abs (ci_codeId info) < 2 ^ 53 ->
            toNumber (ci_codeId info) = ci_codeId info)).
Proof.
  intros Hkey Hlen Hbech Hop Hvalue.
  rewrite (match_encoded cfg lib trace _ _ _ Hkey (or_introl eq_refl) Hlen).
  rewrite Hbech. unfold emitEvent. rewrite Hop, Z.eqb_refl, Hvalue.
  cbn [is_write andb].
  split; [| split].
  - intros ->. reflexivity.
  - intros info -> Hzero. rewrite Hzero. reflexivity.
  - intros info -> Hnonzero. split; [| apply toNumber_safe].
    destruct (Z.eqb_spec (ci_codeId info) 0); [contradiction | reflexivity].
Qed.

Lemma C4_contract_info_write_witness :
  match_ standardConfig demoCodecs instantiateTrace =
    Ok (Some (ContractEvent
      (join_colon ["contract"; "100"; zeroAddressText])
      {| ce_address := zeroAddressText;
         ce_codeId := 42; ce_admin := EmptyString;
         ce_creator := EmptyString; ce_label := EmptyString;
         ce_blockHeight := 100; ce_blockTimeUnixMs := 1700000000000 |})).
Proof.
  destruct (proj2 (proj2
    (C4_contract_info_write standardConfig demoCodecs instantiateTrace
       (repeat 0 32) [] [8; 42] zeroAddressText eq_refl eq_refl eq_refl
       eq_refl eq_refl))
    {| ci_codeId := 42; ci_creator := EmptyString; ci_admin := EmptyString;
       ci_label := EmptyString |} eq_refl ltac:(discriminate))
    as [Hmatch Hexact].
  rewrite Hmatch. cbn [ci_codeId] in *. rewrite Hexact; [reflexivity |].
  reflexivity.
Defined.

(** C4, refuted as stated. The event does not always carry exactly the
    code ID of the record: the code ID [2 ^ 53 + 1] reaches the event as
    [2 ^ 53], the double nearest to it. *)
Lemma C4_large_code_id_counterexample :
  ~ (forall (cfg : Config) (lib : Codecs) (trace : TracedEvent)
       (addressBytes userKey protobuf : list Z) (contractAddress : string)
       (info : ContractInfo),
       fromBase64 (t_key trace)
         = Some (encodeKey cfg (CONTRACT_KEY_PREFIX cfg) addressBytes
                   userKey) ->
       addressLengthOk cfg addressBytes ->
       toBech32 lib (bech32Prefix cfg) addressBytes = Some contractAddress ->
       t_operation trace = Write ->
       fromBase64 (t_value trace) = Some protobuf ->
       ContractInfo_decode lib protobuf = Some info ->
       ci_codeId info <> 0 ->
       exists id data,
         match_ cfg lib trace = Ok (Some (ContractEvent id data))
         /\ ce_codeId data = ci_codeId info)
  /\ ContractInfo_decode demoCodecs [8; 129; 128; 128; 128; 128; 128; 128; 16]
     = Some {| ci_codeId := 9007199254740993; ci_creator := EmptyString;
               ci_admin := EmptyString; ci_label := EmptyString |}
  /\ exists id data,
       match_ standardConfig demoCodecs largeCodeIdTrace
         = Ok (Some (ContractEvent id data))
       /\ ce_codeId data = 9007199254740992.
Proof.
  split; [| split].
  - intros Hclaim.
    destruct (Hclaim standardConfig demoCodecs largeCodeIdTrace
                (repeat 0 32) [] [8; 129; 128; 128; 128; 128; 128; 128; 16]
                zeroAddressText
                {| ci_codeId := 9007199254740993; ci_creator := EmptyString;
                   ci_admin := EmptyString; ci_label := EmptyString |}
                eq_refl eq_refl eq_refl eq_refl eq_refl eq_refl
                ltac:(discriminate))
      as (id & data & Hmatch & Hcode).
    vm_compute in Hmatch. injection Hmatch as _ <-.
    vm_compute in Hcode. discriminate Hcode.
  - vm_compute. reflexivity.
  - eexists _, _. vm_compute. split; reflexivity.
Qed.

Lemma emitEvent_state (lib : Codecs) (trace : TracedEvent)
    (isContractKey : bool) (contractAddress key : string) :
  is_write (t_operation trace) && isContractKey = false ->
  emitEvent lib trace isContractKey contractAddress key
    = Ok (Some (stateEventOf lib trace contractAddress key)).
Proof. intros Hstate. unfold emitEvent. rewrite Hstate. reflexivity. Qed.

Lemma store_prefix_is_not_key_prefix (cfg : Config) :
  (CONTRACT_STORE_PREFIX cfg =? CONTRACT_KEY_PREFIX cfg) = false.
Proof.
  unfold CONTRACT_STORE_PREFIX, CONTRACT_KEY_PREFIX.
  destruct (isTerraClassic cfg); reflexivity.
Qed.

(** Every record with a well-formed contract-state key yields a state
    event, whatever the operation. *)
Lemma match_state_key (cfg : Config) (lib : Codecs) (trace : TracedEvent)
    (addressBytes userKey : list Z) (contractAddress : string) :
  fromBase64 (t_key trace)
    = Some (encodeKey cfg (CONTRACT_STORE_PREFIX cfg) addressBytes userKey) ->
  addressLengthOk cfg addressBytes ->
  toBech32 lib (bech32Prefix cfg) addressBytes = Some contractAddress ->
  match_ cfg lib trace
    = Ok (Some (stateEventOf lib trace contractAddress (join_comma userKey))).
Proof.
  intros Hkey Hlen Hbech.
  rewrite (match_encoded cfg lib trace _ _ _ Hkey (or_intror eq_refl) Hlen).
  rewrite Hbech. apply emitEvent_state.
  rewrite store_prefix_is_not_key_prefix. apply andb_false_r.
Qed.

(** C5, as the code has it. For a record with a contract-state key: when
    the value is empty or fails to decode (as base64 or as UTF-8), the
    event's value is the value string of the trace record itself, the
    base64 text, verbatim; when it decodes, the value is the decoded text.
    The parsed JSON is null for every delete, for an empty value and for a
    value string that does not parse; it is the parsed form when the
    record is a write whose value decodes to a non-empty text that parses. *)
Theorem C5_state_value_downgrade (cfg : Config) (lib : Codecs)
    (trace : TracedEvent) (addressBytes userKey : list Z)
    (contractAddress : string) :
  fromBase64 (t_key trace)
    = Some (encodeKey cfg (CONTRACT_STORE_PREFIX cfg) addressBytes userKey) ->
  addressLengthOk cfg addressBytes ->
  toBech32 lib (bech32Prefix cfg) addressBytes = Some contractAddress ->
  exists id data,
    match_ cfg lib trace = Ok (Some (StateEvent id data))
    /\ (t_value trace = EmptyString
        \/ fromBase64 (t_value trace) = None
        \/ (exists bytes, fromBase64 (t_value trace) = Some bytes
                          /\ fromUtf8 bytes = None) ->
        se_value data = t_value trace)
    /\ (forall bytes text,
          t_value trace <> EmptyString ->
          fromBase64 (t_value trace) = Some bytes ->
          fromUtf8 bytes = Some text ->
          se_value data = text)
    /\ (t_operation trace = Delete -> se_valueJson data = JNull)
    /\ (se_value data = EmptyString -> se_valueJson data = JNull)
    /\ (JSON_parse lib (se_value data) = None -> se_valueJson data = JNull)
    /\ (forall bytes text parsed,
          t_operation trace = Write ->
          t_value trace <> EmptyString ->
          fromBase64 (t_value trace) = Some bytes ->
          fromUtf8 bytes = Some text ->
          text <> EmptyString ->
          JSON_parse lib text = Some parsed ->
          se_valueJson data = parsed).
Proof.
  intros Hkey Hlen Hbech.
  eexists _, _. split.
  { rewrite (match_state_key cfg lib trace _ _ _ Hkey Hlen Hbech).
    unfold stateEventOf. reflexivity. }
  cbn [se_value se_valueJson].
  assert (Hdecoded : forall bytes text,
             t_value trace <> EmptyString ->
             fromBase64 (t_value trace) = Some bytes ->
             fromUtf8 bytes = Some text -> stateValue trace = text).
  { intros bytes text Hne Hb Hu. unfold stateValue.
    destruct (String.eqb_spec (t_value trace) EmptyString); [contradiction |].
    rewrite Hb, Hu. reflexivity. }
  repeat split.
  - intros Hfail. unfold stateValue.
    destruct (String.eqb (t_value trace) EmptyString); [reflexivity |].
    destruct Hfail as [Hempty | [Hb | (bytes & Hb & Hu)]].
    + rewrite Hempty. reflexivity.
    + rewrite Hb. reflexivity.
    + rewrite Hb, Hu. reflexivity.
  - exact Hdecoded.
  - intros Hop. unfold stateValueJson. rewrite Hop. reflexivity.
  - intros Hempty. unfold stateValueJson. rewrite Hempty.
    cbn [String.eqb negb]. rewrite andb_false_r. reflexivity.
  - intros Hparse. unfold stateValueJson. rewrite Hparse.
    destruct (_ && _); reflexivity.
  - intros bytes text parsed Hop Hne Hb Hu Htext Hparse.
    rewrite (Hdecoded bytes text Hne Hb Hu).
    unfold stateValueJson. rewrite Hop, Hparse.
    destruct (String.eqb_spec text EmptyString); [contradiction | reflexivity].
Qed.

Lemma C5_state_value_downgrade_witness :
  exists id data,
    match_ standardConfig demoCodecs rawValueTrace
      = Ok (Some (StateEvent id data))
    /\ se_value data = "/w==" /\ se_valueJson data = JNull.
Proof.
  destruct (C5_state_value_downgrade standardConfig demoCodecs rawValueTrace
              (repeat 0 32) [1; 2; 3] zeroAddressText
              eq_refl eq_refl eq_refl)
    as (id & data & Hmatch & Hraw & _ & _ & _ & Hnull & _).
  exists id, data. split; [exact Hmatch |].
  assert (Hvalue : se_value data = "/w==").
  { apply Hraw. right. right. exists [255]. split; reflexivity. }
  split; [exact Hvalue |].
  apply Hnull. rewrite Hvalue. reflexivity.
Defined.

(** C5, refuted as stated. The value of the event is not the raw bytes:
    for the value [/w==], whose single byte [0xff] is not UTF-8, the event
    keeps the four characters of the base64 text. And the parsed JSON is
    not null for every value that is not UTF-8: the base64 text [true]
    decodes to three bytes that are not UTF-8, is kept as value and then
    parses as JSON. *)
Lemma C5_raw_bytes_counterexample :
  ~ (forall (cfg : Config) (lib : Codecs) (trace : TracedEvent)
       (addressBytes userKey bytes : list Z) (id : string)
       (data : StateEventData),
       fromBase64 (t_key trace)
         = Some (encodeKey cfg (CONTRACT_STORE_PREFIX cfg) addressBytes
                   userKey) ->
       addressLengthOk cfg addressBytes ->
       match_ cfg lib trace = Ok (Some (StateEvent id data)) ->
       fromBase64 (t_value trace) = Some bytes ->
       fromUtf8 bytes = None ->
       bytes_of_string (se_value data) = bytes)
  /\ ~ (forall (cfg : Config) (lib : Codecs) (trace : TracedEvent)
          (addressBytes userKey bytes : list Z) (id : string)
          (data : StateEventData),
          fromBase64 (t_key trace)
            = Some (encodeKey cfg (CONTRACT_STORE_PREFIX cfg) addressBytes
                      userKey) ->
          addressLengthOk cfg addressBytes ->
          match_ cfg lib trace = Ok (Some (StateEvent id data)) ->
          fromBase64 (t_value trace) = Some bytes ->
          fromUtf8 bytes = None ->
          se_valueJson data = JNull).
Proof.
  split.
  - intros Hclaim.
    specialize (Hclaim standardConfig demoCodecs rawValueTrace
                  (repeat 0 32) [1; 2; 3] [255] _ _
                  eq_refl eq_refl eq_refl eq_refl eq_refl).
    vm_compute in Hclaim. discriminate Hclaim.
  - intros Hclaim.
    specialize (Hclaim standardConfig demoCodecs base64LooksLikeJsonTrace
                  (repeat 0 32) [1; 2; 3] [182; 187; 158] _ _
                  eq_refl eq_refl eq_refl eq_refl eq_refl).
    vm_compute in Hclaim. discriminate Hclaim.
Qed.

(** C6. On Terra Classic ([columbus-5]) the prefixes are [0x04] and
    [0x05]; the byte at offset 1 is the length of the address, that many
    bytes after it are the contract address and the rest is the user key.
    For [0x05 || 0x14 || <20-byte address> || [9,9]] the address is the 20
    bytes and the canonical key is [9,9]. *)
Theorem C6_terra_classic_length_prefix (cfg : Config) (lib : Codecs) :
  chainId cfg = "columbus-5" ->
  (CONTRACT_KEY_PREFIX cfg = 4 /\ CONTRACT_STORE_PREFIX cfg = 5)
  /\ (forall (trace : TracedEvent) (addressBytes userKey : list Z)
        (contractAddress : string),
        (length addressBytes <= 255)%nat ->
        fromBase64 (t_key trace)
          = Some (5 :: Z.of_nat (length addressBytes)
                    :: addressBytes ++ userKey) ->
        toBech32 lib (bech32Prefix cfg) addressBytes = Some contractAddress ->
        exists id data,
          match_ cfg lib trace = Ok (Some (StateEvent id data))
          /\ se_contractAddress data = contractAddress
          /\ se_key data = join_comma userKey)
  /\ (forall (trace : TracedEvent) (addressBytes : list Z)
        (contractAddress : string),
        length addressBytes = 20%nat ->
        fromBase64 (t_key trace) = Some (5 :: 20 :: addressBytes ++ [9; 9]) ->
        toBech32 lib (bech32Prefix cfg) addressBytes = Some contractAddress ->
        exists id data,
          match_ cfg lib trace = Ok (Some (StateEvent id data))
          /\ se_contractAddress data = contractAddress
          /\ se_key data = "9,9").
Proof.
  intros Hchain.
  assert (Hterra : isTerraClassic cfg = true).
  { unfold isTerraClassic. rewrite Hchain. reflexivity. }
  assert (Hkeyp : CONTRACT_KEY_PREFIX cfg = 4).
  { unfold CONTRACT_KEY_PREFIX. rewrite Hterra. reflexivity. }
  assert (Hstore : CONTRACT_STORE_PREFIX cfg = 5).
  { unfold CONTRACT_STORE_PREFIX. rewrite Hterra. reflexivity. }
  assert (Hgeneral : forall (trace : TracedEvent)
            (addressBytes userKey : list Z) (contractAddress : string),
            (length addressBytes <= 255)%nat ->
            fromBase64 (t_key trace)
              = Some (5 :: Z.of_nat (length addressBytes)
                        :: addressBytes ++ userKey) ->
            toBech32 lib (bech32Prefix cfg) addressBytes
              = Some contractAddress ->
            exists id data,
              match_ cfg lib trace = Ok (Some (StateEvent id data))
              /\ se_contractAddress data = contractAddress
              /\ se_key data = join_comma userKey).
  { intros trace addressBytes userKey contractAddress Hlen Hkey Hbech.
    rewrite (match_state_key cfg lib trace addressBytes userKey
               contractAddress).
    - unfold stateEventOf. eexists _, _.
      split; [reflexivity | split; reflexivity].
    - rewrite Hkey. unfold encodeKey. rewrite Hterra, Hstore. reflexivity.
    - unfold addressLengthOk. rewrite Hterra. exact Hlen.
    - exact Hbech. }
  split; [split; assumption |]. split; [exact Hgeneral |].
  intros trace addressBytes contractAddress Hlen Hkey Hbech.
  apply (Hgeneral trace addressBytes [9; 9] contractAddress);
    [lia | rewrite Hlen; exact Hkey | exact Hbech].
Qed.

Lemma C6_terra_classic_length_prefix_witness :
  exists id data,
    match_ terraClassicConfig demoCodecs terraTrace
      = Ok (Some (StateEvent id data))
    /\ se_contractAddress data
       = "terra1qqqqqqqqqqqqqqqqqqqqqqqqqqqqqqqq486l9a"
    /\ se_key data = "9,9".
Proof.
  exact (proj2 (proj2
    (C6_terra_classic_length_prefix terraClassicConfig demoCodecs eq_refl))
    terraTrace (repeat 0 20) _ eq_refl eq_refl eq_refl).
Defined.

(** C8 holds on every key that has the bytes the length check reads: a
    standard-chain key shorter than the prefix and 32 bytes, and a Terra
    Classic key with fewer bytes after the length byte than it declares,
    are dropped whatever the rest of the record is. *)
Lemma short_keys_are_dropped (cfg : Config) (lib : Codecs)
    (trace : TracedEvent) (keyData : list Z) :
  fromBase64 (t_key trace) = Some keyData ->
  (if isTerraClassic cfg
   then exists tag declared rest,
          keyData = tag :: declared :: rest
          /\ Z.of_nat (length rest) < declared
   else (length keyData < 33)%nat) ->
  match_ cfg lib trace = Ok None.
Proof.
  intros Hkey Hshort.
  destruct (isTerraClassic cfg) eqn:Hvariant.
  - destruct Hshort as (tag & declared & rest & -> & Hlt).
    exact (match_short_terra cfg lib trace tag declared rest Hvariant Hkey Hlt).
  - exact (match_short_standard cfg lib trace keyData Hvariant Hkey Hshort).
Qed.

(** C8, where the code departs from it. On Terra Classic a one-byte key
    that is the state prefix, or the contract prefix of a record that is
    not a write, is not dropped: [match] emits a state event whose address
    is the encoding of no bytes and whose key is the prefix byte. *)
Theorem C8_terra_one_byte_key_is_emitted (cfg : Config) (lib : Codecs)
    (trace : TracedEvent) (tag : Z) (contractAddress : string) :
  chainId cfg = "columbus-5" ->
  fromBase64 (t_key trace) = Some [tag] ->
  tag = 5 \/ (tag = 4 /\ t_operation trace = Delete) ->
  toBech32 lib (bech32Prefix cfg) [] = Some contractAddress ->
  match_ cfg lib trace
    = Ok (Some (stateEventOf lib trace contractAddress (decimal tag))).
Proof.
  intros Hchain Hkey Htag Hbech.
  assert (Hterra : isTerraClassic cfg = true).
  { unfold isTerraClassic. rewrite Hchain. reflexivity. }
  rewrite (match_one_byte_terra cfg lib trace tag Hterra Hkey).
  - rewrite Hbech. apply emitEvent_state.
    unfold CONTRACT_KEY_PREFIX. rewrite Hterra.
    destruct Htag as [-> | [-> Hop]]; [apply andb_false_r |].
    rewrite Hop. reflexivity.
  - unfold CONTRACT_KEY_PREFIX, CONTRACT_STORE_PREFIX. rewrite Hterra.
    destruct Htag as [-> | [-> _]]; [right | left]; reflexivity.
Qed.

Lemma C8_terra_one_byte_key_is_emitted_witness :
  match_ terraClassicConfig demoCodecs terraOneByteTrace =
    Ok (Some (StateEvent "state:7:terra1h29840:5"
      {| se_codeId := 0; se_contractAddress := "terra1h29840";
         se_blockHeight := 7; se_blockTimeUnixMs := 1000;
         se_key := "5"; se_value := EmptyString; se_valueJson := JNull;
         se_delete := false |})).
Proof.
  exact (C8_terra_one_byte_key_is_emitted terraClassicConfig demoCodecs
           terraOneByteTrace 5 "terra1h29840" eq_refl eq_refl (or_introl eq_refl)
           eq_refl).
Defined.

(** A delete under the contract-info prefix: a state event with
    [delete = true], code ID 0 and as canonical key the comma-joined
    bytes that follow the address. *)
Lemma delete_under_contract_key_prefix (cfg : Config) (lib : Codecs)
    (trace : TracedEvent) (addressBytes userKey : list Z)
    (contractAddress : string) :
  fromBase64 (t_key trace)
    = Some (encodeKey cfg (CONTRACT_KEY_PREFIX cfg) addressBytes userKey) ->
  addressLengthOk cfg addressBytes ->
  toBech32 lib (bech32Prefix cfg) addressBytes = Some contractAddress ->
  t_operation trace = Delete ->
  exists id data,
    match_ cfg lib trace = Ok (Some (StateEvent id data))
    /\ se_delete data = true
    /\ se_codeId data = 0
    /\ se_contractAddress data = contractAddress
    /\ se_key data = join_comma userKey.
Proof.
  intros Hkey Hlen Hbech Hop.
  rewrite (match_encoded cfg lib trace _ _ _ Hkey (or_introl eq_refl) Hlen).
  rewrite Hbech, emitEvent_state by (rewrite Hop; reflexivity).
  unfold stateEventOf. eexists _, _. split; [reflexivity |].
  cbn [se_delete se_codeId se_contractAddress se_key].
  rewrite Hop. repeat split.
Qed.

(** C10. A delete of a contract-info key, which is the contract-info
    prefix, on Terra Classic the length of the address, and the contract
    address, is not dropped: [match] emits a state event of that contract
    with [delete = true], code ID 0 and the empty string as canonical
    key. *)
Theorem C10_contract_info_delete (cfg : Config) (lib : Codecs)
    (trace : TracedEvent) (addressBytes : list Z)
    (contractAddress : string) :
  fromBase64 (t_key trace)
    = Some (encodeKey cfg (CONTRACT_KEY_PREFIX cfg) addressBytes []) ->
  addressLengthOk cfg addressBytes ->
  toBech32 lib (bech32Prefix cfg) addressBytes = Some contractAddress ->
  t_operation trace = Delete ->
  match_ cfg lib trace <> Ok None
  /\ exists id data,
       match_ cfg lib trace = Ok (Some (StateEvent id data))
       /\ se_delete data = true
       /\ se_codeId data = 0
       /\ se_contractAddress data = contractAddress
       /\ se_key data = EmptyString.
Proof.
  intros Hkey Hlen Hbech Hop.
  destruct (delete_under_contract_key_prefix cfg lib trace addressBytes []
              contractAddress Hkey Hlen Hbech Hop)
    as (id & data & Hmatch & Hdelete & Hcode & Haddress & Hempty).
  split; [rewrite Hmatch; discriminate |].
  exists id, data. auto.
Qed.

Lemma C10_contract_info_delete_witness :
  exists id data,
    match_ standardConfig demoCodecs deleteContractInfoTrace
      = Ok (Some (StateEvent id data))
    /\ se_delete data = true
    /\ se_codeId data = 0
    /\ se_contractAddress data = zeroAddressText
    /\ se_key data = EmptyString.
Proof.
  exact (proj2 (C10_contract_info_delete standardConfig demoCodecs
                  deleteContractInfoTrace (repeat 0 32) zeroAddressText
                  eq_refl eq_refl eq_refl eq_refl)).
Defined.

(** ** The code-ID resolver *)

Section ResolverFacts.

Variable getContract : nat -> string -> RpcOutcome.

Lemma lru_peek_set (k : string) (v : Z) (c : LRUCache) :
  lru_peek k (lru_set k v c) = Some v.
Proof.
  unfold lru_set, codeIdCache_max.
  change 1000%nat with (S 999). rewrite firstn_cons.
  cbn [lru_peek]. rewrite String.eqb_refl. reflexivity.
Qed.

Lemma lru_remove_same (k : string) (v : Z) (c : LRUCache) :
  lru_remove k ((k, v) :: c) = lru_remove k c.
Proof. unfold lru_remove. apply filter_cons_False. cbn. tauto. Qed.

Lemma length_lru_remove (k : string) (c : LRUCache) :
  (length (lru_remove k c) <= length c)%nat.
Proof. unfold lru_remove. apply length_filter. Qed.

Lemma lru_peek_has (k : string) (c : LRUCache) :
  lru_peek k c = None -> lru_has k c = false.
Proof. unfold lru_has. intros ->. reflexivity. Qed.

Lemma lru_remove_absent (k : string) (c : LRUCache) :
  lru_peek k c = None -> lru_remove k c = c.
Proof.
  induction c as [| [k' v'] rest IH]; [reflexivity |].
  cbn [lru_peek]. destruct (String.eqb_spec k' k) as [-> | Hne];
    [discriminate |].
  intros Hrest.
  change (lru_remove k ((k', v') :: rest))
    with (if decide (k' <> k) then (k', v') :: lru_remove k rest
          else lru_remove k rest).
  destruct (decide (k' <> k)); [| contradiction].
  f_equal. exact (IH Hrest).
Qed.

Lemma lru_peek_firstn (k : string) (n : nat) (c : LRUCache) :
  lru_peek k c = None -> lru_peek k (firstn n c) = None.
Proof.
  revert n. induction c as [| [k' v'] rest IH]; intros n;
    [destruct n; reflexivity |].
  cbn [lru_peek]. destruct (String.eqb k' k) eqn:Hk; [discriminate |].
  intros Hrest. destruct n as [| n]; [reflexivity |].
  cbn [firstn lru_peek]. rewrite Hk. exact (IH n Hrest).
Qed.

(** Reading an entry just written returns it and leaves it cached, as the
    most recent entry, the entries beyond the bound being evicted. *)
Lemma cachedCodeId_after_set (k : string) (v : Z) (r : Resolver) :
  exists r',
    cachedCodeId k (setCache k v r) = (Ok v, r')
    /\ lru_peek k (codeIdCache r') = Some v
    /\ rpcClock r' = rpcClock r
    /\ failedGetCodeId r' = failedGetCodeId r
    /\ (length (codeIdCache r') <= codeIdCache_max)%nat
    /\ (lru_peek k (codeIdCache r) = None ->
        codeIdCache r' = firstn codeIdCache_max ((k, v) :: codeIdCache r)).
Proof.
  unfold cachedCodeId, lru_get, setCache. cbn [codeIdCache].
  rewrite lru_peek_set. eexists. split; [reflexivity |].
  cbn [codeIdCache rpcClock failedGetCodeId lru_peek].
  rewrite String.eqb_refl.
  split; [reflexivity |]. split; [reflexivity |]. split; [reflexivity |].
  unfold lru_set, codeIdCache_max.
  change 1000%nat with (S 999). rewrite firstn_cons.
  rewrite lru_remove_same. split.
  - cbn [length]. apply le_n_S.
    etransitivity; [apply length_lru_remove |]. apply firstn_le_length.
  - intros Hmiss. rewrite (lru_remove_absent k _ Hmiss).
    rewrite firstn_cons. f_equal. apply lru_remove_absent.
    apply lru_peek_firstn. exact Hmiss.
Qed.

Lemma loadIntoCache_settles (a : string) (r : Resolver) (id : Z) :
  settles a (getContract (rpcClock r) a) = Some id ->
  loadIntoCache getContract a r = (Ok tt, setCache a id (tickRpc r)).
Proof.
  unfold loadIntoCache, settles, reportsNotFound.
  destruct (getContract (rpcClock r) a) as [c | isError error |].
  - intros [= ->]. reflexivity.
  - destruct isError; cbn [andb negb orb]; [| discriminate].
    destruct (includes _ (thrown_message error)); [| discriminate].
    intros [= <-]. reflexivity.
  - cbn [negb orb thrown_message Error_].
    destruct (includes _ (notConnected a)); [| discriminate].
    intros [= <-]. reflexivity.
Qed.

Lemma loadIntoCache_throws (a : string) (r : Resolver) :
  settles a (getContract (rpcClock r) a) = None ->
  exists error,
    loadIntoCache getContract a r = (Throw error, tickRpc r)
    /\ stopsRetry error = givesUp a (getContract (rpcClock r) a).
Proof.
  unfold loadIntoCache, settles, givesUp, reportsNotFound.
  destruct (getContract (rpcClock r) a) as [c | isError error |].
  - discriminate.
  - destruct isError; cbn [andb negb orb].
    + destruct (includes _ (thrown_message error)); [discriminate |].
      cbn [negb andb]. eauto.
    + eauto.
  - cbn [negb orb thrown_message Error_].
    destruct (includes _ (notConnected a)); [discriminate |].
    eexists. split; reflexivity.
Qed.

(** What a miss does, by the outcomes of the attempts it makes. *)
Lemma getCodeId_miss (a : string) (r : Resolver) :
  lru_peek a (codeIdCache r) = None ->
  exists id r',
    getCodeId getContract a r = (Ok id, r')
    /\ lru_peek a (codeIdCache r') = Some id
    /\ (length (codeIdCache r') <= codeIdCache_max)%nat
    /\ codeIdCache r' = firstn codeIdCache_max ((a, id) :: codeIdCache r)
    /\ match settles a (getContract (rpcClock r + 0)%nat a) with
       | Some c =>
         id = c /\ rpcClock r' = (rpcClock r + 1)%nat
         /\ failedGetCodeId r' = failedGetCodeId r
       | None =>
         if givesUp a (getContract (rpcClock r + 0)%nat a) then
           id = 0 /\ rpcClock r' = (rpcClock r + 1)%nat
           /\ exists message,
                failedGetCodeId r' = (a, message) :: failedGetCodeId r
         else
           match settles a (getContract (rpcClock r + 1)%nat a) with
           | Some c =>
             id = c /\ rpcClock r' = (rpcClock r + 2)%nat
             /\ failedGetCodeId r' = failedGetCodeId r
           | None =>
             if givesUp a (getContract (rpcClock r + 1)%nat a) then
               id = 0 /\ rpcClock r' = (rpcClock r + 2)%nat
               /\ exists message,
                    failedGetCodeId r' = (a, message) :: failedGetCodeId r
             else
               match settles a (getContract (rpcClock r + 2)%nat a) with
               | Some c =>
                 id = c /\ rpcClock r' = (rpcClock r + 3)%nat
                 /\ failedGetCodeId r' = failedGetCodeId r
               | None =>
                 id = 0 /\ rpcClock r' = (rpcClock r + 3)%nat
                 /\ exists message,
                      failedGetCodeId r' = (a, message) :: failedGetCodeId r
               end
           end
       end.
Proof.
  intros Hmiss. unfold getCodeId. rewrite (lru_peek_has _ _ Hmiss).
  unfold retry, retryOptions. cbn [retriesMax].
  replace (rpcClock r + 0)%nat with (rpcClock r) by lia.
  replace (rpcClock r + 1)%nat with (S (rpcClock r)) by lia.
  replace (rpcClock r + 2)%nat with (S (S (rpcClock r))) by lia.
  replace (rpcClock r + 3)%nat with (S (S (S (rpcClock r)))) by lia.
  assert (Hgiven : forall r0 error,
            exists r',
              cachedCodeId a
                (setCache a 0
                   {| codeIdCache := codeIdCache r0;
                      rpcClock := rpcClock r0;
                      failedGetCodeId :=
                        (a, thrown_message error) :: failedGetCodeId r0 |})
              = (Ok 0, r')
              /\ lru_peek a (codeIdCache r') = Some 0
              /\ (length (codeIdCache r') <= codeIdCache_max)%nat
              /\ (lru_peek a (codeIdCache r0) = None ->
                  codeIdCache r'
                  = firstn codeIdCache_max ((a, 0) :: codeIdCache r0))
              /\ rpcClock r' = rpcClock r0
              /\ exists message,
                   failedGetCodeId r' = (a, message) :: failedGetCodeId r0).
  { intros r0 error.
    match goal with
    | |- context [cachedCodeId a (setCache a 0 ?r1)] =>
      destruct (cachedCodeId_after_set a 0 r1)
        as (r' & Hget & Hpeek & Hclock & Hlog & Hsize & Hcache)
    end.
    exists r'. repeat split; eauto. }
  cbn [attempts].
  destruct (settles a (getContract (rpcClock r) a)) as [c0 |] eqn:H0.
  { rewrite (loadIntoCache_settles a r c0 H0).
    destruct (cachedCodeId_after_set a c0 (tickRpc r))
      as (r' & Hget & Hpeek & Hclock & Hlog & Hsize & Hcache).
    exists c0, r'. repeat split; auto; try exact (Hcache Hmiss). }
  destruct (loadIntoCache_throws a r H0) as (e0 & -> & ->).
  destruct (givesUp a (getContract (rpcClock r) a)).
  { destruct (Hgiven (tickRpc r) (rethrown e0))
      as (r' & Hget & Hpeek & Hsize & Hcache & Hclock & Hlog).
    exists 0, r'. repeat split; auto; try exact (Hcache Hmiss). }
  destruct (settles a (getContract (S (rpcClock r)) a)) as [c1 |] eqn:H1.
  { rewrite (loadIntoCache_settles a (tickRpc r) c1 H1).
    destruct (cachedCodeId_after_set a c1 (tickRpc (tickRpc r)))
      as (r' & Hget & Hpeek & Hclock & Hlog & Hsize & Hcache).
    exists c1, r'. repeat split; auto; try exact (Hcache Hmiss). }
  destruct (loadIntoCache_throws a (tickRpc r) H1) as (e1 & -> & ->).
  cbn [rpcClock tickRpc].
  destruct (givesUp a (getContract (S (rpcClock r)) a)).
  { destruct (Hgiven (tickRpc (tickRpc r)) (rethrown e1))
      as (r' & Hget & Hpeek & Hsize & Hcache & Hclock & Hlog).
    exists 0, r'. repeat split; auto; try exact (Hcache Hmiss). }
  destruct (settles a (getContract (S (S (rpcClock r))) a))
    as [c2 |] eqn:H2.
  { rewrite (loadIntoCache_settles a (tickRpc (tickRpc r)) c2 H2).
    destruct (cachedCodeId_after_set a c2 (tickRpc (tickRpc (tickRpc r))))
      as (r' & Hget & Hpeek & Hclock & Hlog & Hsize & Hcache).
    exists c2, r'. repeat split; auto; try exact (Hcache Hmiss). }
  destruct (loadIntoCache_throws a (tickRpc (tickRpc r)) H2)
    as (e2 & -> & _).
  destruct (Hgiven (tickRpc (tickRpc (tickRpc r))) e2)
    as (r' & Hget & Hpeek & Hsize & Hcache & Hclock & Hlog).
  exists 0, r'. repeat split; auto; try exact (Hcache Hmiss).
Qed.

(** The same, by the attempt that ends the miss: attempt [i], counted
    from zero, is reached when every attempt before it threw an error
    after which [retry] goes on. *)
Lemma getCodeId_miss_at (a : string) (r : Resolver) :
  lru_peek a (codeIdCache r) = None ->
  exists id r',
    getCodeId getContract a r = (Ok id, r')
    /\ lru_peek a (codeIdCache r') = Some id
    /\ (length (codeIdCache r') <= codeIdCache_max)%nat
    /\ codeIdCache r' = firstn codeIdCache_max ((a, id) :: codeIdCache r)
    /\ (rpcClock r < rpcClock r' <= rpcClock r + 3)%nat
    /\ (forall i c, (i < 3)%nat ->
          retried getContract a (rpcClock r) i ->
          settles a (getContract (rpcClock r + i)%nat a) = Some c ->
          id = c /\ rpcClock r' = (rpcClock r + i + 1)%nat
          /\ failedGetCodeId r' = failedGetCodeId r)
    /\ (forall i, (i < 3)%nat ->
          retried getContract a (rpcClock r) i ->
          settles a (getContract (rpcClock r + i)%nat a) = None ->
          i = 2%nat \/ givesUp a (getContract (rpcClock r + i)%nat a) = true ->
          id = 0 /\ rpcClock r' = (rpcClock r + i + 1)%nat
          /\ exists message,
               failedGetCodeId r' = (a, message) :: failedGetCodeId r).
Proof.
  intros Hmiss.
  destruct (getCodeId_miss a r Hmiss)
    as (id & r' & Hget & Hpeek & Hsize & Hcache & Hcases).
  exists id, r'. split; [exact Hget |]. split; [exact Hpeek |].
  split; [exact Hsize |]. split; [exact Hcache |].
  assert (Hpast : forall i, retried getContract a (rpcClock r) i ->
            ((0 < i)%nat ->
             settles a (getContract (rpcClock r + 0)%nat a) = None
             /\ givesUp a (getContract (rpcClock r + 0)%nat a) = false)
            /\ ((1 < i)%nat ->
                settles a (getContract (rpcClock r + 1)%nat a) = None
                /\ givesUp a (getContract (rpcClock r + 1)%nat a) = false)).
  { intros i Hi. split; intros Hlt; apply Hi; exact Hlt. }
  split; [| split].
  - destruct (settles a (getContract (rpcClock r + 0)%nat a));
      [lia |].
    destruct (givesUp a (getContract (rpcClock r + 0)%nat a)); [lia |].
    destruct (settles a (getContract (rpcClock r + 1)%nat a)); [lia |].
    destruct (givesUp a (getContract (rpcClock r + 1)%nat a)); [lia |].
    destruct (settles a (getContract (rpcClock r + 2)%nat a)); lia.
  - intros i c Hi Hretried Hsettles.
    destruct (Hpast i Hretried) as [H0 H1].
    destruct i as [| [| [| i]]]; [| | | lia].
    + rewrite Hsettles in Hcases.
      destruct Hcases as (-> & -> & ->). repeat split. lia.
    + destruct (H0 ltac:(lia)) as [Hs0 Hg0]. rewrite Hs0, Hg0 in Hcases.
      rewrite Hsettles in Hcases.
      destruct Hcases as (-> & -> & ->). repeat split. lia.
    + destruct (H0 ltac:(lia)) as [Hs0 Hg0]. rewrite Hs0, Hg0 in Hcases.
      destruct (H1 ltac:(lia)) as [Hs1 Hg1]. rewrite Hs1, Hg1 in Hcases.
      rewrite Hsettles in Hcases.
      destruct Hcases as (-> & -> & ->). repeat split. lia.
  - intros i Hi Hretried Hfails Hlast.
    destruct (Hpast i Hretried) as [H0 H1].
    destruct i as [| [| [| i]]]; [| | | lia].
    + destruct Hlast as [Hlast | Hlast]; [discriminate Hlast |].
      rewrite Hfails, Hlast in Hcases.
      destruct Hcases as (-> & -> & message & ->).
      repeat split; [lia | eauto].
    + destruct Hlast as [Hlast | Hlast]; [discriminate Hlast |].
      destruct (H0 ltac:(lia)) as [Hs0 Hg0]. rewrite Hs0, Hg0 in Hcases.
      rewrite Hfails, Hlast in Hcases.
      destruct Hcases as (-> & -> & message & ->).
      repeat split; [lia | eauto].
    + destruct (H0 ltac:(lia)) as [Hs0 Hg0]. rewrite Hs0, Hg0 in Hcases.
      destruct (H1 ltac:(lia)) as [Hs1 Hg1]. rewrite Hs1, Hg1 in Hcases.
      rewrite Hfails in Hcases.
      destruct (givesUp a (getContract (rpcClock r + 2)%nat a));
        destruct Hcases as (-> & -> & message & ->);
        repeat split; try lia; eauto.
Qed.

End ResolverFacts.



(** When the node client rejects with [null], [retry] fails on the look
    for the property [retryable]: there is one lookup, the [TypeError] is
    what is reported, and 0 is cached and returned. *)
Example getCodeId_on_null :
  exists r',
    getCodeId nullNode "xion1abc" emptyResolver = (Ok 0, r')
    /\ rpcClock r' = 1%nat
    /\ failedGetCodeId r' = [("xion1abc", nullishTypeError)].
Proof. eexists. vm_compute. repeat split. Qed.

(** ** The allowlist filter *)

Lemma includesZ_In (x : Z) (l : list Z) : includesZ x l = true <-> In x l.
Proof.
  unfold includesZ. rewrite existsb_exists. split.
  - intros (y & Hin & Heq). apply Z.eqb_eq in Heq. subst. exact Hin.
  - intros Hin. exists x. split; [exact Hin | apply Z.eqb_refl].
Qed.

Lemma includesString_In (x : string) (l : list string) :
  includesString x l = true <-> In x l.
Proof.
  unfold includesString. rewrite existsb_exists. split.
  - intros (y & Hin & Heq). apply String.eqb_eq in Heq. subst. exact Hin.
  - intros Hin. exists x. split; [exact Hin | apply String.eqb_refl].
Qed.

(** The predicate of the filter, read as the rule it implements. *)
Lemma keepStateEvent_spec (rules : list ResolvedRule) (found : list Contract)
    (E : StateEventData) :
  keepStateEvent rules found E = true <->
  (let c := codeId <$> findContract (se_contractAddress E) found in
   c = None \/ c = Some 0
   \/ forall rule, In rule rules ->
      forall id, c = Some id -> In id (codeIds rule) ->
      In (se_key E) (allowedStateKeys rule)).
Proof.
  unfold keepStateEvent. cbv zeta.
  destruct (codeId <$> findContract (se_contractAddress E) found) as [c |];
    [| split; auto].
  rewrite orb_true_iff, Z.eqb_eq, negb_true_iff.
  split.
  - intros [-> | Hnone]; [auto |]. right. right.
    intros rule Hin id [= <-] Hid.
    apply includesString_In.
    destruct (includesString (se_key E) (allowedStateKeys rule)) eqn:Hkey;
      [reflexivity |].
    assert (Hsome : existsb
              (fun rule => includesZ c (codeIds rule)
                 && negb (includesString (se_key E) (allowedStateKeys rule)))
              rules = true).
    { apply existsb_exists. exists rule. split; [exact Hin |].
      rewrite Hkey. rewrite (proj2 (includesZ_In c (codeIds rule)) Hid).
      reflexivity. }
    congruence.
  - intros [Hnone | [[= ->] | Hall]]; [discriminate | auto |].
    right. apply not_true_is_false. intros Hsome.
    apply existsb_exists in Hsome. destruct Hsome as (rule & Hin & Hbad).
    apply andb_true_iff in Hbad. destruct Hbad as [Hid Hkey].
    apply negb_true_iff in Hkey.
    apply includesZ_In in Hid.
    pose proof (proj2 (includesString_In _ _)
                  (Hall rule Hin c eq_refl Hid)) as Hkept.
    congruence.
Qed.

(** The filter step keeps an event exactly when its contract has no
    known code ID (no contract row, or code ID 0), or every rule whose
    code IDs contain the contract's code ID lists the event's key. *)
Lemma filterStateEvents_spec (rules : option (list ResolvedRule))
    (found : list Contract) (events : list StateEventData)
    (E : StateEventData) :
  In E (filterStateEvents rules found events) <->
  In E events
  /\ (let c := codeId <$> findContract (se_contractAddress E) found in
      c = None \/ c = Some 0
      \/ forall rule, In rule (default [] rules) ->
         forall id, c = Some id -> In id (codeIds rule) ->
         In (se_key E) (allowedStateKeys rule)).
Proof.
  unfold filterStateEvents. destruct rules as [[| rule rules] |].
  - cbn. intuition.
  - rewrite List.filter_In, keepStateEvent_spec. reflexivity.
  - cbn. intuition.
Qed.

(** The same for the allowlist the handler resolves for its chain, whose
    rules with no code ID are dropped before the filter runs: read on the
    rules of the chain. *)
Lemma filterStateEvents_chain (cfg : Config) (svc : Services)
    (found : list Contract) (events : list StateEventData)
    (E : StateEventData) :
  In E (filterStateEvents (allowlist cfg svc) found events) <->
  In E events
  /\ (let c := codeId <$> findContract (se_contractAddress E) found in
      c = None \/ c = Some 0
      \/ forall rule, In rule (chainRules cfg svc) ->
         forall id, c = Some id ->
         In id (findWasmCodeIdsByKeys svc (codeIdsKeys rule)) ->
         In (se_key E) (stateKeys rule)).
Proof.
  rewrite filterStateEvents_spec. cbv zeta.
  apply and_iff_compat_l.
  destruct (codeId <$> findContract (se_contractAddress E) found) as [c |];
    [| split; auto].
  unfold allowlist, chainRules.
  destruct (stateEventAllowlist cfg svc) as [[rules |] | error];
    cbn [default];
    [| split; (intros [H | [H | H]];
               [auto | auto | right; right; intros rule []])
     | split; (intros [H | [H | H]];
               [auto | auto | right; right; intros rule []])].
  split.
  - intros [H | [H | H]]; [auto | auto |]. right. right.
    intros rule Hin id Hid Hcode.
    apply (H (resolveRule svc rule)) with (id := id);
      [| exact Hid | exact Hcode].
    apply List.filter_In. split; [apply in_map; exact Hin |].
    cbn [resolveRule codeIds].
    destruct (findWasmCodeIdsByKeys svc (codeIdsKeys rule));
      [destruct Hcode | reflexivity].
  - intros [H | [H | H]]; [auto | auto |]. right. right.
    intros resolved Hin id Hid Hcode.
    apply List.filter_In in Hin. destruct Hin as [Hin _].
    apply in_map_iff in Hin. destruct Hin as (rule & <- & Hin).
    exact (H rule Hin id Hid Hcode).
Qed.

(** ** The watermark *)

Lemma In_insertByHeight (e x : Event) (l : list Event) :
  In x (insertByHeight e l) <-> x = e \/ In x l.
Proof.
  induction l as [| e' rest IH]; cbn [insertByHeight].
  - cbn. intuition.
  - destruct (sortKey e <=? sortKey e'); cbn [In].
    + intuition.
    + rewrite IH. intuition.
Qed.

Lemma In_sortByHeight (x : Event) (l : list Event) :
  In x (sortByHeight l) <-> In x l.
Proof.
  induction l as [| e rest IH]; cbn [sortByHeight]; [reflexivity |].
  rewrite In_insertByHeight, IH. cbn [In]. intuition.
Qed.

Lemma last_In (l : list Event) (x : Event) : last l = Some x -> In x l.
Proof.
  induction l as [| y [| z rest] IH]; cbn [last]; [discriminate | |].
  - intros [= ->]. left. reflexivity.
  - intros Hlast. right. apply IH. exact Hlast.
Qed.

Lemma insertByHeight_lastIsHighest (e : Event) (l : list Event) :
  lastIsHighest l -> lastIsHighest (insertByHeight e l).
Proof.
  induction l as [| e' rest IH]; intros Hl; cbn [insertByHeight].
  - intros x [= <-] y [-> | []]. lia.
  - destruct (Z.leb_spec (sortKey e) (sortKey e')) as [Hle | Hgt].
    + intros x Hlast y [-> | Hin].
      * rewrite last_cons_cons in Hlast.
        pose proof (Hl x Hlast e' (or_introl eq_refl)). lia.
      * rewrite last_cons_cons in Hlast. exact (Hl x Hlast y Hin).
    + destruct rest as [| e'' rest].
      * cbn [insertByHeight]. intros x [= <-] y [-> | [-> | []]]; lia.
      * assert (Hrest : lastIsHighest (e'' :: rest)).
        { intros x Hlast y Hin. apply (Hl x).
          - rewrite last_cons_cons. exact Hlast.
          - right. exact Hin. }
        specialize (IH Hrest).
        intros x Hlast y Hin.
        assert (Hlast' : last (insertByHeight e (e'' :: rest)) = Some x).
        { destruct (insertByHeight e (e'' :: rest)) as [| z zs] eqn:Hins.
          - cbn [insertByHeight] in Hins.
            destruct (sortKey e <=? sortKey e''); discriminate Hins.
          - rewrite last_cons_cons in Hlast. exact Hlast. }
        destruct Hin as [-> | Hin]; [| exact (IH x Hlast' y Hin)].
        destruct (last (e'' :: rest)) as [top |] eqn:Htop.
        -- pose proof (Hl top ltac:(rewrite last_cons_cons; exact Htop)
                         y (or_introl eq_refl)) as Hy.
           pose proof (IH x Hlast' top
                         ltac:(apply In_insertByHeight; right;
                               apply last_In; exact Htop)).
           lia.
        -- apply last_None in Htop. discriminate Htop.
Qed.

Lemma sortByHeight_lastIsHighest (l : list Event) :
  lastIsHighest (sortByHeight l).
Proof.
  induction l as [| e rest IH]; cbn [sortByHeight].
  - intros x Hlast. discriminate Hlast.
  - apply insertByHeight_lastIsHighest. exact IH.
Qed.

(** The event the watermark is taken from is in the batch and no event of
    the batch is higher as the sort compares heights, which is by their
    [Number]; so none is higher when [Number] keeps every height of the
    batch. *)
Lemma lastEvent_is_highest (events : list Event) (lastEvent : Event) :
  last (sortByHeight events) = Some lastEvent ->
  In lastEvent events
  /\ (forall e, In e events ->
        toNumber (event_blockHeight e)
        <= toNumber (event_blockHeight lastEvent))
  /\ (safeHeights events ->
      forall e, In e events ->
        event_blockHeight e <= event_blockHeight lastEvent).
Proof.
  intros Hlast.
  assert (Hin : In lastEvent events)
    by (apply In_sortByHeight, last_In; exact Hlast).
  assert (Hkeys : forall e, In e events ->
            toNumber (event_blockHeight e)
            <= toNumber (event_blockHeight lastEvent)).
  { intros e He.
    apply (sortByHeight_lastIsHighest events lastEvent Hlast).
    apply In_sortByHeight. exact He. }
  split; [exact Hin |]. split; [exact Hkeys |].
  intros Hsafe e He. specialize (Hkeys e He).
  rewrite (toNumber_safe _ (Hsafe e He)) in Hkeys.
  rewrite (toNumber_safe _ (Hsafe lastEvent Hin)) in Hkeys.
  exact Hkeys.
Qed.

(** ** What the processor does to the [State] row *)

Section StateRow.

Variable cfg : Config.
Variable svc : Services.

Lemma keeps_ret {A : Type} (a : A) : keepsState (ret a).
Proof. intros w. reflexivity. Qed.

Lemma keeps_throw {A : Type} (message : string) :
  keepsState (@throw World A message).
Proof. intros w. reflexivity. Qed.

Lemma keeps_gets {A : Type} (f : World -> A) : keepsState (gets f).
Proof. intros w. reflexivity. Qed.

Lemma keeps_modify (f : World -> World) :
  (forall w, state (f w) = state w) -> keepsState (modify f).
Proof. intros Hf w. apply Hf. Qed.

Lemma keeps_bind {A B : Type} (m : M World A) (k : A -> M World B) :
  keepsState m -> (forall a, keepsState (k a)) -> keepsState (bind m k).
Proof.
  intros Hm Hk w. unfold bind. specialize (Hm w).
  destruct (m w) as [[a | message] w1]; cbn [snd] in *.
  - rewrite (Hk a w1). exact Hm.
  - exact Hm.
Qed.

Lemma keeps_attempts {A : Type} (fn : M World A) (n : nat) :
  keepsState fn -> keepsState (attempts fn n).
Proof.
  intros Hfn. induction n as [| n IH]; [apply keeps_throw |].
  destruct n as [| n]; [exact Hfn |].
  intros w. rewrite attempts_step.
  specialize (Hfn w). destruct (fn w) as [[a | error] w1]; cbn [snd] in *.
  - exact Hfn.
  - destruct (stopsRetry error); cbn [snd]; [exact Hfn |].
    rewrite (IH w1). exact Hfn.
Qed.

Lemma keeps_retry {A : Type} (fn : M World A) (options : RetryOptions) :
  keepsState fn -> keepsState (retry fn options).
Proof. apply keeps_attempts. Qed.

Lemma keeps_mapM {A B : Type} (f : A -> M World B) (l : list A) :
  (forall a, keepsState (f a)) -> keepsState (mapM f l).
Proof.
  intros Hf. induction l as [| x rest IH]; cbn [mapM].
  - apply keeps_ret.
  - apply keeps_bind; [apply Hf |]. intros y.
    apply keeps_bind; [exact IH |]. intros ys. apply keeps_ret.
Qed.

Lemma keeps_dbCall (what : string) : keepsState (dbCall svc what).
Proof.
  intros w. unfold dbCall.
  destruct (dbFault svc (dbClock w)); reflexivity.
Qed.

Lemma keeps_resolveCodeId (a : string) : keepsState (resolveCodeId svc a).
Proof.
  intros w. unfold resolveCodeId.
  destruct (getCodeId (rpc_getContract svc) a (resolver w)) as [[id | m] r];
    reflexivity.
Qed.

(** One step of a proof that a piece of the processor keeps the row. *)
Ltac keeps_step :=
  lazymatch goal with
  | |- keepsState (bind _ _) => apply keeps_bind; [| intros ?]
  | |- keepsState (ret _) => apply keeps_ret
  | |- keepsState (throw _) => apply keeps_throw
  | |- keepsState (gets _) => apply keeps_gets
  | |- keepsState (modify _) => apply keeps_modify; intros ?; reflexivity
  | |- keepsState (dbCall _ _) => apply keeps_dbCall
  | |- keepsState (resolveCodeId _ _) => apply keeps_resolveCodeId
  | |- keepsState (retry _ _) => apply keeps_retry
  | |- keepsState (mapM _ _) => apply keeps_mapM; intros ?
  | |- keepsState (match ?x with _ => _ end) => destruct x
  end.

Ltac keeps := repeat keeps_step.

Lemma keeps_Block_createMany (rows : list (Z * Z)) :
  keepsState (Block_createMany svc rows).
Proof. unfold Block_createMany. keeps. Qed.

Lemma keeps_Contract_bulkCreate (rows : list Contract) (mode : OnConflict) :
  keepsState (Contract_bulkCreate svc rows mode).
Proof. unfold Contract_bulkCreate. keeps. Qed.

Lemma keeps_Contract_findAll (addresses : list string) :
  keepsState (Contract_findAll svc addresses).
Proof. unfold Contract_findAll. keeps. Qed.

Lemma keeps_WasmStateEvent_bulkCreate (events : list StateEventData) :
  keepsState (WasmStateEvent_bulkCreate svc events).
Proof. unfold WasmStateEvent_bulkCreate. keeps. Qed.

Lemma keeps_State_getSingleton : keepsState (State_getSingleton svc).
Proof. unfold State_getSingleton. keeps. Qed.

Lemma keeps_ensureContractsExist (addresses : list string) :
  keepsState (ensureContractsExist svc addresses).
Proof.
  unfold ensureContractsExist. keeps.
  apply keeps_Contract_bulkCreate.
Qed.

Lemma keeps_exportContractsAndEvents (addresses : list string) :
  keepsState (exportContractsAndEvents cfg svc addresses).
Proof.
  unfold exportContractsAndEvents.
  apply keeps_bind; [apply keeps_ensureContractsExist | intros _].
  apply keeps_bind; [apply keeps_Contract_findAll | intros found].
  cbv zeta.
  apply keeps_bind.
  { destruct (List.filter _ found); [apply keeps_ret |].
    apply keeps_bind;
      [apply keeps_mapM; intros row; apply keeps_resolveCodeId |].
    intros ids.
    apply keeps_bind; [apply keeps_Contract_bulkCreate | intros _].
    apply keeps_Contract_findAll. }
  intros found'. keeps. apply keeps_WasmStateEvent_bulkCreate.
Qed.

Lemma keeps_attachContracts {A : Type} (addressOf : A -> string)
    (items : list A) (found : list Contract) :
  keepsState (attachContracts svc addressOf found items).
Proof.
  revert found. induction items as [| item rest IH]; intros found;
    cbn [attachContracts].
  - apply keeps_ret.
  - apply keeps_bind; [keeps |]. intros hit.
    apply keeps_bind; [apply IH |]. intros done. apply keeps_ret.
Qed.

Lemma keeps_runTransformers (parsed : list StateEventData) :
  keepsState (runTransformers svc parsed).
Proof. unfold runTransformers. keeps. Qed.

Lemma ensures_ret {A : Type} (w0 : World)
    (Q : result A -> option State -> Prop) (a : A) :
  Q (Ok a) (state w0) -> ensures w0 Q (ret a).
Proof. intros HQ w Hw. cbn. rewrite Hw. exact HQ. Qed.

Lemma ensures_throw {A : Type} (w0 : World)
    (Q : result A -> option State -> Prop) (message : string) :
  Q (Throw message) (state w0) -> ensures w0 Q (throw message).
Proof. intros HQ w Hw. cbn. rewrite Hw. exact HQ. Qed.

Lemma ensures_bind {A B : Type} (w0 : World)
    (Q : result B -> option State -> Prop) (m : M World A)
    (k : A -> M World B) :
  keepsState m ->
  (forall message, Q (Throw message) (state w0)) ->
  (forall a, ensures w0 Q (k a)) ->
  ensures w0 Q (bind m k).
Proof.
  intros Hm Hthrow Hk w Hw. unfold bind. specialize (Hm w).
  destruct (m w) as [[a | message] w1]; cbn [fst snd] in *.
  - apply Hk. congruence.
  - rewrite Hm, Hw. apply Hthrow.
Qed.

(** The write of the watermark: the row is advanced when the call
    returns, and untouched when it throws. *)
Lemma ensures_State_updateSingleton {A : Type} (w0 : World)
    (lastEvent : Event) (a : A) (Q : result A -> option State -> Prop) :
  (forall message, Q (Throw message) (state w0)) ->
  Q (Ok a) (advanceState lastEvent <$> state w0) ->
  ensures w0 Q (bind (State_updateSingleton svc lastEvent)
                     (fun _ => ret a)).
Proof.
  intros Hthrow Hok w Hw.
  unfold State_updateSingleton, bind, dbCall, modify, ret.
  destruct (dbFault svc (dbClock w)); cbn [fst snd with_dbClock state].
  - rewrite Hw. apply Hthrow.
  - cbn. rewrite Hw. exact Hok.
Qed.

Lemma process_state (events : list Event) (w : World) :
  stateAfter events w (process cfg svc events w).1
    (state (process cfg svc events w).2).
Proof.
  assert (Hthrow : forall message,
             stateAfter events w (Throw message) (state w))
    by (intros message; reflexivity).
  enough (H : ensures w (stateAfter events w) (process cfg svc events))
    by (apply H; reflexivity).
  unfold process. cbv zeta.
  apply ensures_bind; [apply keeps_Block_createMany | exact Hthrow |].
  intros _.
  apply ensures_bind; [| exact Hthrow |].
  { destruct (contractEventsOf events);
      [apply keeps_ret | apply keeps_Contract_bulkCreate]. }
  intros _.
  apply ensures_bind; [keeps | exact Hthrow |]. intros _.
  apply ensures_bind; [| exact Hthrow |].
  { destruct (contractEventsOf events); keeps. }
  intros _.
  destruct (stateEventsOf events) as [| first rest] eqn:Hstate.
  { apply ensures_ret. unfold stateAfter. rewrite Hstate. reflexivity. }
  apply ensures_bind; [apply keeps_State_getSingleton | exact Hthrow |].
  intros [before |]; [| apply ensures_throw; apply Hthrow].
  apply ensures_bind;
    [apply keeps_retry, keeps_exportContractsAndEvents | exact Hthrow |].
  intros exported.
  apply ensures_bind; [apply keeps_attachContracts | exact Hthrow |].
  intros joined.
  apply ensures_bind; [keeps | exact Hthrow |]. intros _.
  apply ensures_bind; [keeps | exact Hthrow |]. intros _.
  apply ensures_bind; [keeps | exact Hthrow |]. intros parsed.
  apply ensures_bind;
    [apply keeps_retry, keeps_runTransformers | exact Hthrow |].
  intros transformed.
  apply ensures_bind; [apply keeps_attachContracts | exact Hthrow |].
  intros joinedT.
  apply ensures_bind; [| exact Hthrow |].
  { destruct (sendWebhooks cfg); [| apply keeps_ret].
    destruct (List.filter _ _); keeps. }
  intros _.
  destruct (last (sortByHeight events)) as [lastEvent |] eqn:Hlast;
    [| apply ensures_throw; apply Hthrow].
  apply ensures_State_updateSingleton; [exact Hthrow |].
  unfold stateAfter. rewrite Hstate. exists lastEvent. auto.
Qed.

End StateRow.

(** A batch without state events leaves the [State] row alone, whatever
    contract events it carries and whether or not the run returns. *)
Lemma process_without_state_events (cfg : Config) (svc : Services)
    (events : list Event) (w : World) :
  stateEventsOf events = [] ->
  state (process cfg svc events w).2 = state w.
Proof.
  intros Hnone. pose proof (process_state cfg svc events w) as H.
  unfold stateAfter in H. rewrite Hnone in H.
  destruct (process cfg svc events w).1; exact H.
Qed.

(** A run that returns on a batch with a state event advances the three
    columns, by [GREATEST], to the height and time of an event of the
    batch than which none is higher as the sort compares heights, by
    their [Number]: none is higher when [Number] keeps every height of
    the batch. *)
Lemma process_advances_state (cfg : Config) (svc : Services)
    (events : list Event) (w : World) (created : list CreatedEvent) :
  (process cfg svc events w).1 = Ok created ->
  stateEventsOf events <> [] ->
  exists lastEvent,
    In lastEvent events
    /\ (forall e, In e events ->
          toNumber (event_blockHeight e)
          <= toNumber (event_blockHeight lastEvent))
    /\ (safeHeights events ->
        forall e, In e events ->
          event_blockHeight e <= event_blockHeight lastEvent)
    /\ state (process cfg svc events w).2
       = advanceState lastEvent <$> state w.
Proof.
  intros Hok Hsome. pose proof (process_state cfg svc events w) as H.
  unfold stateAfter in H. rewrite Hok in H.
  destruct (stateEventsOf events); [contradiction |].
  destruct H as (lastEvent & Hlast & Hafter).
  exists lastEvent.
  destruct (lastEvent_is_highest events lastEvent Hlast) as (? & ? & ?).
  auto.
Qed.

(** With a state event in the batch the height of a contract-lifecycle
    event does count: the batch of a state event at 99 and the contract
    event at 100 moves the watermark from 50 to 100. *)
Example mixed_batch_advances_to_contract_height :
  lastWasmBlockHeightExported
    <$> state (process standardConfig demoServices mixedBatch
                 (emptyWorld (Some exportedAt50))).2 = Some 100.
Proof. vm_compute. reflexivity. Qed.

(** C2, where the code departs from it. A batch that holds only a
    contract-lifecycle event, at height 100, is processed successfully on
    a watermark of 50 and leaves the [State] row as it was: [process]
    returns before the update when the batch has no state event. *)
Theorem C2_contract_only_batch_keeps_watermark :
  (process standardConfig demoServices contractOnlyBatch
     (emptyWorld (Some exportedAt50))).1 = Ok []
  /\ state (process standardConfig demoServices contractOnlyBatch
              (emptyWorld (Some exportedAt50))).2 = Some exportedAt50
  /\ lastWasmBlockHeightExported exportedAt50 = 50
  /\ map event_blockHeight contractOnlyBatch = [100].
Proof.
  split; [vm_compute; reflexivity |].
  split; [| split; reflexivity].
  apply process_without_state_events. reflexivity.
Qed.

(** C3. Whatever the batch and whether the run returns or throws, the
    [State] row is still there after [process] and its
    [lastWasmBlockHeightExported] is not below what it was. *)
Theorem C3_watermark_never_decreases (cfg : Config) (svc : Services)
    (events : list Event) (w : World) (before : State) :
  state w = Some before ->
  exists after,
    state (process cfg svc events w).2 = Some after
    /\ lastWasmBlockHeightExported before
       <= lastWasmBlockHeightExported after.
Proof.
  intros Hbefore. pose proof (process_state cfg svc events w) as H.
  unfold stateAfter in H. rewrite Hbefore in H.
  destruct (process cfg svc events w).1 as [created | message].
  - destruct (stateEventsOf events).
    + exists before. split; [exact H | lia].
    + destruct H as (lastEvent & _ & ->).
      exists (advanceState lastEvent before). split; [reflexivity |].
      cbn [advanceState lastWasmBlockHeightExported]. lia.
  - exists before. split; [exact H | lia].
Qed.

Lemma C3_watermark_never_decreases_witness :
  exists after,
    state (process standardConfig demoServices sortedBatch
             (emptyWorld (Some exportedAt50))).2 = Some after
    /\ 50 <= lastWasmBlockHeightExported after.
Proof.
  exact (C3_watermark_never_decreases standardConfig demoServices sortedBatch
           (emptyWorld (Some exportedAt50)) exportedAt50 eq_refl).
Defined.

(** ** The existence back-fill *)

Lemma In_unique {A : Type} `{EqDecision A} (x : A) (l : list A) :
  In x (unique l) <-> In x l.
Proof.
  induction l as [| y rest IH]; cbn [unique In]; [reflexivity |].
  rewrite <- (list_elem_of_In (filter _ _)), list_elem_of_filter,
    list_elem_of_In, IH.
  destruct (decide (x = y)) as [-> | Hne]; intuition.
Qed.

Lemma find_address (a : string) (events : list StateEventData) :
  In a (map se_contractAddress events) ->
  exists first,
    List.find (fun event => String.eqb (se_contractAddress event) a) events
      = Some first
    /\ se_contractAddress first = a /\ In first events.
Proof.
  induction events as [| e rest IH]; cbn [map In List.find]; [intros [] |].
  intros Hin.
  destruct (String.eqb_spec (se_contractAddress e) a) as [Heq | Hne].
  - exists e. auto.
  - destruct Hin as [Heq | Hin]; [contradiction |].
    destruct (IH Hin) as (first & Hfind & Haddress & Hfirst).
    exists first. auto.
Qed.

(** In a list in ascending order, the first event found for an address is
    one of the lowest for that address. *)
Lemma find_sorted_is_lowest (a : string) (events : list StateEventData)
    (first : StateEventData) :
  sortedByHeight events ->
  List.find (fun event => String.eqb (se_contractAddress event) a) events
    = Some first ->
  forall e, In e events -> se_contractAddress e = a ->
  se_blockHeight first <= se_blockHeight e.
Proof.
  unfold sortedByHeight. intros Hsorted.
  induction Hsorted as [| x rest Hrest IH Hall]; cbn [List.find];
    [discriminate |].
  destruct (String.eqb_spec (se_contractAddress x) a) as [Heq | Hne].
  - intros [= <-] e [<- | Hin] _; [lia |].
    rewrite List.Forall_forall in Hall. exact (Hall e Hin).
  - intros Hfind e [<- | Hin] Haddress; [contradiction |].
    exact (IH Hfind e Hin Haddress).
Qed.

Lemma contractForAddress_address (events : list StateEventData)
    (a : string) (row : Contract) :
  contractForAddress events a = Some row -> address row = a.
Proof.
  unfold contractForAddress. destruct (List.find _ events); [| discriminate].
  intros [= <-]. reflexivity.
Qed.

(** The rows built for a list of addresses: one per address, each the row
    of its address. *)
Lemma contractsForAddresses_rows (events : list StateEventData)
    (addresses : list string) :
  (forall a, In a addresses -> In a (map se_contractAddress events)) ->
  exists rows,
    contractsForAddresses events addresses = Some rows
    /\ (forall a, In a addresses ->
          exists row, contractForAddress events a = Some row /\ In row rows)
    /\ (forall row, In row rows ->
          contractForAddress events (address row) = Some row).
Proof.
  induction addresses as [| a rest IH]; intros Hall;
    cbn [contractsForAddresses].
  - exists []. split; [reflexivity |]. split; intros ? [].
  - destruct (find_address a events (Hall a (or_introl eq_refl)))
      as (first & Hfind & _).
    destruct (IH (fun b Hb => Hall b (or_intror Hb)))
      as (rows & -> & Hrows & Hback).
    destruct (contractForAddress events a) as [row |] eqn:Hrow.
    + exists (row :: rows). split; [reflexivity |]. split.
      * intros b [<- | Hb]; [exists row; cbn; auto |].
        destruct (Hrows b Hb) as (row' & Hrow' & Hin).
        exists row'. cbn. auto.
      * intros row' [<- | Hin]; [| exact (Hback row' Hin)].
        rewrite (contractForAddress_address events a row Hrow). exact Hrow.
    + unfold contractForAddress in Hrow. rewrite Hfind in Hrow.
      discriminate Hrow.
Qed.

Lemma upsert_ignore_keeps (rows : list Contract)
    (table : gmap string Contract) (a : string) (row : Contract) :
  table !! a = Some row ->
  foldl (upsertContract IgnoreDuplicates) table rows !! a = Some row.
Proof.
  revert table. induction rows as [| r rest IH]; intros table Hrow;
    cbn [foldl]; [exact Hrow |].
  apply IH. unfold upsertContract.
  destruct (table !! address r) eqn:Hr; [exact Hrow |].
  rewrite lookup_insert_ne; [exact Hrow |]. intros Heq. congruence.
Qed.

(** With [ignoreDuplicates], an address that has no row gets the row
    inserted for it. *)
Lemma upsert_ignore_inserts (rows : list Contract)
    (table : gmap string Contract) (a : string) (row : Contract) :
  table !! a = None ->
  In row rows -> address row = a ->
  (forall row', In row' rows -> address row' = a -> row' = row) ->
  foldl (upsertContract IgnoreDuplicates) table rows !! a = Some row.
Proof.
  revert table. induction rows as [| r rest IH];
    intros table Hnone Hin Haddress Hunique; [destruct Hin |].
  cbn [foldl].
  destruct (decide (address r = a)) as [Hr | Hr].
  - assert (r = row) as -> by (apply Hunique; [left; reflexivity | exact Hr]).
    apply upsert_ignore_keeps. unfold upsertContract.
    rewrite Haddress, Hnone. apply lookup_insert_eq.
  - destruct Hin as [-> | Hin]; [contradiction |].
    apply IH; [| exact Hin | exact Haddress |].
    + unfold upsertContract.
      destruct (table !! address r); [exact Hnone |].
      rewrite lookup_insert_ne; [exact Hnone | exact Hr].
    + intros row' Hin'. apply Hunique. right. exact Hin'.
Qed.

(** C9, as the code has it. For an address with state events in the batch
    and no Contract row, the back-fill inserts a row with code ID 0 whose
    instantiation height, time and timestamp are those of the first event
    found for the address in the list of parsed events; that event is one
    of the lowest for the address when the list is in ascending order of
    block height. *)
Theorem C9_backfill_takes_first_event (svc : Services) (w : World)
    (a : string) :
  In a (map se_contractAddress (stateEvents w)) ->
  contracts w !! a = None ->
  dbFault svc (dbClock w) = false ->
  exists first,
    List.find (fun event => String.eqb (se_contractAddress event) a)
      (stateEvents w) = Some first
    /\ contracts
         (ensureContractsExist svc
            (unique (map se_contractAddress (stateEvents w))) w).2 !! a
       = Some {| address := a; codeId := 0;
                 admin := None; creator := None; label := None;
                 instantiatedAtBlockHeight := se_blockHeight first;
                 instantiatedAtBlockTimeUnixMs := se_blockTimeUnixMs first;
                 instantiatedAtBlockTimestamp := se_blockTimeUnixMs first |}
    /\ (sortedByHeight (stateEvents w) ->
        forall e, In e (stateEvents w) -> se_contractAddress e = a ->
        se_blockHeight first <= se_blockHeight e).
Proof.
  intros Hin Hnone Hdb.
  destruct (find_address a (stateEvents w) Hin) as (first & Hfind & _).
  exists first. split; [exact Hfind |]. split.
  - destruct (contractsForAddresses_rows (stateEvents w)
                (unique (map se_contractAddress (stateEvents w))))
      as (rows & Hrows & Hforward & Hback).
    { intros b Hb. exact (proj1 (In_unique b _) Hb). }
    destruct (Hforward a (proj2 (In_unique a _) Hin))
      as (row & Hrow & Hrow_in).
    unfold ensureContractsExist, Contract_bulkCreate, dbCall.
    cbv [bind ret gets modify]. rewrite Hrows, Hdb.
    cbn [snd contracts with_contracts with_dbClock].
    assert (Hshape : row =
              {| address := a; codeId := 0;
                 admin := None; creator := None; label := None;
                 instantiatedAtBlockHeight := se_blockHeight first;
                 instantiatedAtBlockTimeUnixMs := se_blockTimeUnixMs first;
                 instantiatedAtBlockTimestamp := se_blockTimeUnixMs first |}).
    { unfold contractForAddress in Hrow. rewrite Hfind in Hrow.
      congruence. }
    rewrite <- Hshape.
    apply upsert_ignore_inserts;
      [exact Hnone | exact Hrow_in
       | exact (contractForAddress_address _ _ _ Hrow) |].
    intros row' Hin' Haddress'.
    pose proof (Hback row' Hin') as Hrow'.
    rewrite Haddress' in Hrow'. congruence.
  - intros Hsorted. exact (find_sorted_is_lowest a _ first Hsorted Hfind).
Qed.

Lemma C9_backfill_takes_first_event_witness :
  contracts
    (ensureContractsExist demoServices ["xion1abc"]
       (worldParsing sortedBatch)).2 !! "xion1abc"
  = Some (backfilledAt 103)
  /\ forall e, In e (stateEventsOf sortedBatch) ->
       se_contractAddress e = "xion1abc" -> 103 <= se_blockHeight e.
Proof.
  destruct (C9_backfill_takes_first_event demoServices
              (worldParsing sortedBatch) "xion1abc"
              (or_introl eq_refl) eq_refl eq_refl)
    as (first & Hfind & Hrow & Hlowest).
  injection Hfind as <-.
  split; [exact Hrow |].
  apply Hlowest.
  repeat constructor; cbn; lia.
Defined.

(** C9, refuted as stated. In a batch that is not in ascending order the
    inserted row does not carry the smallest block height of the address:
    with the events of heights 105 and 103 in that order, the row is
    instantiated at 105, by the back-fill step and by a whole run of
    [process] alike. *)
Lemma C9_unsorted_batch_counterexample :
  ~ (forall (svc : Services) (w : World) (a : string) (row : Contract),
       In a (map se_contractAddress (stateEvents w)) ->
       contracts w !! a = None ->
       dbFault svc (dbClock w) = false ->
       contracts
         (ensureContractsExist svc
            (unique (map se_contractAddress (stateEvents w))) w).2 !! a
         = Some row ->
       codeId row = 0
       /\ forall e, In e (stateEvents w) -> se_contractAddress e = a ->
            instantiatedAtBlockHeight row <= se_blockHeight e)
  /\ contracts
       (process standardConfig demoServices unsortedBatch
          (emptyWorld (Some exportedAt50))).2 !! "xion1abc"
     = Some (backfilledAt 105).
Proof.
  split.
  - intros Hclaim.
    destruct (Hclaim demoServices (worldParsing unsortedBatch) "xion1abc"
                (backfilledAt 105) (or_introl eq_refl) eq_refl eq_refl)
      as [_ Hlowest].
    { vm_compute. reflexivity. }
    specialize (Hlowest (stateEventAt 103 "xion1abc" "2")
                  (or_intror (or_introl eq_refl)) eq_refl).
    vm_compute in Hlowest. apply Hlowest. reflexivity.
  - vm_compute. reflexivity.
Qed.

(** * Further properties of the handler *)

(** ** What the matcher drops, emits and throws *)

Lemma byte_is_true (x : option Z) (p : Z) : byte_is x p = true <-> x = Some p.
Proof.
  destruct x as [b |]; cbn [byte_is]; [| split; discriminate].
  rewrite Z.eqb_eq. split; [intros -> | intros [= ->]]; reflexivity.
Qed.

Lemma byte_is_false (x : option Z) (p : Z) :
  byte_is x p = false <-> x <> Some p.
Proof.
  rewrite <- byte_is_true. destruct (byte_is x p); split; congruence.
Qed.

Lemma slice_standard_address (keyData : list Z) :
  (33 <= length keyData)%nat ->
  slice keyData (Num 1) (Some (Num 33)) = firstn 32 (skipn 1 keyData).
Proof.
  intros Hlen. unfold slice, clamp_index, toIntegerOrInfinity.
  change (1 <? 0) with false. change (33 <? 0) with false. cbv iota.
  replace (Z.to_nat (Z.min 1 (Z.of_nat (length keyData)))) with 1%nat by lia.
  replace (Z.to_nat _) with 32%nat by lia.
  reflexivity.
Qed.

(** On a standard chain [match] returns nothing in exactly three cases:
    the first byte of the key is neither prefix (or the key is empty); the
    key has fewer than 33 bytes; or the record writes a contract-info key
    whose value is base64 that does not decode to a [ContractInfo] with a
    code ID other than zero. *)
Theorem match_drops_exactly (cfg : Config) (lib : Codecs)
    (trace : TracedEvent) (keyData : list Z) :
  isTerraClassic cfg = false ->
  fromBase64 (t_key trace) = Some keyData ->
  match_ cfg lib trace = Ok None <->
  (at_index keyData 0 <> Some 3 /\ at_index keyData 0 <> Some 2)
  \/ (length keyData < 33)%nat
  \/ ((33 <= length keyData)%nat
      /\ at_index keyData 0 = Some 2
      /\ t_operation trace = Write
      /\ toBech32 lib (bech32Prefix cfg) (firstn 32 (skipn 1 keyData)) <> None
      /\ exists protobuf,
           fromBase64 (t_value trace) = Some protobuf
           /\ (ContractInfo_decode lib protobuf = None
               \/ exists info, ContractInfo_decode lib protobuf = Some info
                               /\ ci_codeId info = 0)).
Proof.
  intros Hstd Hkey. unfold match_. rewrite Hkey.
  unfold contractByteLength, contractAddressOffset, CONTRACT_KEY_PREFIX,
    CONTRACT_STORE_PREFIX, DEFAULT_CONTRACT_BYTE_LENGTH.
  rewrite Hstd. cbn [js_add js_lt]. change (1 + 32) with 33.
  destruct (byte_is (at_index keyData 0) 3) eqn:Hstore;
    destruct (byte_is (at_index keyData 0) 2) eqn:Hinfo;
    cbn [negb andb].
  - apply byte_is_true in Hstore, Hinfo. congruence.
  - (* a contract-state key *)
    apply byte_is_true in Hstore.
    destruct (Z.ltb_spec (Z.of_nat (length keyData)) 33) as [Hshort | Hlong].
    { split; [intros _; right; left; lia | reflexivity]. }
    rewrite slice_standard_address by lia.
    destruct (toBech32 lib (bech32Prefix cfg) (firstn 32 (skipn 1 keyData)))
      as [contractAddress |].
    + rewrite emitEvent_state by apply andb_false_r.
      split; [discriminate |].
      intros [[Hne _] | [Hlt | (_ & Hsome & _)]];
        [contradiction | lia | congruence].
    + split; [discriminate |].
      intros [[Hne _] | [Hlt | (_ & Hsome & _)]];
        [contradiction | lia | congruence].
  - (* a contract-info key *)
    apply byte_is_true in Hinfo.
    destruct (Z.ltb_spec (Z.of_nat (length keyData)) 33) as [Hshort | Hlong].
    { split; [intros _; right; left; lia | reflexivity]. }
    rewrite slice_standard_address by lia.
    destruct (toBech32 lib (bech32Prefix cfg) (firstn 32 (skipn 1 keyData)))
      as [contractAddress |].
    + unfold emitEvent. rewrite andb_true_r.
      destruct (t_operation trace) eqn:Hop; cbn [is_write].
      * destruct (fromBase64 (t_value trace)) as [protobuf |].
        -- destruct (ContractInfo_decode lib protobuf) as [info |] eqn:Hinfo'.
           ++ destruct (Z.eqb_spec (ci_codeId info) 0) as [Hzero | Hnz].
              ** split; [intros _ | reflexivity]. right. right.
                 repeat split; [lia | exact Hinfo | discriminate |].
                 exists protobuf. split; [reflexivity |]. right.
                 exists info. auto.
              ** split; [discriminate |].
                 intros [[_ Hne] | [Hlt | (_ & _ & _ & _ & pb & [= <-] & Hbad)]];
                   [contradiction | lia |].
                 destruct Hbad as [Hnone | (info' & Hsome & Hzero)];
                   congruence.
           ++ split; [intros _ | reflexivity]. right. right.
              repeat split; [lia | exact Hinfo | discriminate |].
              exists protobuf. auto.
        -- split; [discriminate |].
           intros [[_ Hne] | [Hlt | (_ & _ & _ & _ & pb & Hpb & _)]];
             [contradiction | lia | discriminate].
      * split; [discriminate |].
        intros [[_ Hne] | [Hlt | (_ & _ & Hw & _)]];
          [contradiction | lia | discriminate].
    + split; [discriminate |].
      intros [[_ Hne] | [Hlt | (_ & _ & _ & Hsome & _)]];
        [contradiction | lia | congruence].
  - apply byte_is_false in Hstore, Hinfo. split; [auto | reflexivity].
Qed.

Lemma match_drops_exactly_witness :
  match_ standardConfig demoCodecs deleteShortKeyTrace = Ok None.
Proof.
  apply (proj2 (match_drops_exactly standardConfig demoCodecs
                  deleteShortKeyTrace [2] eq_refl eq_refl)).
  right. left. cbn. lia.
Defined.

(** Whatever the chain and the record, an event that [match] emits has a
    fixed shape. A contract event comes from a write only, never carries
    code ID 0, and its ID is [contract:height:address]. A state event
    carries code ID 0, its delete flag says whether the record is a delete,
    a delete has no parsed JSON, and its ID is [state:height:address:key].
    Both carry the block height and time of the record. *)
Theorem match_event_shape (cfg : Config) (lib : Codecs)
    (trace : TracedEvent) (event : Event) :
  match_ cfg lib trace = Ok (Some event) ->
  match event with
  | ContractEvent id data =>
    t_operation trace = Write
    /\ ce_codeId data <> 0
    /\ ce_blockHeight data = t_blockHeight trace
    /\ ce_blockTimeUnixMs data = t_blockTimeUnixMs trace
    /\ id = join_colon
              ["contract"; decimal (ce_blockHeight data); ce_address data]
  | StateEvent id data =>
    se_codeId data = 0
    /\ se_delete data = is_delete (t_operation trace)
    /\ (se_delete data = true -> se_valueJson data = JNull)
    /\ se_blockHeight data = t_blockHeight trace
    /\ se_blockTimeUnixMs data = t_blockTimeUnixMs trace
    /\ id = join_colon
              ["state"; decimal (se_blockHeight data);
               se_contractAddress data; se_key data]
  end.
Proof.
  unfold match_.
  destruct (fromBase64 (t_key trace)) as [keyData |]; [| discriminate].
  destruct (_ && _); [discriminate |].
  destruct (js_lt _ _); [discriminate |].
  destruct (toBech32 lib _ _) as [contractAddress |]; [| discriminate].
  unfold emitEvent.
  destruct (is_write (t_operation trace) && _) eqn:Hbranch.
  - apply andb_true_iff in Hbranch. destruct Hbranch as [Hwrite _].
    destruct (fromBase64 (t_value trace)) as [protobuf |]; [| discriminate].
    destruct (ContractInfo_decode lib protobuf) as [info |];
      [| discriminate].
    destruct (Z.eqb_spec (ci_codeId info) 0) as [Hzero | Hnz];
      [discriminate |].
    intros [= <-].
    cbn [ce_codeId ce_blockHeight ce_blockTimeUnixMs ce_address].
    destruct (t_operation trace); [| discriminate Hwrite].
    repeat split. apply toNumber_nonzero. exact Hnz.
  - intros [= <-]. cbn. repeat split.
    intros Hdelete. unfold stateValueJson. rewrite Hdelete. reflexivity.
Qed.

Lemma match_event_shape_witness :
  exists id data,
    match_ standardConfig demoCodecs instantiateTrace
      = Ok (Some (ContractEvent id data))
    /\ ce_codeId data <> 0
    /\ id = join_colon
              ["contract"; decimal (ce_blockHeight data); ce_address data].
Proof.
  eexists _, _. split; [reflexivity |].
  pose proof (match_event_shape standardConfig demoCodecs instantiateTrace _
                eq_refl) as (_ & Hcode & _ & _ & Hid).
  split; [exact Hcode | exact Hid].
Defined.

(** The key codec round trip, on either chain variant: for a key made of
    the contract-state prefix, on Terra Classic the length of the address,
    the address and a user key, [match] emits a state event whose address
    is the bech32 text of exactly those address bytes and whose key is the
    canonical form of exactly those user-key bytes. *)
Theorem state_key_round_trip (cfg : Config) (lib : Codecs)
    (trace : TracedEvent) (addressBytes userKey : list Z)
    (contractAddress : string) :
  fromBase64 (t_key trace)
    = Some (encodeKey cfg (CONTRACT_STORE_PREFIX cfg) addressBytes userKey) ->
  addressLengthOk cfg addressBytes ->
  toBech32 lib (bech32Prefix cfg) addressBytes = Some contractAddress ->
  exists id data,
    match_ cfg lib trace = Ok (Some (StateEvent id data))
    /\ se_contractAddress data = contractAddress
    /\ se_key data = join_comma userKey.
Proof.
  intros Hkey Hlen Hbech.
  rewrite (match_state_key cfg lib trace addressBytes userKey contractAddress
             Hkey Hlen Hbech).
  unfold stateEventOf. eexists _, _. repeat split.
Qed.

Lemma state_key_round_trip_witness :
  exists id data,
    match_ standardConfig demoCodecs rawValueTrace
      = Ok (Some (StateEvent id data))
    /\ se_contractAddress data = zeroAddressText
    /\ se_key data = "1,2,3".
Proof.
  exact (state_key_round_trip standardConfig demoCodecs rawValueTrace
           (repeat 0 32) [1; 2; 3] zeroAddressText eq_refl eq_refl eq_refl).
Defined.

(** Errors that escape [match]: a key that is not base64 makes it throw,
    and so does a value that is not base64 when the record writes a
    contract-info key, since that decoding is outside the [try]. *)
Theorem match_throws_on_bad_base64 (cfg : Config) (lib : Codecs)
    (trace : TracedEvent) :
  (fromBase64 (t_key trace) = None ->
   exists message, match_ cfg lib trace = Throw message)
  /\ (forall (addressBytes userKey : list Z) (contractAddress : string),
        fromBase64 (t_key trace)
          = Some (encodeKey cfg (CONTRACT_KEY_PREFIX cfg) addressBytes
                    userKey) ->
        addressLengthOk cfg addressBytes ->
        toBech32 lib (bech32Prefix cfg) addressBytes = Some contractAddress ->
        t_operation trace = Write ->
        fromBase64 (t_value trace) = None ->
        exists message, match_ cfg lib trace = Throw message).
Proof.
  split.
  - intros Hkey. unfold match_. rewrite Hkey. eauto.
  - intros addressBytes userKey contractAddress Hkey Hlen Hbech Hop Hvalue.
    rewrite (match_encoded cfg lib trace _ _ _ Hkey (or_introl eq_refl) Hlen).
    rewrite Hbech. unfold emitEvent.
    rewrite Hop, Z.eqb_refl, Hvalue. cbn. eauto.
Qed.

Lemma match_throws_on_bad_base64_witness :
  (exists message,
     match_ standardConfig demoCodecs badKeyTrace = Throw message)
  /\ (exists message,
        match_ standardConfig demoCodecs badValueTrace = Throw message).
Proof.
  split.
  - exact (proj1 (match_throws_on_bad_base64 standardConfig demoCodecs
                    badKeyTrace) eq_refl).
  - exact (proj2 (match_throws_on_bad_base64 standardConfig demoCodecs
                    badValueTrace)
             (repeat 0 32) [] zeroAddressText
             eq_refl eq_refl eq_refl eq_refl eq_refl).
Defined.

(** ** The canonical key *)

Lemma decimal_injective (x y : Z) : decimal x = decimal y -> x = y.
Proof.
  unfold decimal. intros Heq.
  assert (Hparse : forall z,
             NilZero.int_of_string (NilZero.string_of_int (Z.to_int z))
               = Some (Z.to_int z)).
  { intros z. apply NilZero.isi; intros Hnil;
      pose proof (DecimalZ.of_to z) as Hz; rewrite Hnil in Hz;
      cbn in Hz; subst z; discriminate Hnil. }
  pose proof (Hparse x) as Hx. rewrite Heq, Hparse in Hx.
  injection Hx as Hx.
  rewrite <- (DecimalZ.of_to x), <- (DecimalZ.of_to y), Hx. reflexivity.
Qed.

Lemma string_of_uint_no_comma (d : Decimal.uint) :
  has_comma (NilEmpty.string_of_uint d) = false.
Proof. induction d; cbn; auto. Qed.

Lemma decimal_no_comma (z : Z) : has_comma (decimal z) = false.
Proof.
  unfold decimal, NilZero.string_of_int, NilZero.string_of_uint.
  destruct (Z.to_int z) as [d | d]; destruct d; cbn;
    auto using string_of_uint_no_comma.
Qed.

Lemma decimal_not_empty (z : Z) : decimal z <> EmptyString.
Proof.
  unfold decimal, NilZero.string_of_int, NilZero.string_of_uint.
  destruct (Z.to_int z) as [d | d]; destruct d; discriminate.
Qed.

(** Two comma-free strings followed by a comma are equal when what they
    start is. *)
Lemma comma_split (s1 s2 r1 r2 : string) :
  has_comma s1 = false -> has_comma s2 = false ->
  s1 +:+ String "," r1 = s2 +:+ String "," r2 ->
  s1 = s2 /\ r1 = r2.
Proof.
  revert s2. induction s1 as [| c s1 IH]; intros [| c' s2] H1 H2 Heq;
    cbn in *.
  - injection Heq as ->. auto.
  - injection Heq as <- _. discriminate H2.
  - injection Heq as -> _. discriminate H1.
  - injection Heq as -> Heq.
    apply orb_false_iff in H1, H2.
    destruct (IH s2 (proj2 H1) (proj2 H2) Heq) as [-> ->]. auto.
Qed.

Lemma no_comma_append (s r : string) :
  has_comma (s +:+ String "," r) = true.
Proof.
  induction s as [| c s IH]; [reflexivity |].
  change (Ascii.eqb c "," || has_comma (s +:+ String "," r) = true).
  rewrite IH. apply orb_true_r.
Qed.

(** The canonical form of a key determines its bytes: two byte strings
    with the same comma-joined decimal rendering are equal, so distinct
    user keys never share a canonical key. *)
Theorem canonical_key_injective (key1 key2 : list Z) :
  join_comma key1 = join_comma key2 -> key1 = key2.
Proof.
  unfold join_comma. revert key2.
  induction key1 as [| x rest1 IH]; intros [| y rest2] Heq.
  - reflexivity.
  - exfalso. cbn in Heq. destruct rest2 as [| y' rest2].
    + exact (decimal_not_empty y (eq_sym Heq)).
    + destruct (decimal y) eqn:Hy; [exact (decimal_not_empty y Hy) |].
      discriminate Heq.
  - exfalso. cbn in Heq. destruct rest1 as [| x' rest1].
    + exact (decimal_not_empty x Heq).
    + destruct (decimal x) eqn:Hx; [exact (decimal_not_empty x Hx) |].
      discriminate Heq.
  - destruct rest1 as [| x' rest1], rest2 as [| y' rest2].
    + cbn in Heq. apply decimal_injective in Heq. congruence.
    + exfalso. cbn [map String.concat] in Heq.
      pose proof (decimal_no_comma x) as Hx. rewrite Heq in Hx.
      change (has_comma (decimal y +:+ String ","
                (String.concat "," (map decimal (y' :: rest2)))) = false)
        in Hx.
      rewrite no_comma_append in Hx. discriminate Hx.
    + exfalso. cbn [map String.concat] in Heq.
      pose proof (decimal_no_comma y) as Hy. rewrite <- Heq in Hy.
      change (has_comma (decimal x +:+ String ","
                (String.concat "," (map decimal (x' :: rest1)))) = false)
        in Hy.
      rewrite no_comma_append in Hy. discriminate Hy.
    + change (decimal x +:+ String ","
                (String.concat "," (map decimal (x' :: rest1)))
              = decimal y +:+ String ","
                  (String.concat "," (map decimal (y' :: rest2)))) in Heq.
      destruct (comma_split _ _ _ _ (decimal_no_comma x) (decimal_no_comma y)
                  Heq) as [Hhead Htail].
      apply decimal_injective in Hhead. subst y.
      f_equal. apply IH. exact Htail.
Qed.

Lemma canonical_key_injective_witness :
  join_comma (bytes_of_string "ab") = join_comma [97; 98]
  /\ bytes_of_string "ab" = [97; 98].
Proof.
  split; [reflexivity |].
  exact (canonical_key_injective (bytes_of_string "ab") [97; 98] eq_refl).
Defined.

(** ** More on the code-ID resolver *)

Section ResolverMore.

Variable getContract : nat -> string -> RpcOutcome.

Lemma lru_peek_In (k : string) (v : Z) (c : LRUCache) :
  lru_peek k c = Some v -> In (k, v) c.
Proof.
  induction c as [| [k' v'] rest IH]; cbn [lru_peek]; [discriminate |].
  destruct (String.eqb_spec k' k) as [-> | Hne].
  - intros [= ->]. left. reflexivity.
  - intros Hrest. right. exact (IH Hrest).
Qed.

Lemma lru_remove_cons (k k0 : string) (v0 : Z) (c : LRUCache) :
  lru_remove k ((k0, v0) :: c)
  = if decide (k0 <> k) then (k0, v0) :: lru_remove k c else lru_remove k c.
Proof. reflexivity. Qed.

Lemma lru_remove_keys (k k' : string) (c : LRUCache) :
  In k' (map fst (lru_remove k c)) <-> k' <> k /\ In k' (map fst c).
Proof.
  induction c as [| [k0 v0] rest IH]; [cbn; tauto |].
  rewrite lru_remove_cons.
  destruct (decide (k0 <> k)) as [Hne | Heq]; cbn [map In fst].
  - rewrite IH. split; [intros [<- | []] | intros [? [<- | ?]]]; auto.
  - rewrite IH. apply dec_stable in Heq. subst k0.
    split; [tauto | intros [? [<- | ?]]]; [contradiction | auto].
Qed.

Lemma lru_remove_NoDup (k : string) (c : LRUCache) :
  NoDup (map fst c) -> NoDup (map fst (lru_remove k c)).
Proof.
  induction c as [| [k0 v0] rest IH]; intros Hnd; [constructor |].
  cbn [map fst] in Hnd. apply NoDup_cons in Hnd. destruct Hnd as [Hnew Hnd].
  rewrite lru_remove_cons.
  destruct (decide (k0 <> k)); [| exact (IH Hnd)].
  cbn [map fst]. apply NoDup_cons. split; [| exact (IH Hnd)].
  rewrite list_elem_of_In.
  change (~ In k0 (map fst (lru_remove k rest))).
  rewrite lru_remove_keys. rewrite list_elem_of_In in Hnew. tauto.
Qed.

Lemma cacheOk_touch (k : string) (v : Z) (c : LRUCache) :
  cacheOk c -> In (k, v) c -> cacheOk ((k, v) :: lru_remove k c).
Proof.
  intros [Hnd Hlen] Hin. split.
  - cbn [map fst]. apply NoDup_cons. split.
    + rewrite list_elem_of_In, lru_remove_keys. tauto.
    + exact (lru_remove_NoDup k c Hnd).
  - cbn [length].
    assert (Hlt : (length (lru_remove k c) < length c)%nat).
    { unfold lru_remove.
      apply (length_filter_lt _ _ (k, v));
        [apply list_elem_of_In; exact Hin | cbn; tauto]. }
    lia.
Qed.

Lemma cacheOk_set (k : string) (v : Z) (c : LRUCache) :
  cacheOk c -> cacheOk (lru_set k v c).
Proof.
  intros [Hnd _]. unfold lru_set. split.
  - rewrite <- firstn_map.
    eapply sublist_NoDup; [| apply sublist_take].
    cbn [map fst]. apply NoDup_cons. split.
    + rewrite list_elem_of_In, lru_remove_keys. tauto.
    + exact (lru_remove_NoDup k c Hnd).
  - apply firstn_le_length.
Qed.

Lemma cacheOk_cachedCodeId (k : string) (r : Resolver) :
  cacheOk (codeIdCache r) ->
  cacheOk (codeIdCache (cachedCodeId k r).2).
Proof.
  intros Hok. unfold cachedCodeId, lru_get.
  destruct (lru_peek k (codeIdCache r)) as [v |] eqn:Hpeek;
    cbn [snd codeIdCache]; [| exact Hok].
  exact (cacheOk_touch k v _ Hok (lru_peek_In k v _ Hpeek)).
Qed.

Lemma cacheOk_loadIntoCache (a : string) (r : Resolver) :
  cacheOk (codeIdCache r) ->
  cacheOk (codeIdCache (loadIntoCache getContract a r).2).
Proof.
  intros Hok. unfold loadIntoCache.
  destruct (getContract (rpcClock r) a) as [c | isError message |].
  - apply cacheOk_set. exact Hok.
  - destruct (negb isError || _); [exact Hok | apply cacheOk_set; exact Hok].
  - destruct (negb true || _); [exact Hok | apply cacheOk_set; exact Hok].
Qed.

(** What every attempt keeps, the retried call keeps. *)
Lemma attempts_invariant {St A : Type} (P : St -> Prop) (fn : M St A)
    (n : nat) :
  (forall s, P s -> P (fn s).2) ->
  forall s, P s -> P (attempts fn n s).2.
Proof.
  intros Hfn. induction n as [| n IH]; intros s Hs; [exact Hs |].
  destruct n as [| n]; [exact (Hfn s Hs) |].
  rewrite attempts_step.
  specialize (Hfn s Hs). destruct (fn s) as [[a | error] s1];
    cbn [snd] in *; [exact Hfn |].
  destruct (stopsRetry error); [exact Hfn | exact (IH s1 Hfn)].
Qed.

(** The cache stays well formed: whatever the node answers, after
    [getCodeId] the cache still holds at most one entry per address and at
    most 1000 entries. *)
Theorem getCodeId_keeps_cache_bounded (a : string) (r : Resolver) :
  cacheOk (codeIdCache r) ->
  cacheOk (codeIdCache (getCodeId getContract a r).2).
Proof.
  intros Hok. unfold getCodeId.
  destruct (lru_has a (codeIdCache r)); [exact (cacheOk_cachedCodeId a r Hok) |].
  pose proof (attempts_invariant (fun s => cacheOk (codeIdCache s))
                (loadIntoCache getContract a) 3
                (cacheOk_loadIntoCache a) r Hok) as Hretry.
  unfold retry, retryOptions. cbn [retriesMax].
  destruct (attempts (loadIntoCache getContract a) 3 r) as [[[] | message] r1];
    cbn [snd] in Hretry; apply cacheOk_cachedCodeId.
  - exact Hretry.
  - apply cacheOk_set. exact Hretry.
Qed.

Lemma getCodeId_hit (a : string) (r : Resolver) (v : Z) :
  lru_peek a (codeIdCache r) = Some v ->
  exists r',
    getCodeId getContract a r = (Ok v, r')
    /\ lru_peek a (codeIdCache r') = Some v
    /\ rpcClock r' = rpcClock r
    /\ failedGetCodeId r' = failedGetCodeId r.
Proof.
  intros Hhit. unfold getCodeId, lru_has. rewrite Hhit.
  unfold cachedCodeId, lru_get. rewrite Hhit. eexists. split; [reflexivity |].
  cbn [codeIdCache rpcClock failedGetCodeId lru_peek].
  rewrite String.eqb_refl. auto.
Qed.

(** [getCodeId] never throws, and what it answers stays cached. *)
Lemma getCodeId_answers (a : string) (r : Resolver) :
  exists id r',
    getCodeId getContract a r = (Ok id, r')
    /\ lru_peek a (codeIdCache r') = Some id.
Proof.
  destruct (lru_peek a (codeIdCache r)) as [v |] eqn:Hpeek.
  - destruct (getCodeId_hit a r v Hpeek) as (r' & Hget & Hcached & _).
    eauto.
  - destruct (getCodeId_miss getContract a r Hpeek)
      as (id & r' & Hget & Hcached & _).
    eauto.
Qed.

(** On a miss, the first attempt of the three that reaches the contract
    decides, when every attempt before it threw an error after which
    [retry] goes on (other than not found, and without an own falsy
    [retryable]): its code ID is returned and cached, the failures before
    it are not reported, and no further attempt is made. *)
Theorem getCodeId_finds_contract (a : string) (r : Resolver) (i : nat)
    (id : Z) :
  lru_peek a (codeIdCache r) = None ->
  (i < 3)%nat ->
  getContract (rpcClock r + i)%nat a = RpcContract id ->
  retried getContract a (rpcClock r) i ->
  exists r',
    getCodeId getContract a r = (Ok id, r')
    /\ lru_peek a (codeIdCache r') = Some id
    /\ rpcClock r' = (rpcClock r + i + 1)%nat
    /\ failedGetCodeId r' = failedGetCodeId r.
Proof.
  intros Hmiss Hi Hfound Hbefore.
  destruct (getCodeId_miss_at getContract a r Hmiss)
    as (id' & r' & Hget & Hcached & _ & _ & _ & Hsettled & _).
  destruct (Hsettled i id Hi Hbefore) as (-> & Hclock & Hlog).
  { rewrite Hfound. reflexivity. }
  exists r'. auto.
Qed.

End ResolverMore.

(** A code ID once resolved is not asked for again: after any call of
    [getCodeId] for an address, a second call for it returns the same code
    ID without reaching the node, whatever the node would answer then; so
    a 0 cached after a failure or a not-found answer is served from the
    cache as well. *)
Theorem getCodeId_second_call_is_cached
    (getContract laterNode : nat -> string -> RpcOutcome) (a : string)
    (r : Resolver) :
  exists id r' r'',
    getCodeId getContract a r = (Ok id, r')
    /\ getCodeId laterNode a r' = (Ok id, r'')
    /\ rpcClock r'' = rpcClock r'
    /\ failedGetCodeId r'' = failedGetCodeId r'.
Proof.
  destruct (getCodeId_answers getContract a r) as (id & r' & Hget & Hcached).
  destruct (getCodeId_hit laterNode a r' id Hcached)
    as (r'' & Hagain & _ & Hclock & Hlog).
  exists id, r', r''. auto.
Qed.

Lemma getCodeId_keeps_cache_bounded_witness :
  cacheOk (codeIdCache (getCodeId flakyNode "xion1abc" emptyResolver).2).
Proof.
  apply (getCodeId_keeps_cache_bounded flakyNode "xion1abc" emptyResolver).
  split; [apply NoDup_nil_2 | cbn; lia].
Defined.

Lemma getCodeId_finds_contract_witness :
  exists r',
    getCodeId slowNode "xion1abc" emptyResolver = (Ok 7, r')
    /\ lru_peek "xion1abc" (codeIdCache r') = Some 7
    /\ rpcClock r' = 2%nat
    /\ failedGetCodeId r' = [].
Proof.
  apply (getCodeId_finds_contract slowNode "xion1abc" emptyResolver 1 7
           eq_refl ltac:(lia) eq_refl).
  intros j Hj. destruct j; [split; reflexivity | lia].
Defined.

(** ** The footprint of the processor

    What each piece of [process] may change, for a relation [R] between
    the world before and after that the writes of the piece respect. *)

Section Footprint.

Variable cfg : Config.
Variable svc : Services.
Variable R : World -> World -> Prop.

Hypothesis R_refl : forall w, R w w.
Hypothesis R_trans : forall w1 w2 w3, R w1 w2 -> R w2 w3 -> R w1 w3.
Hypothesis R_dbClock : forall f w, R w (with_dbClock f w).
Hypothesis R_blocks : forall f w, R w (with_blocks f w).
Hypothesis R_contracts :
  forall rows mode w,
    R w (with_contracts
           (fun table => foldl (upsertContract mode) table rows) w).
Hypothesis R_backfill :
  forall rows mode w,
    mode <> UpdateLifecycle ->
    R w (with_contracts
           (fun table => foldl (upsertContract mode) table rows) w).
Hypothesis R_wasmStateEvents : forall f w, R w (with_wasmStateEvents f w).
Hypothesis R_transformations : forall f w, R w (with_transformations f w).
Hypothesis R_queued : forall f w, R w (with_queued f w).
Hypothesis R_resolver : forall f w, R w (with_resolver f w).
Hypothesis R_stateEvents : forall f w, R w (with_stateEvents f w).
Hypothesis R_state : forall f w, R w (with_state f w).

Lemma sw_ret {A : Type} (a : A) : stepwise R (ret a).
Proof. intros w. apply R_refl. Qed.

Lemma sw_throw {A : Type} (message : string) :
  stepwise R (@throw World A message).
Proof. intros w. apply R_refl. Qed.

Lemma sw_gets {A : Type} (f : World -> A) : stepwise R (gets f).
Proof. intros w. apply R_refl. Qed.

Lemma sw_modify (f : World -> World) :
  (forall w, R w (f w)) -> stepwise R (modify f).
Proof. intros Hf w. apply Hf. Qed.

Lemma sw_bind {A B : Type} (m : M World A) (k : A -> M World B) :
  stepwise R m -> (forall a, stepwise R (k a)) -> stepwise R (bind m k).
Proof.
  intros Hm Hk w. unfold bind. specialize (Hm w).
  destruct (m w) as [[a | message] w1]; cbn [snd] in *; [| exact Hm].
  exact (R_trans _ _ _ Hm (Hk a w1)).
Qed.

Lemma sw_attempts {A : Type} (fn : M World A) (n : nat) :
  stepwise R fn -> stepwise R (attempts fn n).
Proof.
  intros Hfn. induction n as [| n IH]; [apply sw_throw |].
  destruct n as [| n]; [exact Hfn |].
  intros w. rewrite attempts_step.
  specialize (Hfn w). destruct (fn w) as [[a | error] w1]; cbn [snd] in *.
  - exact Hfn.
  - destruct (stopsRetry error); cbn [snd]; [exact Hfn |].
    exact (R_trans _ _ _ Hfn (IH w1)).
Qed.

Lemma sw_retry {A : Type} (fn : M World A) (options : RetryOptions) :
  stepwise R fn -> stepwise R (retry fn options).
Proof. apply sw_attempts. Qed.

Lemma sw_mapM {A B : Type} (f : A -> M World B) (l : list A) :
  (forall a, stepwise R (f a)) -> stepwise R (mapM f l).
Proof.
  intros Hf. induction l as [| x rest IH]; cbn [mapM]; [apply sw_ret |].
  apply sw_bind; [apply Hf |]. intros y.
  apply sw_bind; [exact IH |]. intros ys. apply sw_ret.
Qed.

Lemma sw_dbCall (what : string) : stepwise R (dbCall svc what).
Proof.
  intros w. unfold dbCall.
  destruct (dbFault svc (dbClock w)); apply R_dbClock.
Qed.

Lemma sw_resolveCodeId (a : string) : stepwise R (resolveCodeId svc a).
Proof.
  intros w. unfold resolveCodeId.
  destruct (getCodeId (rpc_getContract svc) a (resolver w)) as [[id | m] r];
    apply R_resolver.
Qed.

Lemma sw_Block_createMany (rows : list (Z * Z)) :
  stepwise R (Block_createMany svc rows).
Proof.
  unfold Block_createMany. apply sw_bind; [apply sw_dbCall | intros _].
  apply sw_modify. intros w. apply R_blocks.
Qed.

Lemma sw_Contract_bulkCreate (rows : list Contract) (mode : OnConflict) :
  stepwise R (Contract_bulkCreate svc rows mode).
Proof.
  unfold Contract_bulkCreate. apply sw_bind; [apply sw_dbCall | intros _].
  apply sw_modify. intros w. apply R_contracts.
Qed.

(** The two back-fills, which never write as a lifecycle event does. *)
Lemma sw_Contract_backfill (rows : list Contract) (mode : OnConflict) :
  mode <> UpdateLifecycle ->
  stepwise R (Contract_bulkCreate svc rows mode).
Proof.
  intros Hmode. unfold Contract_bulkCreate.
  apply sw_bind; [apply sw_dbCall | intros _].
  apply sw_modify. intros w. apply R_backfill. exact Hmode.
Qed.

Lemma sw_Contract_findAll (addresses : list string) :
  stepwise R (Contract_findAll svc addresses).
Proof.
  unfold Contract_findAll. apply sw_bind; [apply sw_dbCall | intros _].
  apply sw_gets.
Qed.

Lemma sw_WasmStateEvent_bulkCreate (events : list StateEventData) :
  stepwise R (WasmStateEvent_bulkCreate svc events).
Proof.
  unfold WasmStateEvent_bulkCreate.
  apply sw_bind; [apply sw_dbCall | intros _].
  apply sw_bind; [| intros _; apply sw_ret].
  apply sw_modify. intros w. apply R_wasmStateEvents.
Qed.

Lemma sw_State_getSingleton : stepwise R (State_getSingleton svc).
Proof.
  unfold State_getSingleton. apply sw_bind; [apply sw_dbCall | intros _].
  apply sw_gets.
Qed.

Lemma sw_State_updateSingleton (lastEvent : Event) :
  stepwise R (State_updateSingleton svc lastEvent).
Proof.
  unfold State_updateSingleton. apply sw_bind; [apply sw_dbCall | intros _].
  apply sw_modify. intros w. apply R_state.
Qed.

Lemma sw_ensureContractsExist (addresses : list string) :
  stepwise R (ensureContractsExist svc addresses).
Proof.
  unfold ensureContractsExist. apply sw_bind; [apply sw_gets | intros parsed].
  apply sw_bind;
    [| intros rows; apply sw_Contract_backfill; discriminate].
  destruct (contractsForAddresses parsed addresses);
    [apply sw_ret | apply sw_throw].
Qed.

(** The code-ID back-fill of [exportContractsAndEvents]. *)
Lemma sw_codeIdBackfill (addresses : list string) (found : list Contract) :
  stepwise R
    (match List.filter (fun contract => codeId contract <=? 0) found with
     | [] => ret found
     | _ =>
       do ids <- mapM (fun contract => resolveCodeId svc (address contract))
                   (List.filter (fun contract => codeId contract <=? 0)
                      found);
       do _ <- Contract_bulkCreate svc
                 (List.filter (fun row => 0 <? codeId row)
                    (zip_with withCodeId
                       (List.filter (fun contract => codeId contract <=? 0)
                          found) ids))
                 UpdateCodeId;
       Contract_findAll svc addresses
     end).
Proof.
  destruct (List.filter _ found); [apply sw_ret |].
  apply sw_bind; [apply sw_mapM; intros row; apply sw_resolveCodeId |].
  intros ids.
  apply sw_bind;
    [apply sw_Contract_backfill; discriminate | intros _].
  apply sw_Contract_findAll.
Qed.

Lemma sw_exportContractsAndEvents (addresses : list string) :
  stepwise R (exportContractsAndEvents cfg svc addresses).
Proof.
  unfold exportContractsAndEvents.
  apply sw_bind; [apply sw_ensureContractsExist | intros _].
  apply sw_bind; [apply sw_Contract_findAll | intros found].
  cbv zeta. apply sw_bind.
  { destruct (List.filter _ found); [apply sw_ret |].
    apply sw_bind; [apply sw_mapM; intros row; apply sw_resolveCodeId |].
    intros ids.
    apply sw_bind;
      [apply sw_Contract_backfill; discriminate | intros _].
    apply sw_Contract_findAll. }
  intros found'.
  apply sw_bind; [apply sw_modify; intros w; apply R_stateEvents | intros _].
  apply sw_bind; [apply sw_gets | intros kept].
  apply sw_bind; [apply sw_WasmStateEvent_bulkCreate | intros exported].
  apply sw_ret.
Qed.

Lemma sw_attachContracts {A : Type} (addressOf : A -> string)
    (items : list A) (found : list Contract) :
  stepwise R (attachContracts svc addressOf found items).
Proof.
  revert found. induction items as [| item rest IH]; intros found;
    cbn [attachContracts]; [apply sw_ret |].
  apply sw_bind.
  { destruct (findContract _ found); [apply sw_ret |].
    apply sw_bind; [apply sw_dbCall | intros _].
    apply sw_bind; [apply sw_gets | intros [contract |]]; apply sw_ret. }
  intros hit. apply sw_bind; [apply IH |]. intros done. apply sw_ret.
Qed.

Lemma sw_runTransformers (parsed : list StateEventData) :
  stepwise R (runTransformers svc parsed).
Proof.
  unfold runTransformers. apply sw_bind; [apply sw_dbCall | intros _].
  cbv zeta. apply sw_bind; [| intros _; apply sw_ret].
  apply sw_modify. intros w. apply R_transformations.
Qed.

(** The webhook step of [process]. *)
Lemma sw_queueWebhooks (hooks : list (StateEventData * option Contract)) :
  stepwise R
    (if sendWebhooks cfg then
       match hooks with
       | [] => ret tt
       | _ =>
         bind (dbCall svc "AccountWebhook.queueWebhooks")
           (fun _ => modify (with_queued (fun q =>
                       q ++ [WebhookJob (map fst hooks)])))
       end
     else ret tt).
Proof.
  destruct (sendWebhooks cfg); [| apply sw_ret].
  destruct hooks; [apply sw_ret |].
  apply sw_bind; [apply sw_dbCall | intros _].
  apply sw_modify. intros w. apply R_queued.
Qed.

(** Every write of [process] is one the hypotheses on [R] speak of. *)
Lemma sw_process (events : list Event) :
  stepwise R (process cfg svc events).
Proof.
  unfold process. cbv zeta.
  apply sw_bind; [apply sw_Block_createMany | intros _].
  apply sw_bind; [| intros _].
  { destruct (contractEventsOf events);
      [apply sw_ret | apply sw_Contract_bulkCreate]. }
  apply sw_bind; [apply sw_modify; intros w; apply R_stateEvents | intros _].
  apply sw_bind; [| intros _].
  { destruct (contractEventsOf events); [apply sw_ret |].
    apply sw_modify. intros w. apply R_queued. }
  destruct (stateEventsOf events); [apply sw_ret |].
  apply sw_bind; [apply sw_State_getSingleton | intros [before |]];
    [| apply sw_throw].
  apply sw_bind; [apply sw_retry, sw_exportContractsAndEvents | intros ?].
  apply sw_bind; [apply sw_attachContracts | intros joined].
  apply sw_bind; [apply sw_modify; intros w; apply R_stateEvents | intros _].
  apply sw_bind; [apply sw_modify; intros w; apply R_stateEvents | intros _].
  apply sw_bind; [apply sw_gets | intros parsed].
  apply sw_bind; [apply sw_retry, sw_runTransformers | intros ?].
  apply sw_bind; [apply sw_attachContracts | intros joinedT].
  apply sw_bind; [apply sw_queueWebhooks | intros _].
  destruct (last (sortByHeight events)); [| apply sw_throw].
  apply sw_bind; [apply sw_State_updateSingleton | intros _]. apply sw_ret.
Qed.

End Footprint.

(** ** Contract rows across a run *)

Lemma sameInstantiation_refl (row : Contract) : sameInstantiation row row.
Proof. repeat split. Qed.

Lemma sameInstantiation_trans (r1 r2 r3 : Contract) :
  sameInstantiation r1 r2 -> sameInstantiation r2 r3 ->
  sameInstantiation r1 r3.
Proof.
  intros (A1 & H1 & T1 & S1) (A2 & H2 & T2 & S2).
  repeat split; congruence.
Qed.

Lemma upsertContract_keeps (mode : OnConflict)
    (table : gmap string Contract) (new : Contract) (a : string)
    (row : Contract) :
  table !! a = Some row ->
  exists row',
    upsertContract mode table new !! a = Some row'
    /\ sameInstantiation row row'.
Proof.
  intros Hrow. unfold upsertContract.
  destruct (table !! address new) as [old |] eqn:Hold.
  - destruct (decide (address new = a)) as [Heq | Hne].
    + rewrite Heq in Hold. rewrite Hold in Hrow. injection Hrow as ->.
      destruct mode.
      * rewrite Heq, lookup_insert_eq. eexists. split; [reflexivity |].
        repeat split.
      * rewrite Heq, lookup_insert_eq. eexists. split; [reflexivity |].
        repeat split.
      * exists row. rewrite <- Heq at 1. rewrite <- Heq in Hold.
        split; [exact Hold | apply sameInstantiation_refl].
    + destruct mode; try rewrite lookup_insert_ne by exact Hne;
        exists row; split; auto using sameInstantiation_refl.
  - assert (Hne : address new <> a) by congruence.
    rewrite lookup_insert_ne by exact Hne.
    exists row. split; [exact Hrow | apply sameInstantiation_refl].
Qed.

Lemma upsertContracts_keep (mode : OnConflict) (rows : list Contract)
    (table : gmap string Contract) (a : string) (row : Contract) :
  table !! a = Some row ->
  exists row',
    foldl (upsertContract mode) table rows !! a = Some row'
    /\ sameInstantiation row row'.
Proof.
  revert table row. induction rows as [| new rest IH]; intros table row Hrow;
    cbn [foldl].
  - exists row. split; [exact Hrow | apply sameInstantiation_refl].
  - destruct (upsertContract_keeps mode table new a row Hrow)
      as (row1 & Hrow1 & Hsame1).
    destruct (IH _ row1 Hrow1) as (row2 & Hrow2 & Hsame2).
    exists row2. split; [exact Hrow2 |].
    exact (sameInstantiation_trans _ _ _ Hsame1 Hsame2).
Qed.

Lemma contractsKept_refl (w : World) : contractsKept w w.
Proof.
  intros a row Hrow. exists row.
  split; [exact Hrow | apply sameInstantiation_refl].
Qed.

Lemma contractsKept_trans (w1 w2 w3 : World) :
  contractsKept w1 w2 -> contractsKept w2 w3 -> contractsKept w1 w3.
Proof.
  intros H12 H23 a row Hrow.
  destruct (H12 a row Hrow) as (row2 & Hrow2 & Hsame2).
  destruct (H23 a row2 Hrow2) as (row3 & Hrow3 & Hsame3).
  exists row3. split; [exact Hrow3 |].
  exact (sameInstantiation_trans _ _ _ Hsame2 Hsame3).
Qed.

(** A run of [process] never deletes a contract row and never changes the
    address or the instantiation height, time and timestamp of one,
    whatever the batch holds and whether the run returns or throws:
    lifecycle events and the code-ID back-fill update the other columns
    only, and the existence back-fill leaves existing rows alone. *)
Theorem process_keeps_instantiation (cfg : Config) (svc : Services)
    (events : list Event) (w : World) (a : string) (row : Contract) :
  contracts w !! a = Some row ->
  exists row',
    contracts (process cfg svc events w).2 !! a = Some row'
    /\ address row' = address row
    /\ instantiatedAtBlockHeight row' = instantiatedAtBlockHeight row
    /\ instantiatedAtBlockTimeUnixMs row' = instantiatedAtBlockTimeUnixMs row
    /\ instantiatedAtBlockTimestamp row' = instantiatedAtBlockTimestamp row.
Proof.
  revert a row. change (contractsKept w (process cfg svc events w).2).
  apply (sw_process cfg svc contractsKept contractsKept_refl
           contractsKept_trans);
    try (intros f w0 a row Hrow; exists row;
         split; [exact Hrow | apply sameInstantiation_refl]).
  - intros rows mode w0 a row Hrow.
    exact (upsertContracts_keep mode rows (contracts w0) a row Hrow).
  - intros rows mode w0 _ a row Hrow.
    exact (upsertContracts_keep mode rows (contracts w0) a row Hrow).
Qed.

Lemma process_keeps_instantiation_witness :
  exists row',
    contracts (process standardConfig demoServices mixedBatch
                 worldWithContract).2 !! "xion1abc" = Some row'
    /\ instantiatedAtBlockHeight row' = 90.
Proof.
  destruct (process_keeps_instantiation standardConfig demoServices
              mixedBatch worldWithContract "xion1abc" (backfilledAt 90)
              eq_refl)
    as (row' & Hrow & _ & Hheight & _).
  exists row'. split; [exact Hrow | exact Hheight].
Defined.

(** ** The [State] row, all columns *)

(** A run of [process] never changes the chain ID of the [State] row and
    never lowers [latestBlockHeight] or [latestBlockTimeUnixMs], whatever
    the batch and whether the run returns or throws. *)
Theorem process_state_columns (cfg : Config) (svc : Services)
    (events : list Event) (w : World) (before : State) :
  state w = Some before ->
  exists after,
    state (process cfg svc events w).2 = Some after
    /\ state_chainId after = state_chainId before
    /\ latestBlockHeight before <= latestBlockHeight after
    /\ latestBlockTimeUnixMs before <= latestBlockTimeUnixMs after.
Proof.
  intros Hbefore. pose proof (process_state cfg svc events w) as H.
  unfold stateAfter in H. rewrite Hbefore in H.
  destruct (process cfg svc events w).1 as [created | message].
  - destruct (stateEventsOf events).
    + exists before. repeat split; [exact H | lia | lia].
    + destruct H as (lastEvent & _ & ->).
      exists (advanceState lastEvent before).
      cbn [advanceState state_chainId latestBlockHeight
             latestBlockTimeUnixMs fmap option_fmap option_map].
      repeat split; lia.
  - exists before. repeat split; [exact H | lia | lia].
Qed.

Lemma process_state_columns_witness :
  exists after,
    state (process standardConfig demoServices sortedBatch
             (emptyWorld (Some exportedAt50))).2 = Some after
    /\ state_chainId after = "xion-mainnet-1"
    /\ 50 <= latestBlockHeight after
    /\ 1699999700000 <= latestBlockTimeUnixMs after.
Proof.
  exact (process_state_columns standardConfig demoServices sortedBatch
           (emptyWorld (Some exportedAt50)) exportedAt50 eq_refl).
Defined.

(** After a run that returns on a batch with at least one state event,
    the three columns are the greatest of what they were and the height
    (for the time column, the time) of an event of the batch; contract
    events count. No event of the batch is higher than that event as the
    sort compares heights, which is by their [Number]; when [Number]
    keeps every height of the batch, that is when all are below [2 ^ 53],
    no event of the batch is higher. *)
Theorem process_sets_watermark_to_highest (cfg : Config) (svc : Services)
    (events : list Event) (w : World) (created : list CreatedEvent)
    (before : State) :
  (process cfg svc events w).1 = Ok created ->
  stateEventsOf events <> [] ->
  state w = Some before ->
  exists top,
    In top events
    /\ (forall e, In e events ->
          toNumber (event_blockHeight e) <= toNumber (event_blockHeight top))
    /\ ((forall e, In e events -> Z.abs (event_blockHeight e) < 2 ^ 53) ->
        forall e, In e events ->
          event_blockHeight e <= event_blockHeight top)
    /\ state (process cfg svc events w).2
       = Some {| state_chainId := state_chainId before;
                 lastWasmBlockHeightExported :=
                   Z.max (lastWasmBlockHeightExported before)
                     (event_blockHeight top);
                 latestBlockHeight :=
                   Z.max (latestBlockHeight before) (event_blockHeight top);
                 latestBlockTimeUnixMs :=
                   Z.max (latestBlockTimeUnixMs before)
                     (event_blockTimeUnixMs top) |}.
Proof.
  intros Hok Hsome Hbefore.
  destruct (process_advances_state cfg svc events w created Hok Hsome)
    as (top & Hin & Hkeys & Hmax & Hafter).
  exists top. rewrite Hafter, Hbefore. auto.
Qed.

Lemma process_sets_watermark_to_highest_witness :
  exists top,
    In top mixedBatch
    /\ event_blockHeight top = 100
    /\ lastWasmBlockHeightExported
         <$> state (process standardConfig demoServices mixedBatch
                      (emptyWorld (Some exportedAt50))).2
       = Some (Z.max 50 (event_blockHeight top)).
Proof.
  destruct (process_sets_watermark_to_highest standardConfig demoServices
              mixedBatch (emptyWorld (Some exportedAt50)) _ exportedAt50
              eq_refl ltac:(discriminate) eq_refl)
    as (top & Hin & _ & Hmax & Hafter).
  exists top. split; [exact Hin |].
  assert (Hsafe : forall e, In e mixedBatch ->
                    Z.abs (event_blockHeight e) < 2 ^ 53).
  { intros e [<- | [<- | []]]; reflexivity. }
  assert (Htop : event_blockHeight top = 100).
  { pose proof (Hmax Hsafe _ (or_intror (or_introl eq_refl))) as Hge.
    cbn in Hge. destruct Hin as [<- | [<- | []]]; cbn in *; lia. }
  split; [exact Htop |]. rewrite Hafter. reflexivity.
Defined.

(** Above [2 ^ 53] the sort does not tell heights apart that [Number]
    rounds to the same double: of the heights [2 ^ 53 + 1] and [2 ^ 53],
    in this order in the batch, the sort leaves the second one last, and
    the watermark is set to [2 ^ 53]. *)
Example watermark_above_safe_integers :
  lastWasmBlockHeightExported
    <$> state (process standardConfig demoServices
                 [StateEvent "state:9007199254740993:xion1abc:1"
                    (stateEventAt 9007199254740993 "xion1abc" "1");
                  StateEvent "state:9007199254740992:xion1abc:1"
                    (stateEventAt 9007199254740992 "xion1abc" "1")]
                 (emptyWorld (Some exportedAt50))).2
  = Some 9007199254740992.
Proof. vm_compute. reflexivity. Qed.

(** ** Reasoning along a run *)

Lemma hoare_ret {A : Type} (P : World -> Prop)
    (Q : result A -> World -> Prop) (a : A) :
  (forall w, P w -> Q (Ok a) w) -> hoare P (ret a) Q.
Proof. intros HQ w Hw. exact (HQ w Hw). Qed.

Lemma hoare_throw {A : Type} (P : World -> Prop)
    (Q : result A -> World -> Prop) (message : string) :
  (forall w, P w -> Q (Throw message) w) -> hoare P (throw message) Q.
Proof. intros HQ w Hw. exact (HQ w Hw). Qed.

Lemma hoare_bind {A B : Type} (P : World -> Prop)
    (Mid : A -> World -> Prop) (Q : result B -> World -> Prop)
    (m : M World A) (k : A -> M World B) :
  hoare P m (fun r w =>
               match r with
               | Ok a => Mid a w
               | Throw message => Q (Throw message) w
               end) ->
  (forall a, hoare (Mid a) (k a) Q) ->
  hoare P (bind m k) Q.
Proof.
  intros Hm Hk w Hw. unfold bind. specialize (Hm w Hw).
  destruct (m w) as [[a | message] w1]; cbn [fst snd] in *.
  - exact (Hk a w1 Hm).
  - exact Hm.
Qed.

Lemma sameOn_refl {X : Type} (F : World -> X) (w : World) : sameOn F w w.
Proof. reflexivity. Qed.

Lemma sameOn_trans {X : Type} (F : World -> X) (w1 w2 w3 : World) :
  sameOn F w1 w2 -> sameOn F w2 w3 -> sameOn F w1 w3.
Proof. unfold sameOn. congruence. Qed.

(** A step that leaves [F] alone keeps an invariant that reads [F] only,
    and hands it on to what follows. *)
Lemma hoare_bind_same {A B X : Type} (F : World -> X) (I : X -> Prop)
    (Q : result B -> World -> Prop) (m : M World A) (k : A -> M World B) :
  stepwise (sameOn F) m ->
  (forall message w, I (F w) -> Q (Throw message) w) ->
  (forall a, hoare (fun w => I (F w)) (k a) Q) ->
  hoare (fun w => I (F w)) (bind m k) Q.
Proof.
  intros Hm Hthrow Hk.
  apply (hoare_bind _ (fun _ w => I (F w))); [| exact Hk].
  intros w Hw. specialize (Hm w). unfold sameOn in Hm.
  destruct (m w) as [[a | message] w1]; cbn [fst snd] in *.
  - rewrite Hm. exact Hw.
  - apply Hthrow. rewrite Hm. exact Hw.
Qed.

(** A last step that leaves [F] alone. *)
Lemma hoare_same {A X : Type} (F : World -> X) (I : X -> Prop)
    (Q : result A -> World -> Prop) (m : M World A) :
  stepwise (sameOn F) m ->
  (forall r w, I (F w) -> Q r w) ->
  hoare (fun w => I (F w)) m Q.
Proof.
  intros Hm HQ w Hw. apply HQ. specialize (Hm w). unfold sameOn in Hm.
  rewrite Hm. exact Hw.
Qed.

(** A retried call: each attempt either establishes [Q] by returning or
    keeps the invariant by throwing. *)
Lemma hoare_attempts {A : Type} (I : World -> Prop)
    (Q : result A -> World -> Prop) (fn : M World A) (n : nat) :
  hoare I fn (fun r w =>
                match r with
                | Ok a => Q (Ok a) w
                | Throw _ => I w
                end) ->
  (forall message w, I w -> Q (Throw message) w) ->
  hoare I (attempts fn n) Q.
Proof.
  intros Hfn Hthrow. induction n as [| n IH].
  - intros w Hw. apply Hthrow. exact Hw.
  - destruct n as [| n].
    + intros w Hw. specialize (Hfn w Hw). cbn [attempts].
      destruct (fn w) as [[a | message] w1]; cbn [fst snd] in *;
        [exact Hfn | apply Hthrow; exact Hfn].
    + intros w Hw. rewrite attempts_step.
      specialize (Hfn w Hw).
      destruct (fn w) as [[a | error] w1]; cbn [fst snd] in *;
        [exact Hfn |].
      destruct (stopsRetry error); cbn [fst snd];
        [apply Hthrow; exact Hfn | exact (IH w1 Hfn)].
Qed.

(** The pieces of [process] leave alone what they do not write. *)
Ltac untouched :=
  first
    [ exact (fun w => eq_refl)
    | exact (fun _ w => eq_refl)
    | exact (fun _ _ w => eq_refl)
    | exact (fun _ _ w _ => eq_refl)
    | apply sameOn_trans ].

Ltac footprint lemma := apply lemma; untouched.

Ltac footprint_retry lemma :=
  apply sw_retry; first [footprint lemma | untouched].

(** ** A batch that finds no [State] row *)

(** With no [State] row, a batch that holds a state event makes [process]
    throw before it exports any of them: no state-event row is written,
    no transformation is stored and the resolver is not consulted. *)
Theorem process_without_state_row (cfg : Config) (svc : Services)
    (events : list Event) (w : World) :
  state w = None ->
  stateEventsOf events <> [] ->
  (exists message, (process cfg svc events w).1 = Throw message)
  /\ state (process cfg svc events w).2 = None
  /\ wasmStateEvents (process cfg svc events w).2 = wasmStateEvents w
  /\ transformations (process cfg svc events w).2 = transformations w
  /\ resolver (process cfg svc events w).2 = resolver w.
Proof.
  intros Hnone Hsome.
  set (F := fun w0 : World =>
              (state w0, wasmStateEvents w0, transformations w0,
               resolver w0)).
  set (I := fun x : option State * _ * _ * Resolver =>
              x = (None, wasmStateEvents w, transformations w, resolver w)).
  set (Q := fun (r : result (list CreatedEvent)) (w' : World) =>
              (exists message, r = Throw message) /\ I (F w')).
  enough (H : hoare (fun w0 => I (F w0)) (process cfg svc events) Q).
  { destruct (H w) as [Hthrow Hsame].
    - unfold I, F. rewrite Hnone. reflexivity.
    - unfold I, F in Hsame. injection Hsame as H1 H2 H3 H4. auto. }
  assert (Hthrow : forall message w0, I (F w0) -> Q (Throw message) w0)
    by (intros message w0 Hw0; split; [eauto | exact Hw0]).
  unfold process. cbv zeta.
  apply hoare_bind_same; [footprint sw_Block_createMany | exact Hthrow |].
  intros _. apply hoare_bind_same; [| exact Hthrow |].
  { destruct (contractEventsOf events);
      [footprint sw_ret | footprint sw_Contract_bulkCreate]. }
  intros _. apply hoare_bind_same; [| exact Hthrow |].
  { apply sw_modify. exact (fun w0 => eq_refl). }
  intros _. apply hoare_bind_same; [| exact Hthrow |].
  { destruct (contractEventsOf events); [footprint sw_ret |].
    apply sw_modify. exact (fun w0 => eq_refl). }
  intros _. destruct (stateEventsOf events); [contradiction |].
  apply (hoare_bind _ (fun a w0 => a = None /\ I (F w0))).
  - intros w0 Hw0. unfold State_getSingleton, bind, dbCall, gets.
    destruct (dbFault svc (dbClock w0)); cbn [fst snd].
    + apply Hthrow. exact Hw0.
    + split; [| exact Hw0].
      unfold I, F in Hw0. cbn in Hw0 |- *. congruence.
  - intros singleton. intros w0 [-> Hw0]. cbn. split; [eauto | exact Hw0].
Qed.

Lemma process_without_state_row_witness :
  (exists message,
     (process standardConfig demoServices sortedBatch (emptyWorld None)).1
       = Throw message)
  /\ wasmStateEvents
       (process standardConfig demoServices sortedBatch (emptyWorld None)).2
     = ∅.
Proof.
  destruct (process_without_state_row standardConfig demoServices sortedBatch
              (emptyWorld None) eq_refl ltac:(discriminate))
    as (Hthrow & _ & Hevents & _).
  split; [exact Hthrow | exact Hevents].
Defined.

(** ** What a run puts on the queues *)

Lemma hoare_pure {A : Type} (P0 : Prop) (P : World -> Prop)
    (m : M World A) (Q : result A -> World -> Prop) :
  (P0 -> hoare P m Q) -> hoare (fun w => P0 /\ P w) m Q.
Proof. intros H w [H0 Hw]. exact (H H0 w Hw). Qed.

(** A run of [process] only appends to the queues, and appends at most
    two jobs. The first is the Wasm-code tracker job of the batch: keyed
    by the height of the first contract event, carrying all contract
    events and all state events of the batch, there whenever the run
    returns and the batch holds a contract event, and absent when it holds
    none. The second is a webhook job, queued only when webhooks are
    switched on, never empty, and holding no event below the
    [lastWasmBlockHeightExported] the run started from. *)
Theorem process_queue_effect (cfg : Config) (svc : Services)
    (events : list Event) (w : World) :
  exists jobs hooks,
    queued (process cfg svc events w).2 = queued w ++ jobs ++ hooks
    /\ (jobs = [] \/ jobs = trackerJobs events)
    /\ ((exists created, (process cfg svc events w).1 = Ok created) ->
        jobs = trackerJobs events)
    /\ (hooks = []
        \/ (sendWebhooks cfg = true
            /\ exists evs,
                 hooks = [WebhookJob evs] /\ evs <> []
                 /\ forall before, state w = Some before ->
                    Forall (fun e => lastWasmBlockHeightExported before
                                       <= se_blockHeight e) evs)).
Proof.
  set (hooksOk := fun hooks : list QueueJob =>
         hooks = []
         \/ (sendWebhooks cfg = true
             /\ exists evs,
                  hooks = [WebhookJob evs] /\ evs <> []
                  /\ forall before, state w = Some before ->
                     Forall (fun e => lastWasmBlockHeightExported before
                                        <= se_blockHeight e) evs)).
  set (Q := fun (r : result (list CreatedEvent)) (w' : World) =>
         exists jobs hooks,
           queued w' = queued w ++ jobs ++ hooks
           /\ (jobs = [] \/ jobs = trackerJobs events)
           /\ ((exists created, r = Ok created) -> jobs = trackerJobs events)
           /\ hooksOk hooks).
  set (F := fun w0 : World => (state w0, queued w0)).
  set (IA := fun x : option State * list QueueJob =>
               x = (state w, queued w)).
  set (IB := fun x : option State * list QueueJob =>
               x = (state w, queued w ++ trackerJobs events)).
  set (IC := fun q : list QueueJob =>
               exists hooks,
                 q = queued w ++ trackerJobs events ++ hooks
                 /\ hooksOk hooks).
  enough (H : hoare (fun w0 => IA (F w0)) (process cfg svc events) Q)
    by (apply H; reflexivity).
  assert (HthrowA : forall message w0, IA (F w0) -> Q (Throw message) w0).
  { intros message w0 Hw0. injection Hw0 as _ Hq. exists [], [].
    rewrite Hq, !app_nil_r. repeat split; [left; reflexivity | | left; reflexivity].
    intros [created Hcreated]. discriminate Hcreated. }
  assert (HanyB : forall r w0, IB (F w0) -> Q r w0).
  { intros r w0 Hw0. injection Hw0 as _ Hq. exists (trackerJobs events), [].
    rewrite Hq, app_nil_r.
    repeat split; [right; reflexivity | left; reflexivity]. }
  assert (HanyC : forall r w0, IC (queued w0) -> Q r w0).
  { intros r w0 (hooks & Hq & Hhooks). exists (trackerJobs events), hooks.
    repeat split; [exact Hq | right; reflexivity | exact Hhooks]. }
  unfold process. cbv zeta.
  apply hoare_bind_same; [footprint sw_Block_createMany | exact HthrowA |].
  intros _. apply hoare_bind_same; [| exact HthrowA |].
  { destruct (contractEventsOf events);
      [footprint sw_ret | footprint sw_Contract_bulkCreate]. }
  intros _. apply hoare_bind_same; [| exact HthrowA |].
  { apply sw_modify. exact (fun w0 => eq_refl). }
  intros _. apply (hoare_bind _ (fun _ w0 => IB (F w0))).
  { intros w0 Hw0. injection Hw0 as Hs Hq. unfold trackerJobs in IB |- *.
    unfold IB, F.
    destruct (contractEventsOf events) as [| first rest]; cbn.
    - rewrite Hs, Hq, app_nil_r. reflexivity.
    - rewrite Hs, Hq. reflexivity. }
  intros _. destruct (stateEventsOf events) as [| e0 rest0].
  { apply hoare_ret. intros w0 Hw0. exact (HanyB _ w0 Hw0). }
  apply (hoare_bind _ (fun a w0 => a = state w /\ IB (F w0))).
  { intros w0 Hw0. unfold State_getSingleton, bind, dbCall, gets.
    destruct (dbFault svc (dbClock w0)); cbn [fst snd].
    - exact (HanyB _ _ Hw0).
    - split; [| exact Hw0]. injection Hw0 as Hs _. exact Hs. }
  intros singleton. apply hoare_pure. intros Hsingleton.
  destruct singleton as [before |].
  2: { apply hoare_throw. intros w0 Hw0. exact (HanyB _ w0 Hw0). }
  apply hoare_bind_same;
    [footprint_retry sw_exportContractsAndEvents
    | intros message w0; apply HanyB |].
  intros exported. apply hoare_bind_same;
    [footprint sw_attachContracts | intros message w0; apply HanyB |].
  intros joined. apply hoare_bind_same;
    [apply sw_modify; exact (fun w0 => eq_refl)
    | intros message w0; apply HanyB |].
  intros _. apply hoare_bind_same;
    [apply sw_modify; exact (fun w0 => eq_refl)
    | intros message w0; apply HanyB |].
  intros _. apply hoare_bind_same;
    [footprint sw_gets | intros message w0; apply HanyB |].
  intros parsed. apply hoare_bind_same;
    [footprint_retry sw_runTransformers
    | intros message w0; apply HanyB |].
  intros transformed. apply hoare_bind_same;
    [footprint sw_attachContracts | intros message w0; apply HanyB |].
  intros joinedT.
  apply (hoare_bind _ (fun _ w0 => IC (queued w0))).
  { intros w0 Hw0. injection Hw0 as _ Hq.
    destruct (sendWebhooks cfg) eqn:Hsend.
    2: { cbn. exists []. rewrite Hq, app_nil_r.
         split; [reflexivity | left; reflexivity]. }
    match goal with
    | |- context [match ?l with [] => ret tt | _ :: _ => _ end] =>
      remember l as potential eqn:Hpotential
    end.
    destruct potential as [| hook hooks].
    { cbn. exists []. rewrite Hq, app_nil_r.
      split; [reflexivity | left; reflexivity]. }
    unfold bind, dbCall, modify.
    destruct (dbFault svc (dbClock w0)); cbn [fst snd].
    { apply HanyC. exists []. cbn [queued with_dbClock].
      rewrite Hq, app_nil_r. split; [reflexivity | left; reflexivity]. }
    cbn [queued with_queued with_dbClock].
    exists [WebhookJob (map fst (hook :: hooks))].
    rewrite Hq, <- app_assoc. split; [reflexivity |].
    right. split; [reflexivity |].
    exists (map fst (hook :: hooks)).
    split; [reflexivity |]. split; [discriminate |].
    intros before' Hbefore'. rewrite Hbefore' in Hsingleton.
    injection Hsingleton as ->.
    rewrite Hpotential. apply List.Forall_forall. intros e He.
    apply in_map_iff in He. destruct He as (row & <- & Hrow).
    apply List.filter_In in Hrow. destruct Hrow as [_ Hrow].
    apply Z.leb_le in Hrow. exact Hrow. }
  intros _. destruct (last (sortByHeight events)) as [lastEvent |].
  2: { apply hoare_throw. intros w0 Hw0. exact (HanyC _ w0 Hw0). }
  apply (hoare_same queued IC);
    [| intros r w0 Hw0; exact (HanyC r w0 Hw0)].
  apply sw_bind; try apply sameOn_trans;
    [footprint sw_State_updateSingleton | intros _; footprint sw_ret].
Qed.

(** ** What reaches the transformers *)

Lemma hoare_bind_any {A B : Type} (P : World -> Prop)
    (Q : result B -> World -> Prop) (m : M World A) (k : A -> M World B) :
  (forall message w, Q (Throw message) w) ->
  (forall a, hoare (fun _ => True) (k a) Q) ->
  hoare P (bind m k) Q.
Proof.
  intros Hthrow Hk.
  apply (hoare_bind _ (fun _ _ => True)); [| exact Hk].
  intros w _. destruct (m w) as [[a | message] w1]; cbn; [exact I |].
  apply Hthrow.
Qed.



(** ** Contracts that need no lookup *)

Lemma filter_none_when_positive (found : list Contract) :
  Forall (fun row => 0 < codeId row) found ->
  List.filter (fun contract => codeId contract <=? 0) found = [].
Proof.
  induction 1 as [| row rest Hrow _ IH]; cbn [List.filter]; [reflexivity |].
  destruct (Z.leb_spec (codeId row) 0); [lia | exact IH].
Qed.

(** When every contract of the batch already has a row with a code ID
    above zero, [exportContractsAndEvents] does not consult the resolver:
    the cache is not read, the node is not asked and nothing is reported,
    whether the export returns or throws. *)
Theorem known_contracts_need_no_lookup (cfg : Config) (svc : Services)
    (addresses : list string) (w : World) :
  (forall a, In a addresses ->
     exists row, contracts w !! a = Some row /\ 0 < codeId row) ->
  resolver (exportContractsAndEvents cfg svc addresses w).2 = resolver w.
Proof.
  intros Hknown.
  set (I := fun w0 : World =>
         resolver w0 = resolver w
         /\ forall a, In a addresses ->
              exists row, contracts w0 !! a = Some row /\ 0 < codeId row).
  set (Q := fun (r : result (list Contract * list StateEventData))
                (w' : World) => resolver w' = resolver w).
  enough (H : hoare I (exportContractsAndEvents cfg svc addresses) Q)
    by (apply H; split; [reflexivity | exact Hknown]).
  unfold exportContractsAndEvents.
  apply (hoare_bind _ (fun _ w0 => I w0)).
  { intros w0 [Hres Hrows].
    unfold ensureContractsExist, Contract_bulkCreate, dbCall.
    cbv [bind gets ret modify throw].
    destruct (contractsForAddresses (stateEvents w0) addresses) as [rows |];
      [| exact Hres].
    destruct (dbFault svc (dbClock w0)); cbn [fst snd]; [exact Hres |].
    split; [exact Hres |]. intros a Ha.
    destruct (Hrows a Ha) as (row & Hrow & Hpos).
    exists row. split; [| exact Hpos].
    cbn [contracts with_contracts with_dbClock].
    exact (upsert_ignore_keeps rows (contracts w0) a row Hrow). }
  intros _.
  apply (hoare_bind _ (fun found w0 =>
           Forall (fun row => 0 < codeId row) found
           /\ resolver w0 = resolver w)).
  { intros w0 [Hres Hrows]. unfold Contract_findAll, dbCall.
    cbv [bind gets]. destruct (dbFault svc (dbClock w0)); cbn [fst snd];
      [exact Hres |].
    split; [| exact Hres]. apply List.Forall_forall. intros row Hin.
    apply list_elem_of_In, list_elem_of_omap in Hin.
    destruct Hin as (a & Ha & Hlookup).
    destruct (Hrows a (proj1 (list_elem_of_In _ _) Ha))
      as (row' & Hrow' & Hpos).
    cbn [contracts with_dbClock] in Hlookup. congruence. }
  intros found. apply hoare_pure. intros Hpositive. cbv zeta.
  rewrite (filter_none_when_positive found Hpositive).
  apply (hoare_same resolver (fun x => x = resolver w));
    [| intros r w0 Hw0; exact Hw0].
  apply sw_bind; try apply sameOn_trans; [footprint sw_ret | intros found'].
  apply sw_bind; try apply sameOn_trans;
    [apply sw_modify; exact (fun w0 => eq_refl) | intros _].
  apply sw_bind; try apply sameOn_trans; [footprint sw_gets | intros kept].
  apply sw_bind; try apply sameOn_trans;
    [footprint sw_WasmStateEvent_bulkCreate | intros exported].
  footprint sw_ret.
Qed.

Lemma known_contracts_need_no_lookup_witness :
  resolver (exportContractsAndEvents standardConfig demoServices
              ["xion1abc"] worldWithKnownContract).2 = emptyResolver.
Proof.
  apply (known_contracts_need_no_lookup standardConfig demoServices
           ["xion1abc"] worldWithKnownContract).
  intros a [<- | []]. eexists. split; [reflexivity | reflexivity].
Defined.

(** ** The event sink *)

Section EventSink.

Variable svc : Services.

Lemma WasmStateEvent_bulkCreate_run (events : list StateEventData)
    (w : World) :
  WasmStateEvent_bulkCreate svc events w =
    if dbFault svc (dbClock w)
    then (Throw (errorObject "WasmStateEvent.bulkCreate" (dbFaultFinal svc (dbClock w))),
          with_dbClock S w)
    else (Ok events,
          with_wasmStateEvents
            (fun table => foldl upsertStateEvent table events)
            (with_dbClock S w)).
Proof.
  unfold WasmStateEvent_bulkCreate, dbCall. cbv [bind modify ret].
  destruct (dbFault svc (dbClock w)); reflexivity.
Qed.

Lemma upsertStateEvent_at (table : gmap (Z * string * string) StateEventData)
    (e : StateEventData) :
  exists row,
    upsertStateEvent table e !! stateEventKey e = Some row
    /\ sameValue row e.
Proof.
  unfold upsertStateEvent.
  destruct (table !! stateEventKey e) as [old |];
    rewrite lookup_insert_eq; eexists; split; try reflexivity;
    repeat split.
Qed.

Lemma upsertStateEvent_other
    (table : gmap (Z * string * string) StateEventData)
    (e : StateEventData) (k : Z * string * string) :
  k <> stateEventKey e -> upsertStateEvent table e !! k = table !! k.
Proof.
  intros Hne. unfold upsertStateEvent.
  destruct (table !! stateEventKey e) as [old |];
    apply lookup_insert_ne; congruence.
Qed.

Lemma upsertStateEvents_other (events : list StateEventData)
    (table : gmap (Z * string * string) StateEventData)
    (k : Z * string * string) :
  ~ In k (map stateEventKey events) ->
  foldl upsertStateEvent table events !! k = table !! k.
Proof.
  revert table. induction events as [| e rest IH]; intros table Hout;
    cbn [foldl]; [reflexivity |].
  cbn [map In] in Hout.
  rewrite IH by tauto. apply upsertStateEvent_other. intros ->. tauto.
Qed.

Lemma upsertStateEvents_some (events : list StateEventData)
    (table : gmap (Z * string * string) StateEventData)
    (k : Z * string * string) :
  is_Some (table !! k) ->
  is_Some (foldl upsertStateEvent table events !! k).
Proof.
  revert table. induction events as [| e rest IH]; intros table Hsome;
    cbn [foldl]; [exact Hsome |].
  apply IH. destruct (decide (k = stateEventKey e)) as [-> | Hne].
  - destruct (upsertStateEvent_at table e) as (row & -> & _). eauto.
  - rewrite upsertStateEvent_other by exact Hne. exact Hsome.
Qed.

Lemma upsertStateEvents_stored (events : list StateEventData)
    (table : gmap (Z * string * string) StateEventData)
    (e : StateEventData) :
  In e events ->
  is_Some (foldl upsertStateEvent table events !! stateEventKey e).
Proof.
  revert table. induction events as [| x rest IH]; intros table Hin;
    [destruct Hin |].
  cbn [foldl]. destruct Hin as [-> | Hin]; [| exact (IH _ Hin)].
  apply upsertStateEvents_some.
  destruct (upsertStateEvent_at table e) as (row & -> & _). eauto.
Qed.

Lemma upsertStateEvents_at (events : list StateEventData)
    (table : gmap (Z * string * string) StateEventData)
    (e : StateEventData) :
  NoDup (map stateEventKey events) ->
  In e events ->
  exists row,
    foldl upsertStateEvent table events !! stateEventKey e = Some row
    /\ sameValue row e.
Proof.
  revert table. induction events as [| x rest IH]; intros table Hnd Hin;
    [destruct Hin |].
  cbn [map] in Hnd. apply NoDup_cons in Hnd. destruct Hnd as [Hnew Hnd].
  cbn [foldl]. destruct Hin as [-> | Hin]; [| exact (IH _ Hnd Hin)].
  rewrite upsertStateEvents_other
    by (rewrite <- list_elem_of_In; exact Hnew).
  apply upsertStateEvent_at.
Qed.

Lemma upsertStateEvent_same
    (table : gmap (Z * string * string) StateEventData)
    (e row : StateEventData) :
  table !! stateEventKey e = Some row -> sameValue row e ->
  upsertStateEvent table e = table.
Proof.
  intros Hrow (Hvalue & Hjson & Hdelete). unfold upsertStateEvent.
  rewrite Hrow. apply insert_id. rewrite Hrow. f_equal.
  destruct row. cbn in *. congruence.
Qed.

Lemma upsertStateEvents_same (events : list StateEventData)
    (table : gmap (Z * string * string) StateEventData) :
  (forall e, In e events ->
     exists row, table !! stateEventKey e = Some row /\ sameValue row e) ->
  foldl upsertStateEvent table events = table.
Proof.
  induction events as [| x rest IH]; intros Hall; cbn [foldl];
    [reflexivity |].
  destruct (Hall x (or_introl eq_refl)) as (row & Hrow & Hsame).
  rewrite (upsertStateEvent_same table x row Hrow Hsame).
  apply IH. intros e He. apply Hall. right. exact He.
Qed.

(** Insert and lookup of the event sink. After a bulk insert that the
    database accepts, of events with pairwise distinct (height, address,
    key), every event has a row under its key with its value, parsed JSON
    and delete flag, and rows under other keys are what they were. *)
Theorem event_upsert_stores (events : list StateEventData) (w : World) :
  NoDup (map stateEventKey events) ->
  dbFault svc (dbClock w) = false ->
  (WasmStateEvent_bulkCreate svc events w).1 = Ok events
  /\ (forall e, In e events ->
        exists row,
          wasmStateEvents (WasmStateEvent_bulkCreate svc events w).2
            !! stateEventKey e = Some row
          /\ se_value row = se_value e
          /\ se_valueJson row = se_valueJson e
          /\ se_delete row = se_delete e)
  /\ (forall k, ~ In k (map stateEventKey events) ->
        wasmStateEvents (WasmStateEvent_bulkCreate svc events w).2 !! k
        = wasmStateEvents w !! k).
Proof.
  intros Hnd Hdb. rewrite WasmStateEvent_bulkCreate_run, Hdb.
  cbn [fst snd wasmStateEvents with_wasmStateEvents with_dbClock].
  split; [reflexivity |]. split.
  - intros e He. exact (upsertStateEvents_at events _ e Hnd He).
  - intros k Hk. exact (upsertStateEvents_other events _ k Hk).
Qed.

(** Exporting the same events again changes nothing: a second bulk insert
    of a list with pairwise distinct keys, after one that the database
    accepted, leaves the table of state events as it is. *)
Theorem event_upsert_is_idempotent (events : list StateEventData)
    (w : World) :
  NoDup (map stateEventKey events) ->
  dbFault svc (dbClock w) = false ->
  wasmStateEvents
    (WasmStateEvent_bulkCreate svc events
       (WasmStateEvent_bulkCreate svc events w).2).2
  = wasmStateEvents (WasmStateEvent_bulkCreate svc events w).2.
Proof.
  intros Hnd Hdb. rewrite (WasmStateEvent_bulkCreate_run events w), Hdb.
  cbn [snd]. set (w1 := with_wasmStateEvents _ _).
  rewrite (WasmStateEvent_bulkCreate_run events w1).
  destruct (dbFault svc (dbClock w1)); [reflexivity |].
  subst w1. cbn [snd wasmStateEvents with_wasmStateEvents with_dbClock].
  apply upsertStateEvents_same. intros e He.
  exact (upsertStateEvents_at events _ e Hnd He).
Qed.

End EventSink.

Lemma event_upsert_stores_witness :
  (WasmStateEvent_bulkCreate demoServices (stateEventsOf sortedBatch)
     (emptyWorld None)).1 = Ok (stateEventsOf sortedBatch)
  /\ (forall e, In e (stateEventsOf sortedBatch) ->
        exists row,
          wasmStateEvents
            (WasmStateEvent_bulkCreate demoServices
               (stateEventsOf sortedBatch) (emptyWorld None)).2
            !! stateEventKey e = Some row
          /\ se_value row = se_value e
          /\ se_valueJson row = se_valueJson e
          /\ se_delete row = se_delete e)
  /\ (forall k, ~ In k (map stateEventKey (stateEventsOf sortedBatch)) ->
        wasmStateEvents
          (WasmStateEvent_bulkCreate demoServices
             (stateEventsOf sortedBatch) (emptyWorld None)).2 !! k
        = wasmStateEvents (emptyWorld None) !! k).
Proof.
  apply (event_upsert_stores demoServices (stateEventsOf sortedBatch)
           (emptyWorld None)).
  - apply (bool_decide_unpack _). vm_compute. reflexivity.
  - reflexivity.
Defined.

Lemma event_upsert_is_idempotent_witness :
  wasmStateEvents
    (WasmStateEvent_bulkCreate demoServices (stateEventsOf unsortedBatch)
       (WasmStateEvent_bulkCreate demoServices
          (stateEventsOf unsortedBatch) (emptyWorld None)).2).2
  = wasmStateEvents
      (WasmStateEvent_bulkCreate demoServices
         (stateEventsOf unsortedBatch) (emptyWorld None)).2.
Proof.
  apply (event_upsert_is_idempotent demoServices
           (stateEventsOf unsortedBatch) (emptyWorld None)).
  - apply (bool_decide_unpack _). vm_compute. reflexivity.
  - reflexivity.
Defined.

(** ** What a run returns *)

Lemma attachContracts_items {A : Type} (svc : Services)
    (addressOf : A -> string) (items : list A) (found : list Contract) :
  hoare (fun _ => True) (attachContracts svc addressOf found items)
    (fun r _ =>
       match r with
       | Ok joined => map fst joined.2 = items
       | Throw _ => True
       end).
Proof.
  revert found. induction items as [| item rest IH]; intros found;
    cbn [attachContracts].
  - apply hoare_ret. reflexivity.
  - apply hoare_bind_any; [exact (fun _ _ => I) | intros hit].
    apply (hoare_bind _ (fun done _ => map fst done.2 = rest));
      [exact (IH hit.1) |].
    intros done. apply hoare_ret. intros w Hdone. cbn. f_equal. exact Hdone.
Qed.

(** One attempt of the export, on the parsed events of a batch: what it
    returns was parsed from the batch and has a row. *)
Lemma exportContractsAndEvents_stores (cfg : Config) (svc : Services)
    (batch : list StateEventData) (addresses : list string) :
  hoare (fun w => forall e, In e (stateEvents w) -> In e batch)
    (exportContractsAndEvents cfg svc addresses)
    (fun r w =>
       match r with
       | Ok exported =>
         forall e, In e exported.2 ->
           In e batch /\ is_Some (wasmStateEvents w !! stateEventKey e)
       | Throw _ => forall e, In e (stateEvents w) -> In e batch
       end).
Proof.
  set (J := fun x : list StateEventData => forall e, In e x -> In e batch).
  unfold exportContractsAndEvents.
  apply (hoare_bind_same stateEvents J);
    [footprint sw_ensureContractsExist | intros message w Hw; exact Hw |].
  intros _.
  apply (hoare_bind_same stateEvents J);
    [footprint sw_Contract_findAll | intros message w Hw; exact Hw |].
  intros found. cbv zeta.
  apply (hoare_bind_same stateEvents J);
    [footprint sw_codeIdBackfill | intros message w Hw; exact Hw |].
  intros found'.
  apply (hoare_bind _ (fun _ w => J (stateEvents w))).
  { intros w Hw e He. cbn in He. apply Hw.
    unfold filterStateEvents in He.
    destruct (allowlist cfg svc) as [[| rule rules] |];
      [exact He | | exact He].
    apply List.filter_In in He. exact (proj1 He). }
  intros _.
  apply (hoare_bind _ (fun kept w => J kept /\ J (stateEvents w))).
  { intros w Hw. split; exact Hw. }
  intros kept. apply hoare_pure. intros Hkept.
  apply (hoare_bind _ (fun exported w =>
           forall e, In e exported ->
             In e batch /\ is_Some (wasmStateEvents w !! stateEventKey e))).
  { intros w Hw. rewrite WasmStateEvent_bulkCreate_run.
    destruct (dbFault svc (dbClock w)); cbn [fst snd]; [exact Hw |].
    intros e He. split; [exact (Hkept e He) |].
    exact (upsertStateEvents_stored kept _ e He). }
  intros exported. apply hoare_ret. intros w Hw. exact Hw.
Qed.

(** Every state event that a run of [process] returns was parsed from the
    batch, has its contract attached and has a row in the table of state
    events under its block height, contract address and key. *)
Theorem process_returns_stored_events (cfg : Config) (svc : Services)
    (events : list Event) (w : World) (created : list CreatedEvent) :
  (process cfg svc events w).1 = Ok created ->
  forall e c, In (CreatedStateEvent e c) created ->
    In e (stateEventsOf events)
    /\ is_Some c
    /\ is_Some (wasmStateEvents (process cfg svc events w).2
                  !! stateEventKey e).
Proof.
  enough (H : forall batch, batch = stateEventsOf events ->
            hoare (fun _ => True) (process cfg svc events)
              (fun r w' =>
                 match r with
                 | Ok created' =>
                   forall e c, In (CreatedStateEvent e c) created' ->
                     In e batch
                     /\ is_Some c
                     /\ is_Some (wasmStateEvents w' !! stateEventKey e)
                 | Throw _ => True
                 end)).
  { intros Hok. specialize (H _ eq_refl w I). cbn beta in H.
    rewrite Hok in H. exact H. }
  intros batch Hb.
  set (Q := fun (r : result (list CreatedEvent)) (w' : World) =>
         match r with
         | Ok created' =>
           forall e c, In (CreatedStateEvent e c) created' ->
             In e batch
             /\ is_Some c
             /\ is_Some (wasmStateEvents w' !! stateEventKey e)
         | Throw _ => True
         end).
  assert (Hthrow : forall message w0, Q (Throw message) w0)
    by (intros message w0; exact I).
  unfold process. cbv zeta.
  apply hoare_bind_any; [exact Hthrow | intros _].
  apply hoare_bind_any; [exact Hthrow | intros _].
  apply (hoare_bind _ (fun _ w0 => stateEvents w0 = stateEventsOf events)).
  { intros w0 _. reflexivity. }
  intros _.
  apply (hoare_bind_same stateEvents (fun x => x = stateEventsOf events)).
  { destruct (contractEventsOf events); [footprint sw_ret |].
    apply sw_modify. exact (fun w0 => eq_refl). }
  { intros message w0 _. apply Hthrow. }
  intros _. destruct (stateEventsOf events) as [| e0 rest0] eqn:Hbatch.
  { apply hoare_ret. intros w0 _ e c []. }
  rewrite <- Hbatch.
  apply (hoare_bind_same stateEvents (fun x => x = stateEventsOf events));
    [footprint sw_State_getSingleton | intros message w0 _; apply Hthrow |].
  intros [before |].
  2: { apply hoare_throw. intros w0 _. apply Hthrow. }
  set (K := fun (l : list StateEventData)
                (table : gmap (Z * string * string) StateEventData) =>
              forall e, In e l ->
                In e batch /\ is_Some (table !! stateEventKey e)).
  apply (hoare_bind _ (fun exported w0 =>
           K exported.2 (wasmStateEvents w0))).
  { intros w0 Hw0. unfold retry.
    apply (hoare_attempts
             (fun w1 => forall e, In e (stateEvents w1) -> In e batch)).
    - apply exportContractsAndEvents_stores.
    - intros message w1 _. apply Hthrow.
    - rewrite Hw0, Hb, Hbatch. auto. }
  intros exported.
  apply (hoare_bind _ (fun joined w0 =>
           map fst joined.2 = exported.2
           /\ K exported.2 (wasmStateEvents w0))).
  { intros w0 Hw0.
    pose proof (attachContracts_items svc se_contractAddress exported.2
                  exported.1 w0 I) as Hitems.
    assert (Hsame : stepwise (sameOn wasmStateEvents)
                      (attachContracts svc se_contractAddress exported.1
                         exported.2))
      by footprint sw_attachContracts.
    specialize (Hsame w0). unfold sameOn in Hsame.
    destruct (attachContracts svc se_contractAddress exported.1 exported.2
                w0) as [[joined | message] w1]; cbn [fst snd] in *;
      [| exact I].
    split; [exact Hitems | rewrite Hsame; exact Hw0]. }
  intros joined. apply hoare_pure. intros Hitems.
  assert (Hend : forall created' w0,
             K exported.2 (wasmStateEvents w0) ->
             (forall e c, In (CreatedStateEvent e c) created' ->
                In (e, c)
                  (List.filter (fun row => bool_decide (is_Some row.2))
                     joined.2)) ->
             Q (Ok created') w0).
  { intros created' w0 Hw0 Hcreated e c Hin.
    apply Hcreated in Hin. apply List.filter_In in Hin.
    destruct Hin as [Hin Hsome]. cbn [snd] in Hsome.
    apply bool_decide_eq_true in Hsome.
    assert (He : In e exported.2).
    { rewrite <- Hitems. apply List.in_map_iff. exists (e, c). auto. }
    destruct (Hw0 e He) as [Hfrom Hrow]. auto. }
  assert (Hany : forall message w0,
             K exported.2 (wasmStateEvents w0) -> Q (Throw message) w0)
    by (intros message w0 _; exact I).
  apply (hoare_bind_same wasmStateEvents (K exported.2));
    [apply sw_modify; exact (fun w0 => eq_refl) | exact Hany |].
  intros _.
  apply (hoare_bind_same wasmStateEvents (K exported.2));
    [apply sw_modify; exact (fun w0 => eq_refl) | exact Hany |].
  intros _.
  apply (hoare_bind_same wasmStateEvents (K exported.2));
    [footprint sw_gets | exact Hany |].
  intros parsed.
  apply (hoare_bind_same wasmStateEvents (K exported.2));
    [footprint_retry sw_runTransformers | exact Hany |].
  intros transformed.
  apply (hoare_bind_same wasmStateEvents (K exported.2));
    [footprint sw_attachContracts | exact Hany |].
  intros joinedT.
  apply (hoare_bind_same wasmStateEvents (K exported.2));
    [footprint sw_queueWebhooks | exact Hany |].
  intros _. destruct (last (sortByHeight events)) as [lastEvent |].
  2: { apply hoare_throw. intros w0 _. exact I. }
  apply (hoare_bind_same wasmStateEvents (K exported.2));
    [footprint sw_State_updateSingleton | exact Hany |].
  intros _. apply hoare_ret. intros w0 Hw0. apply (Hend _ w0 Hw0).
  intros e c Hin. apply List.in_app_or in Hin. destruct Hin as [Hin | Hin].
  - apply List.in_map_iff in Hin. destruct Hin as ([e' c'] & Heq & Hin).
    cbn [fst snd] in Heq. injection Heq as -> ->. exact Hin.
  - apply List.in_map_iff in Hin. destruct Hin as (row & Heq & _).
    discriminate Heq.
Qed.

Lemma process_returns_stored_events_witness :
  In (stateEventAt 99 "xion1abc" "1") (stateEventsOf mixedBatch)
  /\ is_Some (Some (contractOfEvent
                      {| ce_address := "xion1abc"; ce_codeId := 42;
                         ce_admin := "a"; ce_creator := "c";
                         ce_label := "L"; ce_blockHeight := 100;
                         ce_blockTimeUnixMs := 1700000000000 |}))
  /\ is_Some (wasmStateEvents
                (process standardConfig demoServices mixedBatch
                   (emptyWorld (Some exportedAt50))).2
                !! stateEventKey (stateEventAt 99 "xion1abc" "1")).
Proof.
  eapply (process_returns_stored_events standardConfig demoServices
            mixedBatch (emptyWorld (Some exportedAt50))).
  - vm_compute. reflexivity.
  - left. reflexivity.
Defined.

(** ** Chains without an allowlist *)

Lemma hoare_weaken {A : Type} (P : World -> Prop)
    (Q Q' : result A -> World -> Prop) (m : M World A) :
  hoare P m Q -> (forall r w, Q r w -> Q' r w) -> hoare P m Q'.
Proof. intros Hm HQ w Hw. apply HQ. exact (Hm w Hw). Qed.

Lemma allowlist_unlisted (cfg : Config) (svc : Services) :
  chainId cfg <> "kaiyo-1" -> chainId cfg <> "osmosis-1" ->
  allowlist cfg svc = None.
Proof.
  intros Hkaiyo Hosmosis.
  unfold allowlist, stateEventAllowlist, CONTRACT_STATE_EVENT_KEY_ALLOWLIST.
  destruct (String.eqb_spec (chainId cfg) "kaiyo-1"); [contradiction |].
  destruct (String.eqb_spec (chainId cfg) "osmosis-1"); [contradiction |].
  destruct (includesString (chainId cfg) inheritedProperties); reflexivity.
Qed.

(** One attempt of the export where no allowlist applies: the parsed
    events stay as they are and each of them gets a row. *)
Lemma exportContractsAndEvents_keeps_all (cfg : Config) (svc : Services)
    (batch : list StateEventData) (addresses : list string) :
  allowlist cfg svc = None ->
  hoare (fun w => stateEvents w = batch)
    (exportContractsAndEvents cfg svc addresses)
    (fun r w =>
       match r with
       | Ok exported =>
         exported.2 = batch
         /\ forall e, In e batch ->
              is_Some (wasmStateEvents w !! stateEventKey e)
       | Throw _ => stateEvents w = batch
       end).
Proof.
  intros Hnone. set (J := fun x : list StateEventData => x = batch).
  unfold exportContractsAndEvents.
  apply (hoare_bind_same stateEvents J);
    [footprint sw_ensureContractsExist | intros message w Hw; exact Hw |].
  intros _.
  apply (hoare_bind_same stateEvents J);
    [footprint sw_Contract_findAll | intros message w Hw; exact Hw |].
  intros found. cbv zeta.
  apply (hoare_bind_same stateEvents J);
    [footprint sw_codeIdBackfill | intros message w Hw; exact Hw |].
  intros found'. rewrite Hnone.
  apply (hoare_bind _ (fun _ w => J (stateEvents w))).
  { intros w Hw. exact Hw. }
  intros _.
  apply (hoare_bind _ (fun kept w => kept = batch /\ J (stateEvents w))).
  { intros w Hw. split; exact Hw. }
  intros kept. apply hoare_pure. intros ->.
  apply (hoare_bind _ (fun exported w =>
           exported = batch
           /\ forall e, In e batch ->
                is_Some (wasmStateEvents w !! stateEventKey e))).
  { intros w Hw. rewrite WasmStateEvent_bulkCreate_run.
    destruct (dbFault svc (dbClock w)); cbn [fst snd]; [exact Hw |].
    split; [reflexivity |]. intros e He.
    exact (upsertStateEvents_stored batch _ e He). }
  intros exported. apply hoare_ret. intros w Hw. exact Hw.
Qed.

(** On a chain that the allowlist table does not list, which is every
    chain but [kaiyo-1] and [osmosis-1], no state event is held back: when
    a run of [process] returns, every state event of the batch has a row
    in the table of state events under its block height, contract address
    and key. *)
Theorem process_stores_every_event_off_allowlist (cfg : Config)
    (svc : Services) (events : list Event) (w : World)
    (created : list CreatedEvent) :
  chainId cfg <> "kaiyo-1" -> chainId cfg <> "osmosis-1" ->
  (process cfg svc events w).1 = Ok created ->
  forall e, In e (stateEventsOf events) ->
    is_Some (wasmStateEvents (process cfg svc events w).2
               !! stateEventKey e).
Proof.
  intros Hkaiyo Hosmosis.
  pose proof (allowlist_unlisted cfg svc Hkaiyo Hosmosis) as Hnone.
  enough (H : forall batch, batch = stateEventsOf events ->
            hoare (fun _ => True) (process cfg svc events)
              (fun r w' =>
                 match r with
                 | Ok _ =>
                   forall e, In e batch ->
                     is_Some (wasmStateEvents w' !! stateEventKey e)
                 | Throw _ => True
                 end)).
  { intros Hok. specialize (H _ eq_refl w I). cbn beta in H.
    rewrite Hok in H. exact H. }
  intros batch Hb.
  set (K := fun table : gmap (Z * string * string) StateEventData =>
              forall e, In e batch -> is_Some (table !! stateEventKey e)).
  set (Q := fun (r : result (list CreatedEvent)) (w' : World) =>
         match r with
         | Ok _ => K (wasmStateEvents w')
         | Throw _ => True
         end).
  assert (Hthrow : forall message w0, Q (Throw message) w0)
    by (intros message w0; exact I).
  change (hoare (fun _ => True) (process cfg svc events) Q).
  unfold process. cbv zeta.
  apply hoare_bind_any; [exact Hthrow | intros _].
  apply hoare_bind_any; [exact Hthrow | intros _].
  apply (hoare_bind _ (fun _ w0 => stateEvents w0 = stateEventsOf events)).
  { intros w0 _. reflexivity. }
  intros _.
  apply (hoare_bind_same stateEvents (fun x => x = stateEventsOf events)).
  { destruct (contractEventsOf events); [footprint sw_ret |].
    apply sw_modify. exact (fun w0 => eq_refl). }
  { intros message w0 _. apply Hthrow. }
  intros _. destruct (stateEventsOf events) as [| e0 rest0] eqn:Hbatch.
  { apply hoare_ret. intros w0 _ e He. rewrite Hb in He. destruct He. }
  rewrite <- Hbatch.
  apply (hoare_bind_same stateEvents (fun x => x = stateEventsOf events));
    [footprint sw_State_getSingleton | intros message w0 _; apply Hthrow |].
  intros [before |].
  2: { apply hoare_throw. intros w0 _. apply Hthrow. }
  apply (hoare_bind _ (fun _ w0 => K (wasmStateEvents w0))).
  { intros w0 Hw0. unfold retry.
    apply (hoare_attempts (fun w1 => stateEvents w1 = batch)
             (fun r w1 =>
                match r with
                | Ok _ => K (wasmStateEvents w1)
                | Throw message => Q (Throw message) w1
                end)).
    - eapply hoare_weaken;
        [apply exportContractsAndEvents_keeps_all; exact Hnone |].
      intros [exported | message] w1 Hrun;
        [exact (proj2 Hrun) | exact Hrun].
    - intros message w1 _. exact I.
    - rewrite Hw0, Hb, Hbatch. reflexivity. }
  intros exported.
  assert (Hany : forall message w0,
             K (wasmStateEvents w0) -> Q (Throw message) w0)
    by (intros message w0 _; exact I).
  apply (hoare_bind_same wasmStateEvents K);
    [footprint sw_attachContracts | exact Hany |].
  intros joined.
  apply (hoare_bind_same wasmStateEvents K);
    [apply sw_modify; exact (fun w0 => eq_refl) | exact Hany |].
  intros _.
  apply (hoare_bind_same wasmStateEvents K);
    [apply sw_modify; exact (fun w0 => eq_refl) | exact Hany |].
  intros _.
  apply (hoare_bind_same wasmStateEvents K);
    [footprint sw_gets | exact Hany |].
  intros parsed.
  apply (hoare_bind_same wasmStateEvents K);
    [footprint_retry sw_runTransformers | exact Hany |].
  intros transformed.
  apply (hoare_bind_same wasmStateEvents K);
    [footprint sw_attachContracts | exact Hany |].
  intros joinedT.
  apply (hoare_bind_same wasmStateEvents K);
    [footprint sw_queueWebhooks | exact Hany |].
  intros _. destruct (last (sortByHeight events)) as [lastEvent |].
  2: { apply hoare_throw. intros w0 _. exact I. }
  apply (hoare_bind_same wasmStateEvents K);
    [footprint sw_State_updateSingleton | exact Hany |].
  intros _. apply hoare_ret. intros w0 Hw0. exact Hw0.
Qed.

Lemma process_stores_every_event_off_allowlist_witness :
  is_Some (wasmStateEvents
             (process standardConfig demoServices sortedBatch
                (emptyWorld (Some exportedAt50))).2
             !! stateEventKey (stateEventAt 105 "xion1abc" "1")).
Proof.
  eapply (process_stores_every_event_off_allowlist standardConfig
            demoServices sortedBatch (emptyWorld (Some exportedAt50))).
  - discriminate.
  - discriminate.
  - vm_compute. reflexivity.
  - right. left. reflexivity.
Defined.

(** ** The block sink *)

Lemma NoDup_unique {A : Type} `{EqDecision A} (l : list A) :
  NoDup (unique l).
Proof.
  induction l as [| x rest IH]; cbn [unique]; [apply NoDup_nil_2 |].
  apply NoDup_cons. split.
  - rewrite list_elem_of_filter. intros [Hne _]. exact (Hne eq_refl).
  - apply NoDup_filter. exact IH.
Qed.

Lemma find_height (events : list Event) (h : Z) :
  In h (map event_blockHeight events) ->
  exists e,
    List.find (fun x => event_blockHeight x =? h) events = Some e.
Proof.
  intros Hin. apply List.in_map_iff in Hin. destruct Hin as (x & Hx & Hin).
  destruct (List.find (fun x => event_blockHeight x =? h) events)
    as [e |] eqn:Hfind; [eauto |].
  pose proof (List.find_none _ _ Hfind x Hin) as Hno. cbn beta in Hno.
  rewrite Hx, Z.eqb_refl in Hno. discriminate Hno.
Qed.

Lemma blockRows_heights (events : list Event) (heights : list Z) :
  (forall h, In h heights -> In h (map event_blockHeight events)) ->
  map fst
    (omap (fun height =>
             match List.find (fun e => event_blockHeight e =? height) events
             with
             | Some e => Some (height, event_blockTimeUnixMs e)
             | None => None
             end) heights)
  = heights.
Proof.
  induction heights as [| h rest IH]; intros Hall; [reflexivity |].
  cbn [omap list_omap].
  destruct (find_height events h (Hall h (or_introl eq_refl))) as [e ->].
  cbn [map fst]. f_equal. apply IH. intros h' Hh'. apply Hall. right.
  exact Hh'.
Qed.

Lemma blockRows_fst (events : list Event) :
  map fst (blockRows events) = unique (map event_blockHeight events).
Proof.
  unfold blockRows. apply blockRows_heights. intros h Hh.
  exact (proj1 (In_unique h _) Hh).
Qed.

Lemma blockRows_time (events : list Event) (h t : Z) :
  In (h, t) (blockRows events) ->
  exists e,
    List.find (fun x => event_blockHeight x =? h) events = Some e
    /\ event_blockHeight e = h
    /\ t = event_blockTimeUnixMs e.
Proof.
  intros Hin. unfold blockRows in Hin.
  apply list_elem_of_In, list_elem_of_omap in Hin.
  destruct Hin as (h' & _ & Hrow).
  destruct (List.find (fun e => event_blockHeight e =? h') events)
    as [e |] eqn:Hfind; [| discriminate Hrow].
  injection Hrow as <- <-. exists e. split; [exact Hfind |].
  split; [| reflexivity].
  apply List.find_some in Hfind. destruct Hfind as [_ Heq].
  apply Z.eqb_eq in Heq. exact Heq.
Qed.

(** The rows handed to [Block.createMany]: the non-null assertion on
    [events.find] never fails, so there is exactly one row for each block
    height of the batch, and its time is the time of the first event of
    the batch at that height. *)
Theorem blockRows_one_per_height (events : list Event) :
  NoDup (map fst (blockRows events))
  /\ (forall e, In e events ->
        In (event_blockHeight e) (map fst (blockRows events)))
  /\ (forall h t, In (h, t) (blockRows events) ->
        exists e,
          List.find (fun x => event_blockHeight x =? h) events = Some e
          /\ event_blockHeight e = h
          /\ t = event_blockTimeUnixMs e).
Proof.
  split; [rewrite blockRows_fst; apply NoDup_unique |]. split.
  - intros e He. rewrite blockRows_fst. apply In_unique.
    apply List.in_map. exact He.
  - apply blockRows_time.
Qed.

Lemma Block_createMany_run (svc : Services) (rows : list (Z * Z))
    (w : World) :
  Block_createMany svc rows w =
    if dbFault svc (dbClock w)
    then (Throw (errorObject "Block.createMany" (dbFaultFinal svc (dbClock w))),
          with_dbClock S w)
    else (Ok tt,
          with_blocks (fun table => foldl insertBlock table rows)
            (with_dbClock S w)).
Proof.
  unfold Block_createMany, dbCall. cbv [bind modify].
  destruct (dbFault svc (dbClock w)); reflexivity.
Qed.

Lemma insertBlocks_kept (rows : list (Z * Z)) (table : gmap Z Z)
    (h t : Z) :
  table !! h = Some t -> foldl insertBlock table rows !! h = Some t.
Proof.
  revert table. induction rows as [| row rest IH]; intros table Hrow;
    cbn [foldl]; [exact Hrow |].
  apply IH. unfold insertBlock.
  destruct (table !! row.1) eqn:Hold; [exact Hrow |].
  rewrite lookup_insert_ne; [exact Hrow |]. intros Heq.
  rewrite Heq in Hold. congruence.
Qed.

Lemma insertBlocks_new (rows : list (Z * Z)) (table : gmap Z Z)
    (h t : Z) :
  NoDup (map fst rows) -> In (h, t) rows -> table !! h = None ->
  foldl insertBlock table rows !! h = Some t.
Proof.
  revert table. induction rows as [| row rest IH];
    intros table Hnd Hin Hnone; [destruct Hin |].
  cbn [map] in Hnd. apply NoDup_cons in Hnd. destruct Hnd as [Hnew Hnd].
  cbn [foldl]. destruct Hin as [-> | Hin].
  - apply insertBlocks_kept. unfold insertBlock. cbn [fst snd].
    rewrite Hnone. apply lookup_insert_eq.
  - apply (IH _ Hnd Hin). unfold insertBlock.
    assert (Hne : row.1 <> h).
    { intros Heq. apply Hnew. rewrite Heq, list_elem_of_In.
      apply List.in_map_iff. exists (h, t). auto. }
    destruct (table !! row.1); [exact Hnone |].
    rewrite lookup_insert_ne; [exact Hnone | exact Hne].
Qed.

(** When a run of [process] returns, every block height of the batch has
    a block row, whether the event is a contract event or a state event;
    a row that was not there before carries the time of the first event
    of the batch at that height. *)
Theorem process_saves_blocks (cfg : Config) (svc : Services)
    (events : list Event) (w : World) (created : list CreatedEvent) :
  (process cfg svc events w).1 = Ok created ->
  forall e, In e events ->
    exists t,
      blocks (process cfg svc events w).2 !! event_blockHeight e = Some t
      /\ (blocks w !! event_blockHeight e = None ->
          exists first,
            List.find (fun x => event_blockHeight x =? event_blockHeight e)
              events = Some first
            /\ t = event_blockTimeUnixMs first).
Proof.
  set (K := fun table : gmap Z Z =>
         forall e, In e events ->
           exists t,
             table !! event_blockHeight e = Some t
             /\ (blocks w !! event_blockHeight e = None ->
                 exists first,
                   List.find
                     (fun x => event_blockHeight x =? event_blockHeight e)
                     events = Some first
                   /\ t = event_blockTimeUnixMs first)).
  set (Q := fun (r : result (list CreatedEvent)) (w' : World) =>
         match r with
         | Ok _ => K (blocks w')
         | Throw _ => True
         end).
  enough (H : hoare (fun w0 => blocks w0 = blocks w)
                (process cfg svc events) Q).
  { intros Hok. specialize (H w eq_refl). unfold Q in H.
    rewrite Hok in H. exact H. }
  assert (Hany : forall message w0, K (blocks w0) -> Q (Throw message) w0)
    by (intros message w0 _; exact I).
  unfold process. cbv zeta.
  apply (hoare_bind _ (fun _ w0 => K (blocks w0))).
  { intros w0 Hw0. rewrite Block_createMany_run.
    destruct (dbFault svc (dbClock w0)); cbn [fst snd]; [exact I |].
    cbn [blocks with_blocks with_dbClock]. rewrite Hw0.
    assert (Hnd : NoDup (map fst (blockRows events)))
      by (rewrite blockRows_fst; apply NoDup_unique).
    intros e He.
    assert (Hall : In (event_blockHeight e) (map fst (blockRows events))).
    { rewrite blockRows_fst. apply In_unique. apply List.in_map.
      exact He. }
    apply List.in_map_iff in Hall. destruct Hall as ([h t] & Hh & Hin).
    cbn [fst] in Hh. subst h.
    destruct (blockRows_time _ _ _ Hin) as (first & Hfind & _ & Htime).
    destruct (blocks w !! event_blockHeight e) as [t0 |] eqn:Hold.
    - exists t0. split; [| discriminate].
      apply insertBlocks_kept. exact Hold.
    - exists t. split; [| intros _; eauto].
      apply (insertBlocks_new _ _ _ _ Hnd Hin Hold). }
  intros _.
  apply (hoare_bind_same blocks K); [| exact Hany |].
  { destruct (contractEventsOf events);
      [footprint sw_ret | footprint sw_Contract_bulkCreate]. }
  intros _.
  apply (hoare_bind_same blocks K);
    [apply sw_modify; exact (fun w0 => eq_refl) | exact Hany |].
  intros _.
  apply (hoare_bind_same blocks K); [| exact Hany |].
  { destruct (contractEventsOf events); [footprint sw_ret |].
    apply sw_modify. exact (fun w0 => eq_refl). }
  intros _. destruct (stateEventsOf events) as [| e0 rest0].
  { apply hoare_ret. intros w0 Hw0. exact Hw0. }
  apply (hoare_bind_same blocks K);
    [footprint sw_State_getSingleton | exact Hany |].
  intros [before |].
  2: { apply hoare_throw. intros w0 _. exact I. }
  apply (hoare_bind_same blocks K);
    [footprint_retry sw_exportContractsAndEvents | exact Hany |].
  intros exported.
  apply (hoare_bind_same blocks K);
    [footprint sw_attachContracts | exact Hany |].
  intros joined.
  apply (hoare_bind_same blocks K);
    [apply sw_modify; exact (fun w0 => eq_refl) | exact Hany |].
  intros _.
  apply (hoare_bind_same blocks K);
    [apply sw_modify; exact (fun w0 => eq_refl) | exact Hany |].
  intros _.
  apply (hoare_bind_same blocks K); [footprint sw_gets | exact Hany |].
  intros parsed.
  apply (hoare_bind_same blocks K);
    [footprint_retry sw_runTransformers | exact Hany |].
  intros transformed.
  apply (hoare_bind_same blocks K);
    [footprint sw_attachContracts | exact Hany |].
  intros joinedT.
  apply (hoare_bind_same blocks K);
    [footprint sw_queueWebhooks | exact Hany |].
  intros _. destruct (last (sortByHeight events)) as [lastEvent |].
  2: { apply hoare_throw. intros w0 _. exact I. }
  apply (hoare_bind_same blocks K);
    [footprint sw_State_updateSingleton | exact Hany |].
  intros _. apply hoare_ret. intros w0 Hw0. exact Hw0.
Qed.

Lemma process_saves_blocks_witness :
  exists t,
    blocks (process standardConfig demoServices mixedBatch
              (emptyWorld (Some exportedAt50))).2 !! 99 = Some t
    /\ ((∅ : gmap Z Z) !! 99 = None ->
        exists first,
          List.find (fun x => event_blockHeight x =? 99) mixedBatch
            = Some first
          /\ t = event_blockTimeUnixMs first).
Proof.
  exact (process_saves_blocks standardConfig demoServices mixedBatch
           (emptyWorld (Some exportedAt50)) _ eq_refl
           (StateEvent "state:99:xion1abc:1"
              (stateEventAt 99 "xion1abc" "1"))
           (or_introl eq_refl)).
Defined.

(** ** Lifecycle events across a run *)

Lemma hoare_bind_kept {A B : Type} (R : World -> World -> Prop)
    (J : World -> Prop) (Q : result B -> World -> Prop)
    (m : M World A) (k : A -> M World B) :
  stepwise R m ->
  (forall w w', R w w' -> J w -> J w') ->
  (forall message w, J w -> Q (Throw message) w) ->
  (forall a, hoare J (k a) Q) ->
  hoare J (bind m k) Q.
Proof.
  intros Hm HR Hthrow Hk.
  apply (hoare_bind _ (fun _ w => J w)); [| exact Hk].
  intros w Hw. specialize (Hm w).
  destruct (m w) as [[a | message] w1]; cbn [fst snd] in *.
  - exact (HR _ _ Hm Hw).
  - apply Hthrow. exact (HR _ _ Hm Hw).
Qed.

Lemma Contract_bulkCreate_run (svc : Services) (rows : list Contract)
    (mode : OnConflict) (w : World) :
  Contract_bulkCreate svc rows mode w =
    if dbFault svc (dbClock w)
    then (Throw (errorObject "Contract.bulkCreate" (dbFaultFinal svc (dbClock w))),
          with_dbClock S w)
    else (Ok tt,
          with_contracts
            (fun table => foldl (upsertContract mode) table rows)
            (with_dbClock S w)).
Proof.
  unfold Contract_bulkCreate, dbCall. cbv [bind modify].
  destruct (dbFault svc (dbClock w)); reflexivity.
Qed.

Lemma sameLifecycle_refl (row : Contract) : sameLifecycle row row.
Proof. repeat split. Qed.

Lemma sameLifecycle_trans (r1 r2 r3 : Contract) :
  sameLifecycle r1 r2 -> sameLifecycle r2 r3 -> sameLifecycle r1 r3.
Proof. unfold sameLifecycle. intuition congruence. Qed.

Lemma lifecycleKept_refl (w : World) : lifecycleKept w w.
Proof.
  intros a row Hrow. exists row.
  split; [exact Hrow | apply sameLifecycle_refl].
Qed.

Lemma lifecycleKept_same (w w' : World) :
  contracts w' = contracts w -> lifecycleKept w w'.
Proof.
  intros Hsame a row Hrow. exists row. rewrite Hsame.
  split; [exact Hrow | apply sameLifecycle_refl].
Qed.

Lemma lifecycleKept_trans (w1 w2 w3 : World) :
  lifecycleKept w1 w2 -> lifecycleKept w2 w3 -> lifecycleKept w1 w3.
Proof.
  intros H12 H23 a row Hrow.
  destruct (H12 a row Hrow) as (row2 & Hrow2 & Hsame2).
  destruct (H23 a row2 Hrow2) as (row3 & Hrow3 & Hsame3).
  exists row3. split; [exact Hrow3 |].
  exact (sameLifecycle_trans _ _ _ Hsame2 Hsame3).
Qed.

Lemma upsertContract_other (mode : OnConflict)
    (table : gmap string Contract) (new : Contract) (a : string) :
  a <> address new -> upsertContract mode table new !! a = table !! a.
Proof.
  intros Hne. unfold upsertContract.
  destruct (table !! address new) as [old |]; [destruct mode |];
    try reflexivity; apply lookup_insert_ne; congruence.
Qed.

Lemma upsertContracts_other (mode : OnConflict) (rows : list Contract)
    (table : gmap string Contract) (a : string) :
  ~ In a (map address rows) ->
  foldl (upsertContract mode) table rows !! a = table !! a.
Proof.
  revert table. induction rows as [| new rest IH]; intros table Hout;
    cbn [foldl]; [reflexivity |].
  cbn [map In] in Hout. rewrite IH by tauto.
  apply upsertContract_other. intros ->. tauto.
Qed.

Lemma upsertContract_backfill_keeps (mode : OnConflict)
    (table : gmap string Contract) (new : Contract) (a : string)
    (row : Contract) :
  mode <> UpdateLifecycle ->
  table !! a = Some row ->
  exists row',
    upsertContract mode table new !! a = Some row'
    /\ sameLifecycle row row'.
Proof.
  intros Hmode Hrow.
  destruct (decide (a = address new)) as [-> | Hne].
  - unfold upsertContract. rewrite Hrow.
    destruct mode; [contradiction | |].
    + rewrite lookup_insert_eq. eexists. split; [reflexivity |].
      repeat split.
    + exists row. split; [exact Hrow | apply sameLifecycle_refl].
  - rewrite upsertContract_other by exact Hne.
    exists row. split; [exact Hrow | apply sameLifecycle_refl].
Qed.

Lemma upsertContracts_backfill_keep (mode : OnConflict)
    (rows : list Contract) (table : gmap string Contract) (a : string)
    (row : Contract) :
  mode <> UpdateLifecycle ->
  table !! a = Some row ->
  exists row',
    foldl (upsertContract mode) table rows !! a = Some row'
    /\ sameLifecycle row row'.
Proof.
  intros Hmode. revert table row.
  induction rows as [| new rest IH]; intros table row Hrow; cbn [foldl].
  - exists row. split; [exact Hrow | apply sameLifecycle_refl].
  - destruct (upsertContract_backfill_keeps mode table new a row Hmode Hrow)
      as (row1 & Hrow1 & Hsame1).
    destruct (IH _ row1 Hrow1) as (row2 & Hrow2 & Hsame2).
    exists row2. split; [exact Hrow2 |].
    exact (sameLifecycle_trans _ _ _ Hsame1 Hsame2).
Qed.

Lemma upsertLifecycle_at (table : gmap string Contract) (new : Contract) :
  exists row,
    upsertContract UpdateLifecycle table new !! address new = Some row
    /\ sameLifecycle new row.
Proof.
  unfold upsertContract.
  destruct (table !! address new) as [old |];
    rewrite lookup_insert_eq; eexists; split; try reflexivity;
    repeat split.
Qed.

Lemma upsertLifecycles_at (rows : list Contract)
    (table : gmap string Contract) (new : Contract) :
  NoDup (map address rows) -> In new rows ->
  exists row,
    foldl (upsertContract UpdateLifecycle) table rows !! address new
      = Some row
    /\ sameLifecycle new row.
Proof.
  revert table. induction rows as [| r rest IH]; intros table Hnd Hin;
    [destruct Hin |].
  cbn [map] in Hnd. apply NoDup_cons in Hnd. destruct Hnd as [Hnew Hnd].
  cbn [foldl]. destruct Hin as [-> | Hin]; [| exact (IH _ Hnd Hin)].
  rewrite upsertContracts_other
    by (rewrite <- list_elem_of_In; exact Hnew).
  apply upsertLifecycle_at.
Qed.

(** What is left of [process] after the lifecycle upsert keeps the
    lifecycle columns of every row. *)
Ltac lifecycle_kept lemma :=
  apply lemma;
  first
    [ exact lifecycleKept_refl
    | exact lifecycleKept_trans
    | (intros rows mode w0 Hmode a row Hrow;
       exact (upsertContracts_backfill_keep mode rows (contracts w0) a row
                Hmode Hrow))
    | (intros f w0; apply lifecycleKept_same; reflexivity) ].

(** When a run of [process] returns on a batch whose contract events are
    of pairwise distinct addresses, the row of each of them carries the
    admin, creator and label of the event: what follows the lifecycle
    upsert in the run, the two back-fills included, leaves these columns
    alone. *)
Theorem process_records_lifecycle (cfg : Config) (svc : Services)
    (events : list Event) (w : World) (created : list CreatedEvent)
    (d : ContractEventData) :
  (process cfg svc events w).1 = Ok created ->
  NoDup (map ce_address (contractEventsOf events)) ->
  In d (contractEventsOf events) ->
  exists row,
    contracts (process cfg svc events w).2 !! ce_address d = Some row
    /\ admin row = Some (ce_admin d)
    /\ creator row = Some (ce_creator d)
    /\ label row = Some (ce_label d).
Proof.
  intros Hok Hnd Hin.
  set (J := fun w0 : World =>
         exists row,
           contracts w0 !! ce_address d = Some row
           /\ sameLifecycle (contractOfEvent d) row).
  set (Q := fun (r : result (list CreatedEvent)) (w' : World) =>
         match r with
         | Ok _ => J w'
         | Throw _ => True
         end).
  enough (H : hoare (fun _ => True) (process cfg svc events) Q).
  { specialize (H w I). unfold Q in H. rewrite Hok in H.
    destruct H as (row & Hrow & Hadmin & Hcreator & Hlabel).
    exists row. auto. }
  clear Hok.
  assert (Hkept : forall w1 w2, lifecycleKept w1 w2 -> J w1 -> J w2).
  { intros w1 w2 H12 (row & Hrow & Hsame).
    destruct (H12 _ _ Hrow) as (row2 & Hrow2 & Hsame2).
    exists row2. split; [exact Hrow2 |].
    exact (sameLifecycle_trans _ _ _ Hsame Hsame2). }
  assert (Hany : forall message w0, J w0 -> Q (Throw message) w0)
    by (intros message w0 _; exact I).
  unfold process. cbv zeta.
  apply hoare_bind_any; [intros message w0; exact I | intros _].
  apply (hoare_bind _ (fun _ w0 => J w0)).
  { intros w0 _.
    destruct (contractEventsOf events) as [| first others] eqn:Hces;
      [destruct Hin |].
    rewrite <- Hces in *. rewrite Contract_bulkCreate_run.
    destruct (dbFault svc (dbClock w0)); cbn [fst snd]; [exact I |].
    cbn [contracts with_contracts with_dbClock].
    apply (upsertLifecycles_at _ _ (contractOfEvent d)).
    - rewrite List.map_map. exact Hnd.
    - apply List.in_map. exact Hin. }
  intros _.
  apply (hoare_bind_kept lifecycleKept J); [| exact Hkept | exact Hany |].
  { apply sw_modify. intros w0. apply lifecycleKept_same. reflexivity. }
  intros _.
  apply (hoare_bind_kept lifecycleKept J); [| exact Hkept | exact Hany |].
  { destruct (contractEventsOf events); [lifecycle_kept sw_ret |].
    apply sw_modify. intros w0. apply lifecycleKept_same. reflexivity. }
  intros _. destruct (stateEventsOf events) as [| e0 rest0].
  { apply hoare_ret. intros w0 Hw0. exact Hw0. }
  apply (hoare_bind_kept lifecycleKept J);
    [lifecycle_kept sw_State_getSingleton | exact Hkept | exact Hany |].
  intros [before |].
  2: { apply hoare_throw. intros w0 _. exact I. }
  apply (hoare_bind_kept lifecycleKept J); [| exact Hkept | exact Hany |].
  { apply sw_retry; try exact lifecycleKept_refl;
      try exact lifecycleKept_trans.
    lifecycle_kept sw_exportContractsAndEvents. }
  intros exported.
  apply (hoare_bind_kept lifecycleKept J);
    [lifecycle_kept sw_attachContracts | exact Hkept | exact Hany |].
  intros joined.
  apply (hoare_bind_kept lifecycleKept J); [| exact Hkept | exact Hany |].
  { apply sw_modify. intros w0. apply lifecycleKept_same. reflexivity. }
  intros _.
  apply (hoare_bind_kept lifecycleKept J); [| exact Hkept | exact Hany |].
  { apply sw_modify. intros w0. apply lifecycleKept_same. reflexivity. }
  intros _.
  apply (hoare_bind_kept lifecycleKept J);
    [lifecycle_kept sw_gets | exact Hkept | exact Hany |].
  intros parsed.
  apply (hoare_bind_kept lifecycleKept J); [| exact Hkept | exact Hany |].
  { apply sw_retry; try exact lifecycleKept_refl;
      try exact lifecycleKept_trans.
    lifecycle_kept sw_runTransformers. }
  intros transformed.
  apply (hoare_bind_kept lifecycleKept J);
    [lifecycle_kept sw_attachContracts | exact Hkept | exact Hany |].
  intros joinedT.
  apply (hoare_bind_kept lifecycleKept J);
    [lifecycle_kept sw_queueWebhooks | exact Hkept | exact Hany |].
  intros _. destruct (last (sortByHeight events)) as [lastEvent |].
  2: { apply hoare_throw. intros w0 _. exact I. }
  apply (hoare_bind_kept lifecycleKept J);
    [lifecycle_kept sw_State_updateSingleton | exact Hkept | exact Hany |].
  intros _. apply hoare_ret. intros w0 Hw0. exact Hw0.
Qed.

Lemma process_records_lifecycle_witness :
  exists row,
    contracts (process standardConfig demoServices mixedBatch
                 worldWithContract).2 !! "xion1abc" = Some row
    /\ admin row = Some "a"
    /\ creator row = Some "c"
    /\ label row = Some "L".
Proof.
  eapply (process_records_lifecycle standardConfig demoServices mixedBatch
            worldWithContract _
            {| ce_address := "xion1abc"; ce_codeId := 42;
               ce_admin := "a"; ce_creator := "c"; ce_label := "L";
               ce_blockHeight := 100;
               ce_blockTimeUnixMs := 1700000000000 |}).
  - vm_compute. reflexivity.
  - apply (bool_decide_unpack _). vm_compute. reflexivity.
  - left. reflexivity.
Defined.

(** ** Contract rows for the events of a batch *)

Lemma contractsKept_same (w w' : World) :
  contracts w' = contracts w -> contractsKept w w'.
Proof.
  intros Hsame a row Hrow. exists row. rewrite Hsame.
  split; [exact Hrow | apply sameInstantiation_refl].
Qed.

Lemma haveRows_kept (addresses : list string) (w w' : World) :
  contractsKept w w' -> haveRows addresses w -> haveRows addresses w'.
Proof.
  intros Hkept Hrows a Ha. destruct (Hrows a Ha) as [row Hrow].
  destruct (Hkept a row Hrow) as (row' & Hrow' & _). eauto.
Qed.

Lemma upsertContracts_some (mode : OnConflict) (rows : list Contract)
    (table : gmap string Contract) (row : Contract) :
  In row rows ->
  is_Some (foldl (upsertContract mode) table rows !! address row).
Proof.
  revert table. induction rows as [| r rest IH]; intros table Hin;
    [destruct Hin |].
  cbn [foldl]. destruct Hin as [-> | Hin]; [| exact (IH _ Hin)].
  assert (Hnow : is_Some (upsertContract mode table row !! address row)).
  { unfold upsertContract.
    destruct (table !! address row) as [old |] eqn:Hold;
      [destruct mode |]; rewrite ?lookup_insert_eq, ?Hold; eauto. }
  destruct Hnow as [row1 Hrow1].
  destruct (upsertContracts_keep mode rest _ _ _ Hrow1)
    as (row2 & Hrow2 & _).
  eauto.
Qed.

Lemma contractsForAddresses_cover (events : list StateEventData)
    (addresses : list string) (rows : list Contract) :
  contractsForAddresses events addresses = Some rows ->
  forall a, In a addresses -> exists row, In row rows /\ address row = a.
Proof.
  revert rows. induction addresses as [| b rest IH]; intros rows Hrows a Ha;
    [destruct Ha |].
  cbn [contractsForAddresses] in Hrows.
  destruct (contractForAddress events b) as [row |] eqn:Hrow;
    [| discriminate Hrows].
  destruct (contractsForAddresses events rest) as [others |];
    [| discriminate Hrows].
  injection Hrows as <-. destruct Ha as [<- | Ha].
  - exists row. split; [left; reflexivity |].
    exact (contractForAddress_address events b row Hrow).
  - destruct (IH others eq_refl a Ha) as (row' & Hin & Haddress).
    exists row'. split; [right; exact Hin | exact Haddress].
Qed.

(** What follows an upsert of contract rows keeps every row. *)
Ltac rows_kept lemma :=
  apply lemma;
  first
    [ exact contractsKept_refl
    | exact contractsKept_trans
    | (intros rows mode w0 a row Hrow;
       exact (upsertContracts_keep mode rows (contracts w0) a row Hrow))
    | (intros rows mode w0 Hmode a row Hrow;
       exact (upsertContracts_keep mode rows (contracts w0) a row Hrow))
    | (intros f w0; apply contractsKept_same; reflexivity) ].

(** One attempt of the export that returns has made sure of a row for
    each of the addresses it was given, and has kept the rows that were
    there. *)
Lemma exportContractsAndEvents_rows (cfg : Config) (svc : Services)
    (known addresses : list string) :
  hoare (haveRows known) (exportContractsAndEvents cfg svc addresses)
    (fun r w =>
       match r with
       | Ok _ => haveRows known w /\ haveRows addresses w
       | Throw _ => haveRows known w
       end).
Proof.
  set (J := fun w => haveRows known w /\ haveRows addresses w).
  assert (Hkept : forall w w', contractsKept w w' -> J w -> J w').
  { intros w w' Hww' [H1 H2].
    split; eapply haveRows_kept; eauto. }
  assert (Hany : forall message w,
             J w ->
             match @Throw (list Contract * list StateEventData) message with
             | Ok _ => haveRows known w /\ haveRows addresses w
             | Throw _ => haveRows known w
             end)
    by (intros message w [H1 _]; exact H1).
  unfold exportContractsAndEvents.
  apply (hoare_bind _ (fun _ w => J w)).
  { intros w Hw. unfold ensureContractsExist. cbv [bind gets ret throw].
    destruct (contractsForAddresses (stateEvents w) addresses)
      as [rows |] eqn:Hrows; cbn [fst snd]; [| exact Hw].
    rewrite Contract_bulkCreate_run.
    destruct (dbFault svc (dbClock w)); cbn [fst snd]; [exact Hw |].
    split.
    - eapply haveRows_kept; [| exact Hw].
      intros a row Hrow. cbn [contracts with_contracts with_dbClock].
      exact (upsertContracts_keep _ rows (contracts w) a row Hrow).
    - intros a Ha.
      destruct (contractsForAddresses_cover _ _ _ Hrows a Ha)
        as (row & Hin & <-).
      cbn [contracts with_contracts with_dbClock].
      exact (upsertContracts_some _ rows (contracts w) row Hin). }
  intros _.
  apply (hoare_bind_kept contractsKept J);
    [rows_kept sw_Contract_findAll | exact Hkept | exact Hany |].
  intros found. cbv zeta.
  apply (hoare_bind_kept contractsKept J);
    [rows_kept sw_codeIdBackfill | exact Hkept | exact Hany |].
  intros found'.
  apply (hoare_bind_kept contractsKept J); [| exact Hkept | exact Hany |].
  { apply sw_modify. intros w. apply contractsKept_same. reflexivity. }
  intros _.
  apply (hoare_bind_kept contractsKept J);
    [rows_kept sw_gets | exact Hkept | exact Hany |].
  intros kept.
  apply (hoare_bind_kept contractsKept J);
    [rows_kept sw_WasmStateEvent_bulkCreate | exact Hkept | exact Hany |].
  intros exported. apply hoare_ret. intros w Hw. exact Hw.
Qed.

(** When a run of [process] returns, every contract that the batch names
    has a row: the contract of each contract event and the contract of
    each state event, also of those the allowlist holds back. *)
Theorem process_ensures_contract_rows (cfg : Config) (svc : Services)
    (events : list Event) (w : World) (created : list CreatedEvent) :
  (process cfg svc events w).1 = Ok created ->
  (forall d, In d (contractEventsOf events) ->
     is_Some (contracts (process cfg svc events w).2 !! ce_address d))
  /\ (forall e, In e (stateEventsOf events) ->
        is_Some (contracts (process cfg svc events w).2
                   !! se_contractAddress e)).
Proof.
  enough (H : forall la ls,
            la = map ce_address (contractEventsOf events) ->
            ls = map se_contractAddress (stateEventsOf events) ->
            hoare (fun _ => True) (process cfg svc events)
              (fun r w' =>
                 match r with
                 | Ok _ => haveRows la w' /\ haveRows ls w'
                 | Throw _ => True
                 end)).
  { intros Hok. specialize (H _ _ eq_refl eq_refl w I). cbn beta in H.
    rewrite Hok in H. destruct H as [Hla Hls].
    split; [intros d Hd; apply Hla | intros e He; apply Hls];
      apply List.in_map; assumption. }
  intros la ls Hla Hls.
  set (Q := fun (r : result (list CreatedEvent)) (w' : World) =>
         match r with
         | Ok _ => haveRows la w' /\ haveRows ls w'
         | Throw _ => True
         end).
  change (hoare (fun _ => True) (process cfg svc events) Q).
  assert (Hkept : forall w1 w2,
             contractsKept w1 w2 -> haveRows la w1 -> haveRows la w2)
    by (intros w1 w2; apply haveRows_kept).
  assert (Hany : forall message w0, haveRows la w0 -> Q (Throw message) w0)
    by (intros message w0 _; exact I).
  unfold process. cbv zeta.
  apply hoare_bind_any; [intros message w0; exact I | intros _].
  apply (hoare_bind _ (fun _ w0 => haveRows la w0)).
  { intros w0 _.
    destruct (contractEventsOf events) as [| first others] eqn:Hces.
    - rewrite Hla. intros a [].
    - rewrite <- Hces in *. rewrite Contract_bulkCreate_run.
      destruct (dbFault svc (dbClock w0)); cbn [fst snd]; [exact I |].
      intros a Ha. rewrite Hla in Ha.
      apply List.in_map_iff in Ha. destruct Ha as (d & <- & Hd).
      cbn [contracts with_contracts with_dbClock].
      apply (upsertContracts_some _ _ _ (contractOfEvent d)).
      apply List.in_map. exact Hd. }
  intros _.
  apply (hoare_bind_kept contractsKept (haveRows la));
    [| exact Hkept | exact Hany |].
  { apply sw_modify. intros w0. apply contractsKept_same. reflexivity. }
  intros _.
  apply (hoare_bind_kept contractsKept (haveRows la));
    [| exact Hkept | exact Hany |].
  { destruct (contractEventsOf events); [rows_kept sw_ret |].
    apply sw_modify. intros w0. apply contractsKept_same. reflexivity. }
  intros _. destruct (stateEventsOf events) as [| e0 rest0] eqn:Hbatch.
  { apply hoare_ret. intros w0 Hw0. split; [exact Hw0 |].
    rewrite Hls. intros a []. }
  rewrite <- Hbatch.
  apply (hoare_bind_kept contractsKept (haveRows la));
    [rows_kept sw_State_getSingleton | exact Hkept | exact Hany |].
  intros [before |].
  2: { apply hoare_throw. intros w0 _. exact I. }
  set (J := fun w0 => haveRows la w0 /\ haveRows ls w0).
  assert (HkeptJ : forall w1 w2, contractsKept w1 w2 -> J w1 -> J w2).
  { intros w1 w2 H12 [H1 H2]. split; eapply haveRows_kept; eauto. }
  assert (HanyJ : forall message w0, J w0 -> Q (Throw message) w0)
    by (intros message w0 _; exact I).
  apply (hoare_bind _ (fun _ w0 => J w0)).
  { unfold retry.
    apply (hoare_attempts (haveRows la)
             (fun r w1 =>
                match r with
                | Ok _ => J w1
                | Throw message => Q (Throw message) w1
                end)).
    - eapply hoare_weaken; [apply exportContractsAndEvents_rows |].
      intros [exported | message] w1 Hrun; [| exact Hrun].
      destruct Hrun as [H1 H2]. split; [exact H1 |].
      intros a Ha. apply H2. apply In_unique. rewrite Hbatch, <- Hls.
      exact Ha.
    - intros message w1 _. exact I. }
  intros exported.
  apply (hoare_bind_kept contractsKept J);
    [rows_kept sw_attachContracts | exact HkeptJ | exact HanyJ |].
  intros joined.
  apply (hoare_bind_kept contractsKept J);
    [| exact HkeptJ | exact HanyJ |].
  { apply sw_modify. intros w0. apply contractsKept_same. reflexivity. }
  intros _.
  apply (hoare_bind_kept contractsKept J);
    [| exact HkeptJ | exact HanyJ |].
  { apply sw_modify. intros w0. apply contractsKept_same. reflexivity. }
  intros _.
  apply (hoare_bind_kept contractsKept J);
    [rows_kept sw_gets | exact HkeptJ | exact HanyJ |].
  intros parsed.
  apply (hoare_bind_kept contractsKept J);
    [| exact HkeptJ | exact HanyJ |].
  { apply sw_retry; try exact contractsKept_refl;
      try exact contractsKept_trans.
    rows_kept sw_runTransformers. }
  intros transformed.
  apply (hoare_bind_kept contractsKept J);
    [rows_kept sw_attachContracts | exact HkeptJ | exact HanyJ |].
  intros joinedT.
  apply (hoare_bind_kept contractsKept J);
    [rows_kept sw_queueWebhooks | exact HkeptJ | exact HanyJ |].
  intros _. destruct (last (sortByHeight events)) as [lastEvent |].
  2: { apply hoare_throw. intros w0 _. exact I. }
  apply (hoare_bind_kept contractsKept J);
    [rows_kept sw_State_updateSingleton | exact HkeptJ | exact HanyJ |].
  intros _. apply hoare_ret. intros w0 Hw0. exact Hw0.
Qed.

Lemma process_ensures_contract_rows_witness :
  (forall d, In d (contractEventsOf sortedBatch) ->
     is_Some (contracts
                (process standardConfig demoServices sortedBatch
                   (emptyWorld (Some exportedAt50))).2 !! ce_address d))
  /\ (forall e, In e (stateEventsOf sortedBatch) ->
        is_Some (contracts
                   (process standardConfig demoServices sortedBatch
                      (emptyWorld (Some exportedAt50))).2
                   !! se_contractAddress e)).
Proof.
  exact (process_ensures_contract_rows standardConfig demoServices
           sortedBatch (emptyWorld (Some exportedAt50)) _ eq_refl).
Defined.

(** ** A retry after the allowlist filter *)

Lemma contractsForAddresses_none (events : list StateEventData)
    (addresses : list string) (a : string) :
  In a addresses ->
  List.find (fun event => String.eqb (se_contractAddress event) a) events
    = None ->
  contractsForAddresses events addresses = None.
Proof.
  intros Hin Hfind. induction addresses as [| b rest IH]; [destruct Hin |].
  cbn [contractsForAddresses]. destruct Hin as [-> | Hin].
  - unfold contractForAddress. rewrite Hfind. reflexivity.
  - rewrite (IH Hin). destruct (contractForAddress events b); reflexivity.
Qed.

Lemma exportContractsAndEvents_without_event (cfg : Config)
    (svc : Services) (addresses : list string) (w : World) (a : string) :
  In a addresses ->
  List.find (fun event => String.eqb (se_contractAddress event) a)
    (stateEvents w) = None ->
  exportContractsAndEvents cfg svc addresses w
  = (Throw "Event not found when creating contract.", w).
Proof.
  intros Hin Hfind.
  unfold exportContractsAndEvents, ensureContractsExist.
  cbv [bind gets].
  rewrite (contractsForAddresses_none _ _ a Hin Hfind). reflexivity.
Qed.

(** The allowlist filter of a failed attempt is not undone before the
    next one. If the first attempt of the export throws, for whatever
    reason, after its filter has left no parsed event of one of the
    contracts, then no later attempt reaches the database and the retried
    call throws, in the world the first attempt left: what [retry]
    rethrows of the first attempt when it gives up on its error, and
    otherwise [Event not found when creating contract.], which is what
    each later attempt throws. *)
Theorem retry_after_filter_cannot_succeed (cfg : Config) (svc : Services)
    (addresses : list string) (w : World) (a : string) (error : Thrown) :
  In a addresses ->
  (exportContractsAndEvents cfg svc addresses w).1 = Throw error ->
  List.find (fun event => String.eqb (se_contractAddress event) a)
    (stateEvents (exportContractsAndEvents cfg svc addresses w).2) = None ->
  retry (exportContractsAndEvents cfg svc addresses) retryOptions w
  = (Throw (if stopsRetry error then rethrown error
            else Error_ "Event not found when creating contract."),
     (exportContractsAndEvents cfg svc addresses w).2).
Proof.
  intros Hin Hthrow Hfind. unfold retry. cbn [retriesMax retryOptions].
  rewrite attempts_step.
  destruct (exportContractsAndEvents cfg svc addresses w)
    as [[exported | error1] w1]; cbn [fst snd] in *;
    [discriminate Hthrow |].
  injection Hthrow as ->.
  destruct (stopsRetry error); [reflexivity |].
  rewrite attempts_step.
  rewrite (exportContractsAndEvents_without_event cfg svc addresses w1 a
             Hin Hfind).
  change (stopsRetry (Error_ "Event not found when creating contract."))
    with false.
  cbn [attempts].
  rewrite (exportContractsAndEvents_without_event cfg svc addresses w1 a
             Hin Hfind).
  reflexivity.
Qed.

Lemma retry_after_filter_cannot_succeed_witness :
  (retry (exportContractsAndEvents osmosisConfig (faultyAt 2)
            ["osmo1vault"; "osmo1other"]) retryOptions vaultWorld).1
  = Throw "Event not found when creating contract.".
Proof.
  rewrite (retry_after_filter_cannot_succeed osmosisConfig (faultyAt 2)
             ["osmo1vault"; "osmo1other"] vaultWorld "osmo1vault"
             "WasmStateEvent.bulkCreate").
  - reflexivity.
  - left. reflexivity.
  - vm_compute. reflexivity.
  - vm_compute. reflexivity.
Defined.

(** The same in a whole run: the database refuses one call, the insert of
    the state events of the first attempt, and the batch fails although
    two attempts were left. *)
Example transient_fault_fails_the_batch :
  (process osmosisConfig (faultyAt 4) vaultBatch vaultWorld).1
  = Throw "Event not found when creating contract.".
Proof. vm_compute. reflexivity. Qed.

(** ** The handler maker *)

(** A handler is made exactly for a chain ID that is not empty and that,
    where the table does not list it, does not name a property that the
    table inherits. *)
Lemma wasm_made (cfg : Config) (svc : Services) :
  wasm cfg svc = Ok tt <->
  chainId cfg <> EmptyString
  /\ (CONTRACT_STATE_EVENT_KEY_ALLOWLIST (chainId cfg) = None ->
      includesString (chainId cfg) inheritedProperties = false).
Proof.
  unfold wasm, stateEventAllowlist.
  destruct (String.eqb_spec (chainId cfg) EmptyString) as [Hempty | Hchain].
  - split; [discriminate | intros [Hne _]; contradiction].
  - destruct (CONTRACT_STATE_EVENT_KEY_ALLOWLIST (chainId cfg)).
    + split; [intros _; split; [exact Hchain | discriminate] | reflexivity].
    + destruct (includesString (chainId cfg) inheritedProperties).
      * split; [discriminate | intros [_ Hno]].
        specialize (Hno eq_refl). discriminate Hno.
      * split; [intros _; split; [exact Hchain | reflexivity] | reflexivity].
Qed.

(** No handler is made for the chain ID [constructor]. *)
Example wasm_constructor :
  exists error,
    wasm {| bech32Prefix := "xion"; chainId := "constructor";
            sendWebhooks := false |} demoServices = Throw error.
Proof. eexists. reflexivity. Qed.

(** ** The allowlist filter in the export *)

Lemma hoare_strengthen {A : Type} (P P' : World -> Prop)
    (Q : result A -> World -> Prop) (m : M World A) :
  hoare P m Q -> (forall w, P' w -> P w) -> hoare P' m Q.
Proof. intros Hm HP w Hw. exact (Hm w (HP w Hw)). Qed.

Lemma Contract_findAll_run (svc : Services) (addresses : list string)
    (w : World) :
  Contract_findAll svc addresses w =
    if dbFault svc (dbClock w)
    then (Throw (errorObject "Contract.findAll" (dbFaultFinal svc (dbClock w))),
          with_dbClock S w)
    else (Ok (omap (fun a => contracts w !! a) addresses),
          with_dbClock S w).
Proof.
  unfold Contract_findAll, dbCall. cbv [bind gets].
  destruct (dbFault svc (dbClock w)); reflexivity.
Qed.

(** What [Contract.findAll] returns is the rows of the table as it leaves
    it. *)
Lemma Contract_findAll_rows (svc : Services) (addresses : list string)
    (evs : list StateEventData) :
  hoare (fun w => stateEvents w = evs) (Contract_findAll svc addresses)
    (fun r w =>
       match r with
       | Ok found =>
         found = omap (fun a => contracts w !! a) addresses
         /\ stateEvents w = evs
       | Throw _ => True
       end).
Proof.
  intros w Hw. rewrite Contract_findAll_run.
  destruct (dbFault svc (dbClock w)); cbn [fst snd]; [exact I |].
  split; [reflexivity | exact Hw].
Qed.

(** One attempt of the export that returns: the contracts it returns are
    the rows of the table as the attempt leaves it, after the code-ID
    back-fill, and the events it returns, which are the parsed events it
    leaves, are the parsed events it found filtered with these
    contracts. *)
Lemma exportContractsAndEvents_filters (cfg : Config) (svc : Services)
    (addresses : list string) (evs : list StateEventData) :
  hoare (fun w => stateEvents w = evs)
    (exportContractsAndEvents cfg svc addresses)
    (fun r w =>
       match r with
       | Ok exported =>
         exported.1 = omap (fun a => contracts w !! a) addresses
         /\ stateEvents w = exported.2
         /\ exported.2
            = filterStateEvents (allowlist cfg svc) exported.1 evs
       | Throw _ => True
       end).
Proof.
  set (rows := fun (found : list Contract) (w : World) =>
                 found = omap (fun a => contracts w !! a) addresses).
  unfold exportContractsAndEvents.
  apply (hoare_bind_same stateEvents (fun x => x = evs));
    [footprint sw_ensureContractsExist | intros message w _; exact I |].
  intros _.
  apply (hoare_bind _ (fun found w => rows found w /\ stateEvents w = evs)).
  { eapply hoare_weaken; [apply Contract_findAll_rows |].
    intros [found | error] w H; exact H. }
  intros found0. cbv zeta.
  apply (hoare_bind _ (fun found w => rows found w /\ stateEvents w = evs)).
  { destruct (List.filter _ found0) as [| row others].
    - apply hoare_ret. intros w Hw. exact Hw.
    - apply (hoare_strengthen (fun w => stateEvents w = evs));
        [| intros w Hw; exact (proj2 Hw)].
      apply (hoare_bind_same stateEvents (fun x => x = evs));
        [| intros message w _; exact I |].
      { apply sw_mapM; try untouched. intros contract.
        footprint sw_resolveCodeId. }
      intros ids.
      apply (hoare_bind_same stateEvents (fun x => x = evs));
        [footprint sw_Contract_bulkCreate | intros message w _; exact I |].
      intros _. eapply hoare_weaken; [apply Contract_findAll_rows |].
      intros [found | error] w H; exact H. }
  intros found.
  apply (hoare_bind _ (fun _ w =>
           rows found w
           /\ stateEvents w = filterStateEvents (allowlist cfg svc) found evs)).
  { intros w [Hrows Hevs]. unfold modify. cbn [fst snd].
    split; [exact Hrows |].
    cbn [stateEvents with_stateEvents]. rewrite Hevs. reflexivity. }
  intros _.
  apply (hoare_bind _ (fun kept w =>
           kept = filterStateEvents (allowlist cfg svc) found evs
           /\ rows found w /\ stateEvents w = kept)).
  { intros w [Hrows Hevs]. cbn [fst snd gets]. auto. }
  intros kept. apply hoare_pure. intros ->.
  apply (hoare_bind _ (fun exported w =>
           exported = filterStateEvents (allowlist cfg svc) found evs
           /\ rows found w /\ stateEvents w = exported)).
  { intros w [Hrows Hevs]. rewrite WasmStateEvent_bulkCreate_run.
    destruct (dbFault svc (dbClock w)); cbn [fst snd]; [exact I |].
    split; [reflexivity |]. split; [exact Hrows | exact Hevs]. }
  intros exported. apply hoare_ret. intros w (-> & Hrows & Hevs).
  cbn [fst snd]. auto.
Qed.

(** C1. The filter step of the export, whenever an attempt of the export
    returns. The contracts it returns are the rows of the table as the
    attempt leaves it, so with the code IDs the back-fill resolved. The
    events it returns, which are the parsed events it leaves, are the
    parsed events it found filtered by these code IDs: an event is kept
    exactly when its contract has no row or the code ID 0 among them, or
    every rule of the chain whose code IDs, as the Wasm-code service
    resolves its keys, contain the code ID of the contract lists the key
    of the event. On a chain without rules, and where no rule resolves to
    a code ID, every event is kept. *)
Theorem C1_allowlist_filter (cfg : Config) (svc : Services)
    (addresses : list string) (w : World) (found : list Contract)
    (exported : list StateEventData) :
  (exportContractsAndEvents cfg svc addresses w).1 = Ok (found, exported) ->
  found
  = omap (fun a =>
            contracts (exportContractsAndEvents cfg svc addresses w).2 !! a)
      addresses
  /\ stateEvents (exportContractsAndEvents cfg svc addresses w).2 = exported
  /\ exported = filterStateEvents (allowlist cfg svc) found (stateEvents w)
  /\ (forall E,
        In E exported <->
        In E (stateEvents w)
        /\ (let c := codeId <$> findContract (se_contractAddress E) found in
            c = None \/ c = Some 0
            \/ forall rule, In rule (chainRules cfg svc) ->
               forall id, c = Some id ->
               In id (findWasmCodeIdsByKeys svc (codeIdsKeys rule)) ->
               In (se_key E) (stateKeys rule))).
Proof.
  intros Hok.
  pose proof (exportContractsAndEvents_filters cfg svc addresses
                (stateEvents w) w eq_refl) as Hrun.
  cbn beta in Hrun. rewrite Hok in Hrun. cbn [fst snd] in Hrun.
  destruct Hrun as (Hrows & Hevs & Hfilter).
  split; [exact Hrows |]. split; [exact Hevs |]. split; [exact Hfilter |].
  intros E. rewrite Hfilter at 1. apply filterStateEvents_chain.
Qed.

Lemma C1_allowlist_filter_witness :
  exists found exported,
    (exportContractsAndEvents osmosisConfig resolvingServices ["osmo1vault"]
       unknownVaultWorld).1 = Ok (found, exported)
    /\ codeId <$> findContract "osmo1vault" found = Some 100
    /\ ~ In (stateEventAt 103 "osmo1vault" "1") exported
    /\ In (stateEventAt 104 "osmo1vault"
             (dbKeyForKeys demoServices "contract_info")) exported.
Proof.
  eexists _, _. split; [vm_compute; reflexivity |].
  destruct (C1_allowlist_filter osmosisConfig resolvingServices
              ["osmo1vault"] unknownVaultWorld _ _ eq_refl)
    as (_ & _ & _ & Hkept).
  split; [reflexivity |]. split.
  - intros Hin. apply Hkept in Hin. destruct Hin as [_ Hrule].
    cbv zeta in Hrule.
    destruct Hrule as [Hnone | [Hzero | Hrule]];
      [discriminate Hnone | discriminate Hzero |].
    specialize (Hrule _ (or_introl eq_refl) 100 eq_refl
                  (or_introl eq_refl)).
    vm_compute in Hrule. destruct Hrule as [Hkey | []].
    discriminate Hkey.
  - apply Hkept. split; [right; left; reflexivity |].
    right. right. intros rule [<- | []] id _ _. left. reflexivity.
Defined.
